(** * dcsxx-cloud-gt: coalition formation in green cloud federations

    A shallow embedding of [src/sim.cpp] and the properties of its
    placement solver interface, coalition evaluator, partition selectors,
    scenario parser, CSV exporter and command line.

    Conventions.
    - [RealT] is [double].  Finite doubles are idealised as exact rationals
      ([Qc]); the special values the program relies on (quiet NaN, the
      infinities used as defaults) are kept as constructors of [real].
    - [std::size_t] indices and counts are [nat]; coalition identifiers
      ([gtpack::cid_type]) are [N] bit masks.
    - [std::map] is [gmap], [std::set] is [gset], [std::vector] is [list].
    - Code of other libraries (the MILP back-end, gtpack's solution
      concepts, the stream extraction of numbers) enters as Section
      variables; the enumerators and option look-ups of dcsxx-commons are
      modelled from the specification where a closed run is needed. *)

From Stdlib Require Import QArith Qcanon Qround Lqa ZArith List Lia Bool Ascii String.
From stdpp Require Import gmap list numbers strings sorting.

Local Open Scope Qc_scope.

(** ** Floating-point values *)

Module Floats.

Inductive real : Type :=
| NaN
| PInf
| NInf
| Fin (q : Qc).

#[global] Instance real_eq_dec : EqDecision real.
Proof. solve_decision. Defined.

(** [x + y] on doubles, exact on finite operands. *)
Definition radd (x y : real) : real :=
  match x, y with
  | NaN, _ | _, NaN => NaN
  | PInf, NInf | NInf, PInf => NaN
  | PInf, _ | _, PInf => PInf
  | NInf, _ | _, NInf => NInf
  | Fin a, Fin b => Fin (a + b)
  end.

Definition ropp (x : real) : real :=
  match x with
  | NaN => NaN
  | PInf => NInf
  | NInf => PInf
  | Fin a => Fin (- a)
  end.

Definition rsub (x y : real) : real := radd x (ropp y).

(** [x < y]; every comparison with a NaN operand is false. *)
Definition rlt (x y : real) : bool :=
  match x, y with
  | NaN, _ | _, NaN => false
  | _, NInf => false
  | NInf, _ => true
  | PInf, _ => false
  | Fin _, PInf => true
  | Fin a, Fin b => bool_decide (a < b)
  end.

Definition rgt (x y : real) : bool := rlt y x.

(** [std::isnan]. *)
Definition isnan (x : real) : bool :=
  match x with NaN => true | _ => false end.

(** [std::numeric_limits<double>::min()]: the smallest positive normal
    double, 2^-1022. *)
Definition numeric_limits_min : Qc := Q2Qc (1 # (2 ^ 1022)).

(** [std::accumulate]-style left-to-right sum starting from [RealT(0)]. *)
Definition rsum (l : list real) : real := fold_left radd l (Fin 0).

Definition qabs (a : Qc) : Qc := if bool_decide (a < 0) then - a else a.
Definition qmax (a b : Qc) : Qc := if bool_decide (a < b) then b else a.

(** Modelled from the spec: [dcs::math::float_traits] (dcsxx-commons is
    not part of the sources) compares with a tolerance relative to the
    larger magnitude: [x] is definitely greater than [y] when
    [x - y > max(|x|,|y|) * tol].  With an infinite or NaN operand the two
    sides are infinite or NaN and the comparison is false. *)
Definition definitely_greater_tol (tol : Qc) (x y : real) : bool :=
  match x, y with
  | Fin a, Fin b => bool_decide (qmax (qabs a) (qabs b) * tol < a - b)
  | _, _ => false
  end.

Definition definitely_less_tol (tol : Qc) (x y : real) : bool :=
  definitely_greater_tol tol y x.

(** A tolerance of the order of the machine epsilon, for the examples. *)
Definition sample_tolerance : Qc := Q2Qc (100 # (2 ^ 52)).

End Floats.

Export Floats.

(** ** Scenario *)

Record scenario : Type := mk_scenario {
  num_cips : nat;
  num_pm_types : nat;
  num_vm_types : nat;
  cip_num_pms : list (list nat);
  cip_num_vms : list (list nat);
  cip_pm_power_states : list (list bool);
  cip_revenues : list (list Qc);
  cip_electricity_costs : list Qc;
  cip_pm_asleep_costs : list (list Qc);
  cip_pm_awake_costs : list (list Qc);
  cip_to_cip_vm_migration_costs : list (list (list Qc));
  pm_spec_min_powers : list Qc;
  pm_spec_max_powers : list Qc;
  vm_spec_cpus : list (list Qc);
  vm_spec_rams : list (list Qc)
}.

(** Unchecked element access [v[i]], [m[i][j]], [c[i][j][k]] on vectors
    that the caller has sized; a missing element reads as the zero of
    its type. *)
Definition at1 {A} (d : A) (v : list A) (i : nat) : A := nth i v d.
Definition at2 {A} (d : A) (m : list (list A)) (i j : nat) : A :=
  nth j (nth i m []) d.
Definition at3 {A} (d : A) (c : list (list (list A))) (i j k : nat) : A :=
  nth k (nth j (nth i c []) []) d.

(** ** Scenario parser: the [cip_to_cip_vm_migration_costs] record *)

Module Parser.

(** A [std::istringstream]: the unread characters and [good()]. *)
Record istream : Type := mk_istream { buf : list ascii; good : bool }.

Fixpoint skip_past (delim : ascii) (l : list ascii) : option (list ascii) :=
  match l with
  | [] => None
  | c :: r => if Ascii.eqb c delim then Some r else skip_past delim r
  end.

(** [iss.ignore(numeric_limits<streamsize>::max(), delim)]: discards up to
    and including [delim]; reaching the end first sets [eofbit]. *)
Definition ignore (delim : ascii) (s : istream) : istream :=
  if good s then
    match skip_past delim (buf s) with
    | Some r => mk_istream r true
    | None => mk_istream [] false
    end
  else s.

Inductive parse_error : Type :=
| Malformed (missing : ascii)   (* DCS_ASSERT(iss.good(), throw runtime_error) *)
| OutOfRange.                   (* operator[] past the end of a vector *)

(** The parser state: the line being read, the table under construction
    ([s.cip_to_cip_vm_migration_costs]) and, as a ghost field, the index
    triples of the elements handed to [operator>>], oldest first. *)
Record pstate : Type := mk_pstate {
  iss : istream;
  tbl : list (list (list Qc));
  stores : list (nat * nat * nat)
}.

Definition M (A : Type) : Type := pstate -> pstate * (parse_error + A).

Definition ret {A} (a : A) : M A := fun st => (st, inr a).

Definition bind {A B} (m : M A) (k : A -> M B) : M B :=
  fun st =>
    match m st with
    | (st', inl e) => (st', inl e)
    | (st', inr a) => k a st'
    end.

Notation "m >>> k" := (bind m (fun _ => k))
  (at level 62, right associativity).

(** [for (std::size_t i = 0; i < n; ++i) body] *)
Fixpoint for_each (l : list nat) (body : nat -> M unit) : M unit :=
  match l with
  | [] => ret tt
  | i :: r => body i >>> for_each r body
  end.

Definition for_upto (n : nat) (body : nat -> M unit) : M unit :=
  for_each (seq 0 n) body.

(** "Move to [delim]": [iss.ignore(..., delim)] then
    [DCS_ASSERT(iss.good(), throw ...)]. *)
Definition move_to (delim : ascii) : M unit :=
  fun st =>
    let s' := ignore delim (iss st) in
    let st' := mk_pstate s' (tbl st) (stores st) in
    if good s' then (st', inr tt) else (st', inl (Malformed delim)).

(** [s.cip_to_cip_vm_migration_costs.resize(n)] *)
Definition resize_outer (n : nat) : M unit :=
  fun st => (mk_pstate (iss st) (resize n [] (tbl st)) (stores st), inr tt).

(** [s.cip_to_cip_vm_migration_costs[c].resize(n)] *)
Definition resize_row (c n : nat) : M unit :=
  fun st =>
    match tbl st !! c with
    | None => (st, inl OutOfRange)
    | Some row =>
        (mk_pstate (iss st) (<[c := resize n [] row]> (tbl st)) (stores st),
         inr tt)
    end.

Section Extraction.

(** [operator>>(std::istream&, double&)] of the C++ library: from the
    stream and the current value of the target, the stream afterwards and
    the value left in the target. *)
Variable extract_real : istream -> Qc -> istream * Qc.

(** [iss >> s.cip_to_cip_vm_migration_costs[i][j][k]] *)
Definition extract_into (i j k : nat) : M unit :=
  fun st =>
    let st1 := mk_pstate (iss st) (tbl st) (stores st ++ [(i, j, k)]) in
    match tbl st !! i with
    | None => (st1, inl OutOfRange)
    | Some plane =>
        match plane !! j with
        | None => (st1, inl OutOfRange)
        | Some line =>
            match line !! k with
            | None => (st1, inl OutOfRange)
            | Some old =>
                let '(s', new) := extract_real (iss st) old in
                (mk_pstate s'
                   (<[i := <[j := <[k := new]> line]> plane]> (tbl st))
                   (stores st1),
                 inr tt)
            end
        end
    end.

(** The branch of [make_scenario] for a line starting with
    [cip_to_cip_vm_migration_costs].  The inner loop variable is again
    called [c] and hides the outer one, so both vector indices of the
    extraction are the inner counter; the innermost bound is
    [s.num_pm_types]. *)
Definition parse_migration_costs (ncips nvmtypes npmtypes : nat) : M unit :=
  move_to "=" >>>
  move_to "[" >>>
  resize_outer ncips >>>
  for_upto ncips (fun _ =>
    move_to "[" >>>
    resize_outer ncips >>>
    for_upto ncips (fun c =>
      move_to "[" >>>
      resize_row c nvmtypes >>>
      for_upto npmtypes (fun p => extract_into c c p) >>>
      move_to "]") >>>
    move_to "]").

(** A run on one line of the scenario file, starting from the table as the
    parser holds it. *)
Definition parse_migration_costs_line (ncips nvmtypes npmtypes : nat)
    (line : list ascii) (table : list (list (list Qc)))
  : pstate * (parse_error + unit) :=
  parse_migration_costs ncips nvmtypes npmtypes
    (mk_pstate (mk_istream line true) table []).

End Extraction.

(** Every recorded extraction target lies on the diagonal of the first two
    dimensions. *)
Definition diagonal_only (st : pstate) : Prop :=
  Forall (fun t => fst (fst t) = snd (fst t)) (stores st).

Definition keeps_diagonal {A} (m : M A) : Prop :=
  forall st, diagonal_only st -> diagonal_only (fst (m st)).

(** A one-digit reader standing in for [num_get] in the examples: skips
    blanks, then takes one decimal digit; anything else sets [failbit] and
    leaves the target as it was. *)
Fixpoint skip_blanks (l : list ascii) : list ascii :=
  match l with
  | c :: r => if Ascii.eqb c " " then skip_blanks r else l
  | [] => []
  end.

Definition digit_value (c : ascii) : option Z :=
  let n := Z.of_nat (nat_of_ascii c) in
  if ((48 <=? n) && (n <=? 57))%Z then Some (n - 48)%Z else None.

Definition extract_digit (s : istream) (old : Qc) : istream * Qc :=
  if good s then
    match skip_blanks (buf s) with
    | c :: r =>
        match digit_value c with
        | Some d => (mk_istream r true, Q2Qc (inject_Z d))
        | None => (mk_istream (c :: r) false, old)
        end
    | [] => (mk_istream [] false, old)
    end
  else (s, old).

(** The line of a two-provider, one-type scenario. *)
Definition sample_line : list ascii :=
  list_ascii_of_string "cip_to_cip_vm_migration_costs=[[[1] [2]] [[3] [4]]]".

End Parser.

(** ** Placement solver: [find_optimal_allocation] *)

Module Solver.

(** Decision variables of the model: [x[h]], [y[v][h]] and [s[h]]. *)
Inductive var : Type :=
| X (h : nat)
| Y (v h : nat)
| S (h : nat).

(** Linear expressions as the modelling layer of the back-end builds them
    ([IloExpr], [GRBLinExpr]). *)
Inductive expr : Type :=
| Const (q : Qc)
| Var (x : var)
| Add (e1 e2 : expr)
| Sub (e1 e2 : expr)
| Scale (q : Qc) (e : expr).

Fixpoint eval (sigma : var -> Qc) (e : expr) : Qc :=
  match e with
  | Const q => q
  | Var x => sigma x
  | Add e1 e2 => eval sigma e1 + eval sigma e2
  | Sub e1 e2 => eval sigma e1 - eval sigma e2
  | Scale q e => eval sigma e * q
  end.

Inductive relop : Type := LessEq | Equal.

(** A named constraint [lhs rel rhs]; [group] is the constraint counter
    [cc] and [index] the loop index in the name "C<cc>_{<index>}". *)
Record constraint : Type := mk_constraint {
  group : nat;
  index : nat;
  lhs : expr;
  rel : relop;
  rhs : expr
}.

(** [IloBoolVar(env, 0, 1)] / [GRB_BINARY], and
    [IloNumVar(env, 0, 1, ILOFLOAT)] / [GRB_CONTINUOUS] on [0,1]. *)
Inductive var_kind : Type := Binary | Continuous01.

Inductive sense : Type := Minimize.

Record milp : Type := mk_milp {
  m_vars : list (var * var_kind);
  m_constraints : list constraint;
  m_sense : sense;
  m_objective : expr;
  m_epgap : option real;   (* IloCplex::EpGap / GRB_DoubleParam_MIPGap *)
  m_tilim : option real    (* IloCplex::TiLim / GRB_DoubleParam_TimeLimit *)
}.

(** The two back-ends selected at compile time. *)
Inductive backend : Type := CPLEX | GUROBI.

(** Solution status ([IloAlgorithm::Status]; for Gurobi [GRB_OPTIMAL] is
    [Optimal], [GRB_SUBOPTIMAL] is [Feasible] and [Unknown] stands for
    every other code). *)
Inductive status : Type :=
| Optimal
| Feasible
| Infeasible
| Unbounded
| InfeasibleOrUnbounded
| Error
| Unknown.

(** What the back-end reports after [solve()] / [optimize()]. *)
Record solver_result : Type := mk_solver_result {
  sr_solve : bool;          (* return value of IloCplex::solve() *)
  sr_status : status;
  sr_objval : Qc;
  sr_value : var -> Qc
}.

Record optimal_allocation_info : Type := mk_optimal_allocation_info {
  solved : bool;
  optimal : bool;
  objective_value : real;
  cost : real;
  kwatt : real;
  pm_power_states : list bool;
  pm_vm_allocations : list (list bool)
}.

(** The default constructor. *)
Definition new_optimal_allocation_info : optimal_allocation_info :=
  mk_optimal_allocation_info false false PInf PInf PInf [] [].

Record allocation_input : Type := mk_allocation_input {
  in_ncips : nat;
  in_cips_electricity_cost : list Qc;
  in_npms : nat;
  in_pms_cip : list nat;
  in_pms_category : list nat;
  in_pm_specs_min_power : list Qc;
  in_pm_specs_max_power : list Qc;
  in_nvms : nat;
  in_vms_cip : list nat;
  in_vms_category : list nat;
  in_vm_specs_cpu : list (list Qc);
  in_vm_specs_ram : list (list Qc);
  in_pm_power_states : list bool;
  in_cip_pm_asleep_costs : list (list Qc);
  in_cip_pm_awake_costs : list (list Qc);
  in_cip_to_cip_vm_migration_costs : list (list (list Qc));
  in_min_power : bool;
  in_relative_gap : real;
  in_time_lim : real
}.

Definition pm_consumed_power (min_power max_power u : Qc) : Qc :=
  min_power + (max_power - min_power) * u.

(** [expr += term(i)] for [i = 0 .. n-1]. *)
Definition accumulate (n : nat) (term : nat -> expr) (init : expr) : expr :=
  fold_left (fun e i => Add e (term i)) (seq 0 n) init.

(** The power state of a PM as the integer 0 or 1. *)
Definition of_bool (b : bool) : Qc := if b then 1 else 0.

Section Model.

Variable inp : allocation_input.

Definition npms : nat := in_npms inp.
Definition nvms : nat := in_nvms inp.

(** [pms_category[h]] and [vms_category[v]]. *)
Definition g (h : nat) : nat := at1 0%nat (in_pms_category inp) h.
Definition q (v : nat) : nat := at1 0%nat (in_vms_category inp) v.

(** [pms_cip[h]] and [vms_cip[v]]. *)
Definition pm_owner (h : nat) : nat := at1 0%nat (in_pms_cip inp) h.
Definition vm_owner (v : nat) : nat := at1 0%nat (in_vms_cip inp) v.

Definition variables : list (var * var_kind) :=
  flat_map (fun v => map (fun h => (Y v h, Binary)) (seq 0 npms)) (seq 0 nvms)
  ++ map (fun h => (X h, Binary)) (seq 0 npms)
  ++ map (fun h => (S h, Continuous01)) (seq 0 npms).

(** C1: forall v, sum_h y[v][h] = 1 *)
Definition constraints_C1 : list constraint :=
  map (fun v =>
         mk_constraint 1 v
           (accumulate npms (fun h => Var (Y v h)) (Const 0))
           Equal (Const 1))
      (seq 0 nvms).

(** C2: forall h, sum_v y[v][h] <= |V| * x[h] *)
Definition constraints_C2 : list constraint :=
  map (fun h =>
         mk_constraint 2 h
           (accumulate nvms (fun v => Var (Y v h)) (Const 0))
           LessEq (Scale (Q2Qc (inject_Z (Z.of_nat nvms))) (Var (X h))))
      (seq 0 npms).

(** C3: forall h, sum_v y[v][h] * M[q(v)][g(h)] <= x[h] *)
Definition constraints_C3 : list constraint :=
  map (fun h =>
         mk_constraint 3 h
           (accumulate nvms
              (fun v => Scale (at2 0 (in_vm_specs_ram inp) (q v) (g h))
                          (Var (Y v h)))
              (Const 0))
           LessEq (Var (X h)))
      (seq 0 npms).

(** C4: forall h, sum_v y[v][h] * S[q(v)][g(h)] = s[h] *)
Definition constraints_C4 : list constraint :=
  map (fun h =>
         mk_constraint 4 h
           (accumulate nvms
              (fun v => Scale (at2 0 (in_vm_specs_cpu inp) (q v) (g h))
                          (Var (Y v h)))
              (Const 0))
           Equal (Var (S h)))
      (seq 0 npms).

(** C5: forall h, s[h] <= x[h] *)
Definition constraints_C5 : list constraint :=
  map (fun h => mk_constraint 5 h (Var (S h)) LessEq (Var (X h)))
      (seq 0 npms).

Definition constraints : list constraint :=
  constraints_C1 ++ constraints_C2 ++ constraints_C3
  ++ constraints_C4 ++ constraints_C5.

(** The min-power objective. *)
Definition objective_min_power : expr :=
  accumulate npms
    (fun h =>
       let dC := at1 0 (in_pm_specs_max_power inp) (g h)
                 - at1 0 (in_pm_specs_min_power inp) (g h) in
       Add (Scale (at1 0 (in_pm_specs_min_power inp) (g h)) (Var (X h)))
           (Scale dC (Var (S h))))
    (Const 0).

(** One pass of the outer loop of the min-cost objective: three [+=]. *)
Definition objective_min_cost_step (e : expr) (h : nat) : expr :=
  let dC := at1 0 (in_pm_specs_max_power inp) (g h)
            - at1 0 (in_pm_specs_min_power inp) (g h) in
  let wcost := at1 0 (in_cips_electricity_cost inp)
                 (pm_owner h) * Q2Qc (1 # 1000) in
  let o := at1 false (in_pm_power_states inp) h in
  let e1 :=
    Add e (Scale wcost
             (Add (Scale (at1 0 (in_pm_specs_min_power inp) (g h)) (Var (X h)))
                  (Scale dC (Var (S h))))) in
  let e2 :=
    Add e1
      (Add (Scale (at2 0 (in_cip_pm_awake_costs inp)
                     (pm_owner h) (g h))
              (Scale (1 - of_bool o) (Var (X h))))
           (Scale (at2 0 (in_cip_pm_asleep_costs inp)
                     (pm_owner h) (g h))
              (Scale (of_bool o) (Sub (Const 1) (Var (X h)))))) in
  accumulate nvms
    (fun v =>
       Scale (at3 0 (in_cip_to_cip_vm_migration_costs inp)
                (vm_owner v)
                (pm_owner h) (q v))
         (Var (Y v h)))
    e2.

Definition objective_min_cost : expr :=
  fold_left objective_min_cost_step (seq 0 npms) (Const 0).

Definition objective : expr :=
  if in_min_power inp then objective_min_power else objective_min_cost.

End Model.

(** [IloRound]: the nearest integer. *)
Definition IloRound (x : Qc) : Z := Qfloor (this (x + Q2Qc (1 # 2))).

(** Reading a binary variable back: [static_cast<bool>(IloRound(value))]
    with CPLEX, [static_cast<bool>(value)] with Gurobi. *)
Definition to_bool (be : backend) (x : Qc) : bool :=
  match be with
  | CPLEX => negb (Z.eqb (IloRound x) 0)
  | GUROBI => negb (bool_decide (x = 0))
  end.

Section FindOptimalAllocation.

(** [dcs::math::float_traits<RealT>::definitely_greater]. *)
Variable definitely_greater : real -> real -> bool.

Variable be : backend.

(** The back-end: [None] when it raises ([IloException], [GRBException]),
    re-thrown by the caller as [std::runtime_error]. *)
Variable solve : milp -> option solver_result.

Definition build_model (inp : allocation_input) : milp :=
  mk_milp (variables inp) (constraints inp) Minimize (objective inp)
    (if definitely_greater (in_relative_gap inp) (Fin 0)
     then Some (in_relative_gap inp) else None)
    (if definitely_greater (in_time_lim inp) (Fin 0)
     then Some (in_time_lim inp) else None).

(** The code after the status switch: sizes the two result vectors, sets
    the cost and reads the variables back. *)
Definition read_solution (inp : allocation_input) (r : solver_result)
    (sol : optimal_allocation_info) : optimal_allocation_info :=
  let cost0 := if in_min_power inp then Fin 0 else objective_value sol in
  let cost1 :=
    fold_left
      (fun c h =>
         if in_min_power inp && to_bool be (sr_value r (X h)) then
           let wcost := at1 0 (in_cips_electricity_cost inp) (pm_owner inp h)
                        * Q2Qc (1 # 1000) in
           radd c (Fin (pm_consumed_power
                          (at1 0 (in_pm_specs_min_power inp) (g inp h))
                          (at1 0 (in_pm_specs_max_power inp) (g inp h))
                          (sr_value r (S h)) * wcost))
         else c)
      (seq 0 (npms inp)) cost0 in
  mk_optimal_allocation_info (solved sol) (optimal sol) (objective_value sol)
    cost1 (kwatt sol)
    (map (fun h => to_bool be (sr_value r (X h))) (seq 0 (npms inp)))
    (map (fun h =>
            map (fun v => to_bool be (sr_value r (Y v h))) (seq 0 (nvms inp)))
         (seq 0 (npms inp))).

Definition find_optimal_allocation (inp : allocation_input)
  : option optimal_allocation_info :=
  match solve (build_model inp) with
  | None => None
  | Some r =>
      let sol0 :=
        mk_optimal_allocation_info
          (match be with CPLEX => sr_solve r | GUROBI => false end)
          false PInf PInf PInf [] [] in
      match sr_status r with
      | Optimal =>
          Some (read_solution inp r
                  (mk_optimal_allocation_info
                     (match be with CPLEX => solved sol0 | GUROBI => true end)
                     true (Fin (sr_objval r)) PInf PInf [] []))
      | Feasible =>
          Some (read_solution inp r
                  (mk_optimal_allocation_info
                     (match be with CPLEX => solved sol0 | GUROBI => true end)
                     false (Fin (sr_objval r)) PInf PInf [] []))
      | _ => Some sol0
      end
  end.

End FindOptimalAllocation.

(** What a mixed-integer solver guarantees about the values it reports for
    a model: binaries are 0 or 1, the continuous variables are within
    their bounds, every constraint holds. *)
Definition respects_kind (sigma : var -> Qc) (xk : var * var_kind) : Prop :=
  match snd xk with
  | Binary => sigma (fst xk) = 0 \/ sigma (fst xk) = 1
  | Continuous01 => 0 <= sigma (fst xk) /\ sigma (fst xk) <= 1
  end.

Definition holds (sigma : var -> Qc) (c : constraint) : Prop :=
  match rel c with
  | LessEq => eval sigma (lhs c) <= eval sigma (rhs c)
  | Equal => eval sigma (lhs c) = eval sigma (rhs c)
  end.

Definition feasible (m : milp) (sigma : var -> Qc) : Prop :=
  Forall (respects_kind sigma) (m_vars m) /\
  Forall (holds sigma) (m_constraints m).

(** The contract of the back-end for one call: a positive answer of
    [solve()] comes with status optimal or feasible, with either status
    the reported values are a feasible point of the model and the reported
    objective value is the objective at that point. *)
Definition has_solution (r : solver_result) : Prop :=
  sr_status r = Optimal \/ sr_status r = Feasible.

Definition solver_contract (m : milp) (r : solver_result) : Prop :=
  (sr_solve r = true -> has_solution r) /\
  (has_solution r ->
   feasible m (sr_value r) /\
   sr_objval r = eval (sr_value r) (m_objective m)).

#[global] Instance respects_kind_dec (sigma : var -> Qc) (xk : var * var_kind) :
  Decision (respects_kind sigma xk).
Proof. unfold respects_kind. destruct (snd xk); apply _. Defined.

#[global] Instance holds_dec (sigma : var -> Qc) (c : constraint) :
  Decision (holds sigma c).
Proof. unfold holds. destruct (rel c); apply _. Defined.

#[global] Instance status_eq_dec : EqDecision status.
Proof. solve_decision. Defined.

#[global] Instance solver_contract_dec (m : milp) (r : solver_result) :
  Decision (solver_contract m r).
Proof. unfold solver_contract, has_solution, feasible. apply _. Defined.

(** What the read-back asks of the value reported for a binary variable,
    for it to be read as the zero-one value [exact]: the CPLEX branch
    rounds the value, so it may be off by less than 1/2; the Gurobi branch
    casts the double itself, so a zero has to be reported as exactly 0,
    and a one as anything else. *)
Definition reads_as (be : backend) (reported exact : Qc) : Prop :=
  match be with
  | CPLEX =>
      exact - Q2Qc (1 # 2) < reported /\ reported < exact + Q2Qc (1 # 2)
  | GUROBI => reported = 0 <-> exact = 0
  end.

(** The reported values of the binary variables of a model are read as
    those of the point [sigma]. *)
Definition binaries_read_as (be : backend) (m : milp)
    (reported sigma : var -> Qc) : Prop :=
  Forall
    (fun xk =>
       match snd xk with
       | Binary => reads_as be (reported (fst xk)) (sigma (fst xk))
       | Continuous01 => True
       end)
    (m_vars m).

#[global] Instance reads_as_dec (be : backend) (reported exact : Qc) :
  Decision (reads_as be reported exact).
Proof. unfold reads_as. destruct be; apply _. Defined.

#[global] Instance binaries_read_as_dec (be : backend) (m : milp)
    (reported sigma : var -> Qc) :
  Decision (binaries_read_as be m reported sigma).
Proof.
  unfold binaries_read_as. apply Forall_dec.
  intros xk. destruct (snd xk); apply _.
Defined.

(** Finite sums of rationals, as the specification writes them. *)
Definition qsum (l : list Qc) : Qc := fold_right Qcplus 0 l.

Definition sum_upto (n : nat) (f : nat -> Qc) : Qc := qsum (map f (seq 0 n)).

(** The min-cost objective in the words of the specification, for on/off
    values [x], utilisations [s] and placements [y]. *)
Definition spec_min_cost (inp : allocation_input) (sigma : var -> Qc) : Qc :=
  sum_upto (in_npms inp) (fun h =>
    let t := g inp h in
    let owner := pm_owner inp h in
    let o := of_bool (at1 false (in_pm_power_states inp) h) in
    (sigma (X h) * at1 0 (in_pm_specs_min_power inp) t
     + (at1 0 (in_pm_specs_max_power inp) t
        - at1 0 (in_pm_specs_min_power inp) t) * sigma (S h))
    * at1 0 (in_cips_electricity_cost inp) owner * Q2Qc (1 # 1000)
    + sigma (X h) * (1 - o) * at2 0 (in_cip_pm_awake_costs inp) owner t
    + (1 - sigma (X h)) * o * at2 0 (in_cip_pm_asleep_costs inp) owner t
    + sum_upto (in_nvms inp) (fun v =>
        sigma (Y v h)
        * at3 0 (in_cip_to_cip_vm_migration_costs inp)
            (vm_owner inp v) owner (q inp v))).

(** The placement read back from a returned allocation. *)
Definition placed (oa : optimal_allocation_info) (h v : nat) : bool :=
  at2 false (pm_vm_allocations oa) h v.

Definition powered (oa : optimal_allocation_info) (h : nat) : bool :=
  at1 false (pm_power_states oa) h.

(** Share of a resource table [req] used on PM [h] by the VMs placed
    there. *)
Definition used_share (inp : allocation_input) (req : list (list Qc))
    (oa : optimal_allocation_info) (h : nat) : Qc :=
  sum_upto (in_nvms inp) (fun v =>
    if placed oa h v then at2 0 req (q inp v) (g inp h) else 0).

End Solver.

(** ** Coalition evaluator: the loop of [analyze_coalitions] *)

Module Evaluator.

Import Solver.

Inductive coalition_formation_category : Type :=
| merge_split_stable_coalition_formation
| nash_stable_coalition_formation
| pareto_optimal_coalition_formation
| social_optimum_coalition_formation.

Inductive coalition_value_division_category : Type :=
| banzhaf_coalition_value_division
| normalized_banzhaf_coalition_value_division
| shapley_coalition_value_division.

Record options : Type := mk_options {
  opt_relative_gap : real;
  opt_time_lim : real;
  coalition_formation : coalition_formation_category;
  coalition_value_division : coalition_value_division_category;
  rnd_gen_vms : bool;
  rnd_gen_pm_power_states : bool;
  rnd_gen_pm_on_off_costs : bool;
  rnd_gen_vm_migration_costs : bool;
  rnd_seed : N;
  rnd_num_iters : nat;
  csv_fname : string
}.

(** The defaults of the constructor. *)
Definition new_options : options :=
  mk_options (Fin 0) (Fin (-1)) nash_stable_coalition_formation
    shapley_coalition_value_division false false false false 5489%N 1%nat "".

Record coalition_info : Type := mk_coalition_info {
  optimal_allocation : optimal_allocation_info;
  value : real;
  core_empty : bool;
  payoffs : gmap nat real;
  payoffs_in_core : bool;
  cid : N
}.

(** The default constructor ([gtpack::empty_coalition_id] is 0). *)
Definition new_coalition_info : coalition_info :=
  mk_coalition_info new_optimal_allocation_info NaN true ∅ false 0%N.

Definition with_optimal_allocation (oa : optimal_allocation_info)
    (ci : coalition_info) : coalition_info :=
  mk_coalition_info oa (value ci) (core_empty ci) (payoffs ci)
    (payoffs_in_core ci) (cid ci).

Definition with_value (v : real) (ci : coalition_info) : coalition_info :=
  mk_coalition_info (optimal_allocation ci) v (core_empty ci) (payoffs ci)
    (payoffs_in_core ci) (cid ci).

Definition with_core_empty (b : bool) (ci : coalition_info) : coalition_info :=
  mk_coalition_info (optimal_allocation ci) (value ci) b (payoffs ci)
    (payoffs_in_core ci) (cid ci).

Definition with_payoffs (ps : gmap nat real) (ci : coalition_info)
  : coalition_info :=
  mk_coalition_info (optimal_allocation ci) (value ci) (core_empty ci) ps
    (payoffs_in_core ci) (cid ci).

Definition with_payoffs_in_core (b : bool) (ci : coalition_info)
  : coalition_info :=
  mk_coalition_info (optimal_allocation ci) (value ci) (core_empty ci)
    (payoffs ci) b (cid ci).

Definition with_kwatt (k : real) (ci : coalition_info) : coalition_info :=
  let oa := optimal_allocation ci in
  with_optimal_allocation
    (mk_optimal_allocation_info (solved oa) (optimal oa) (objective_value oa)
       (cost oa) k (pm_power_states oa) (pm_vm_allocations oa))
    ci.

(** [visited_coalitions[c].field = ...]: [operator[]] of [std::map]
    inserts a default-constructed record when the key is new. *)
Definition update_info (c : N) (f : coalition_info -> coalition_info)
    (m : gmap N coalition_info) : gmap N coalition_info :=
  <[c := f (default new_coalition_info (m !! c))]> m.

(** Modelled from the spec: [gtpack::players_coalition::make_id] (gtpack
    is not part of the sources); the identifier of a coalition is the bit
    mask with one bit per member, the sum of [2^p]. *)
Definition make_id (players : list nat) : N :=
  fold_right (fun p acc => (2 ^ N.of_nat p + acc)%N) 0%N players.

(** Modelled from the spec: the records are handed out by
    [dcs::algorithm::lexicographic_subset(n, false)] (dcsxx-commons is not
    part of the sources): every non-empty subset of [0 .. n-1] once, in the
    order of the bit vectors. *)
Definition members_of (n : nat) (k : N) : list nat :=
  filter (fun p => N.testbit k (N.of_nat p)) (seq 0 n).

Definition lexicographic_subsets (n : nat) : list (list nat) :=
  map (fun k => members_of n (N.of_nat k)) (seq 1 (2 ^ n - 1)).

(** The state the loop threads: the characteristic function of the game
    object and the table [visited_coalitions]. *)
Record eval_state : Type := mk_eval_state {
  game : gmap N real;
  visited : gmap N coalition_info
}.

Definition initial_state : eval_state := mk_eval_state ∅ ∅.

(** [game.value(cid)] read back. *)
Definition game_value (g : gmap N real) (c : N) : real :=
  default NaN (g !! c).

Definition count_q (n : nat) : Qc := Q2Qc (inject_Z (Z.of_nat n)).

Section Coalition.

Variable s : scenario.

(** [coal_npms] and [coal_nvms]. *)
Definition coal_npms (coal_cips : list nat) : nat :=
  fold_left
    (fun acc cip =>
       fold_left (fun a p => (a + at2 0%nat (cip_num_pms s) cip p)%nat)
         (seq 0 (num_pm_types s)) acc)
    coal_cips 0%nat.

Definition coal_nvms (coal_cips : list nat) : nat :=
  fold_left
    (fun acc cip =>
       fold_left (fun a v => (a + at2 0%nat (cip_num_vms s) cip v)%nat)
         (seq 0 (num_vm_types s)) acc)
    coal_cips 0%nat.

(** The parallel arrays of the coalition, filled provider by provider and
    type by type. *)
Definition coal_pms_category (coal_cips : list nat) : list nat :=
  flat_map
    (fun cip =>
       flat_map (fun p => replicate (at2 0%nat (cip_num_pms s) cip p) p)
         (seq 0 (num_pm_types s)))
    coal_cips.

Definition coal_pms_cips (coal_cips : list nat) : list nat :=
  flat_map
    (fun cip =>
       flat_map (fun p => replicate (at2 0%nat (cip_num_pms s) cip p) cip)
         (seq 0 (num_pm_types s)))
    coal_cips.

(** [coal_pm_power_states[k+pms_start] = s.cip_pm_power_states[cip][k]]:
    [k] restarts from 0 for every PM type of the provider. *)
Definition coal_pm_power_states (coal_cips : list nat) : list bool :=
  flat_map
    (fun cip =>
       flat_map
         (fun p =>
            map (fun k => at2 false (cip_pm_power_states s) cip k)
              (seq 0 (at2 0%nat (cip_num_pms s) cip p)))
         (seq 0 (num_pm_types s)))
    coal_cips.

Definition coal_vms_category (coal_cips : list nat) : list nat :=
  flat_map
    (fun cip =>
       flat_map (fun v => replicate (at2 0%nat (cip_num_vms s) cip v) v)
         (seq 0 (num_vm_types s)))
    coal_cips.

Definition coal_vms_cips (coal_cips : list nat) : list nat :=
  flat_map
    (fun cip =>
       flat_map (fun v => replicate (at2 0%nat (cip_num_vms s) cip v) cip)
         (seq 0 (num_vm_types s)))
    coal_cips.

(** [coal_profit], accumulated in loop order:
    [coal_profit += s.cip_revenues[cip][v] * s.cip_num_vms[cip][v]]. *)
Definition coal_profit (coal_cips : list nat) : Qc :=
  fold_left
    (fun acc cip =>
       fold_left
         (fun a v => a + at2 0 (cip_revenues s) cip v
                         * count_q (at2 0%nat (cip_num_vms s) cip v))
         (seq 0 (num_vm_types s)) acc)
    coal_cips 0.

(** The arguments of the call of [find_optimal_allocation]. *)
Definition coalition_input (opts : options) (coal_cips : list nat)
  : allocation_input :=
  mk_allocation_input
    (length coal_cips)
    (cip_electricity_costs s)
    (coal_npms coal_cips)
    (coal_pms_cips coal_cips)
    (coal_pms_category coal_cips)
    (pm_spec_min_powers s)
    (pm_spec_max_powers s)
    (coal_nvms coal_cips)
    (coal_vms_cips coal_cips)
    (coal_vms_category coal_cips)
    (vm_spec_cpus s)
    (vm_spec_rams s)
    (coal_pm_power_states coal_cips)
    (cip_pm_asleep_costs s)
    (cip_pm_awake_costs s)
    (cip_to_cip_vm_migration_costs s)
    false
    (opt_relative_gap opts)
    (opt_time_lim opts).

(** Total consumption in kW of the powered-on PMs, summed per provider
    through [coal_cips_info]. *)
Definition tot_kwatt (coal_cips : list nat) (oa : optimal_allocation_info)
  : Qc :=
  let info0 : gmap nat Qc :=
    fold_left (fun m cip => <[cip := 0]> m) coal_cips ∅ in
  let info1 : gmap nat Qc :=
    fold_left
      (fun m p =>
         if at1 false (pm_power_states oa) p then
           let cip := at1 0%nat (coal_pms_cips coal_cips) p in
           let pc := at1 0%nat (coal_pms_category coal_cips) p in
           let tot_share :=
             fold_left
               (fun a v =>
                  if at2 false (pm_vm_allocations oa) p v
                  then a + at2 0 (vm_spec_cpus s)
                             (at1 0%nat (coal_vms_category coal_cips) v) pc
                  else a)
               (seq 0 (coal_nvms coal_cips)) 0 in
           <[cip := default 0 (m !! cip)
                    + pm_consumed_power (at1 0 (pm_spec_min_powers s) pc)
                        (at1 0 (pm_spec_max_powers s) pc) tot_share]> m
         else m)
      (seq 0 (coal_npms coal_cips)) info0 in
  fold_left
    (fun acc cip => acc + default 0 (info1 !! cip) * Q2Qc (1 # 1000))
    coal_cips 0.

End Coalition.

Section Analyze.

Variable definitely_greater : real -> real -> bool.
Variable be : backend.
Variable solve : milp -> option solver_result.

(** gtpack: [find_core(subgame).empty()], the value-division rules and
    [belongs_to_core], each on the sub-game of the given players. *)
Variable core_is_empty : gmap N real -> list nat -> bool.
Variable value_division :
  coalition_value_division_category -> gmap N real -> list nat -> gmap nat real.
Variable belongs_to_core : gmap N real -> list nat -> gmap nat real -> bool.

Variable s : scenario.
Variable opts : options.

(** The allocation the solver returns for a coalition. *)
Definition allocation_of (coal_cips : list nat)
  : option optimal_allocation_info :=
  find_optimal_allocation definitely_greater be solve
    (coalition_input s opts coal_cips).

(** One pass of the [while (subset.has_next())] loop; [None] when the
    back-end raised. *)
Definition evaluate_coalition (st : eval_state) (coal_cips : list nat)
  : option eval_state :=
  let c := make_id coal_cips in
  match allocation_of coal_cips with
  | None => None
  | Some oa =>
      let v1 := update_info c (with_optimal_allocation oa) (visited st) in
      if solved oa then
        let g1 := <[c := rsub (Fin (coal_profit s coal_cips)) (cost oa)]>
                    (game st) in
        let v2 := update_info c (with_value (game_value g1 c)) v1 in
        let v3 := update_info c
                    (with_kwatt (Fin (tot_kwatt s coal_cips oa))) v2 in
        let v4 :=
          if core_is_empty g1 coal_cips then
            update_info c (with_payoffs_in_core false)
              (update_info c (with_core_empty true) v3)
          else update_info c (with_core_empty false) v3 in
        let coal_payoffs :=
          value_division (coalition_value_division opts) g1 coal_cips in
        let v5 := update_info c (with_payoffs coal_payoffs) v4 in
        let v6 :=
          if negb (core_empty (default new_coalition_info (v5 !! c))) then
            update_info c
              (with_payoffs_in_core
                 (belongs_to_core g1 coal_cips coal_payoffs))
              v5
          else v5 in
        Some (mk_eval_state g1 v6)
      else
        let v2 := update_info c (with_payoffs_in_core false)
                    (update_info c (with_core_empty true) v1) in
        let g1 := <[c := Fin (- numeric_limits_min)]> (game st) in
        Some (mk_eval_state g1 v2)
  end.

(** The whole loop over the subsets handed out by the enumerator. *)
Fixpoint evaluate_all (st : eval_state) (subsets : list (list nat))
  : option eval_state :=
  match subsets with
  | [] => Some st
  | coal_cips :: rest =>
      match evaluate_coalition st coal_cips with
      | None => None
      | Some st' => evaluate_all st' rest
      end
  end.

End Analyze.

(** The profit of a coalition in the words of the specification: the sum
    over the members and over the VM types of revenue rate times number of
    VMs. *)
Definition spec_profit (s : scenario) (members : list nat) : Qc :=
  qsum (map (fun p =>
               sum_upto (num_vm_types s) (fun v =>
                 at2 0 (cip_revenues s) p v
                 * count_q (at2 0%nat (cip_num_vms s) p v)))
            members).

(** The sentinel given to a coalition without a solution. *)
Definition sentinel : real := Fin (- numeric_limits_min).

End Evaluator.

(** ** Partition selectors *)

Module Selectors.

Import Evaluator.

Record partition_info : Type := mk_partition_info {
  pi_value : real;               (* never assigned by the selectors *)
  coalitions : gset N;
  pi_payoffs : gmap nat real;
  side_payments : gmap nat real
}.

Definition new_partition_info : partition_info :=
  mk_partition_info NaN ∅ ∅ ∅.

(** A [std::set<player_type>] built from a range: ascending, no
    repetition. *)
Fixpoint set_insert (x : nat) (l : list nat) : list nat :=
  match l with
  | [] => [x]
  | y :: r =>
      if (x <? y)%nat then x :: y :: r
      else if (x =? y)%nat then y :: r
      else y :: set_insert x r
  end.

Definition to_set (l : list nat) : list nat := fold_right set_insert [] l.

Definition set_count (x : nat) (l : list nat) : nat :=
  if existsb (Nat.eqb x) l then 1%nat else 0%nat.

(** Modelled from the spec: [dcs::algorithm::lexicographic_partition]
    (dcsxx-commons is not part of the sources) hands out every set
    partition once, as restricted-growth strings of length [n] in
    lexicographic order; [next_partition] turns a string into the blocks,
    one per label. *)
Fixpoint rgs_from (len maxlabel : nat) : list (list nat) :=
  match len with
  | O => [[]]
  | Datatypes.S len' =>
      flat_map
        (fun a => map (cons a) (rgs_from len' (Nat.max maxlabel (a + 1))))
        (seq 0 (maxlabel + 1))
  end.

Definition restricted_growth_strings (n : nat) : list (list nat) :=
  rgs_from n 0.

Definition block_of {A} (elems : list A) (labels : list nat) (j : nat)
  : list A :=
  map fst (filter (fun el => (snd el =? j)%nat) (combine elems labels)).

Definition blocks_of {A} (elems : list A) (labels : list nat)
  : list (list A) :=
  map (block_of elems labels) (seq 0 (list_max labels + 1)).

Definition lexicographic_partitions {A} (elems : list A)
  : list (list (list A)) :=
  map (blocks_of elems) (restricted_growth_strings (length elems)).

(** Modelled from the spec: [dcs::algorithm::lexicographic_subset(n,
    false)] with [next_subset] on a range: the non-empty sub-ranges in the
    order of their bit vectors. *)
Definition pick {A} (elems : list A) (k : N) : list A :=
  map fst
    (filter (fun el => N.testbit k (N.of_nat (snd el)))
       (combine elems (seq 0 (length elems)))).

Definition lexicographic_subranges {A} (elems : list A) : list (list A) :=
  map (fun k => pick elems (N.of_nat k)) (seq 1 (2 ^ length elems - 1)).

Section Candidate.

Variable visited_coalitions : gmap N coalition_info.

(** The payoff copied for a member: the coalition's entry, or a quiet NaN
    when the coalition has none for that player. *)
Definition payoff_or_nan (ci : coalition_info) (pid : nat) : real :=
  default NaN (payoffs ci !! pid).

Definition copy_payoffs (ci : coalition_info) (coal_players : list nat)
    (m : gmap nat real) : gmap nat real :=
  fold_left (fun m pid => <[pid := payoff_or_nan ci pid]> m) coal_players m.

(** One pass of the loop that builds [candidate_partition] from the
    blocks of a partition. *)
Definition add_block (cand : partition_info) (sub : list nat)
  : partition_info :=
  let c := make_id sub in
  match visited_coalitions !! c with
  | None => cand
  | Some ci =>
      mk_partition_info (pi_value cand) ({[c]} ∪ coalitions cand)
        (copy_payoffs ci sub (pi_payoffs cand)) (side_payments cand)
  end.

Definition candidate (subs : list (list nat)) : partition_info :=
  fold_left add_block subs new_partition_info.

End Candidate.

Section NashStable.

Variable definitely_greater : real -> real -> bool.
Variable visited_coalitions : gmap N coalition_info.

(** The preference test of a player [pid] for the coalition [c]:
    [visited_coalitions.at(c).payoffs.count(pid) == 0 ||
     definitely_greater(visited_coalitions.at(c).payoffs.at(pid),
                        candidate_partition.payoffs.at(pid))];
    [None] is the [std::out_of_range] of [at]. *)
Definition prefers (cand : partition_info) (c : N) (pid : nat)
  : option bool :=
  match visited_coalitions !! c with
  | None => None
  | Some ci =>
      match payoffs ci !! pid with
      | None => Some true
      | Some x =>
          match pi_payoffs cand !! pid with
          | None => None
          | Some mine => Some (definitely_greater x mine)
          end
      end
  end.

(** The identifier of a block enlarged by [pid]. *)
Definition augmented_id (pid : nat) (sub : list nat) : N :=
  make_id (set_insert pid (to_set sub)).

(** The inner loop over the blocks for one player: the flag
    [nash_stable] on leaving the loop and [found_singleton]. *)
Fixpoint scan_blocks (cand : partition_info) (pid : nat)
    (subs : list (list nat)) (found_singleton : bool)
  : option (bool * bool) :=
  match subs with
  | [] => Some (true, found_singleton)
  | sub :: rest =>
      let coal_players := to_set sub in
      if (set_count pid coal_players =? 0)%nat then
        match prefers cand (augmented_id pid sub) pid with
        | None => None
        | Some true => Some (false, found_singleton)
        | Some false => scan_blocks cand pid rest found_singleton
        end
      else if (length coal_players =? 1)%nat then
        scan_blocks cand pid rest true
      else scan_blocks cand pid rest found_singleton
  end.

(** The block "Check singleton coalition" after the inner loop: [true]
    when it clears [nash_stable]. *)
Definition singleton_check (cand : partition_info) (pid : nat)
    (found_singleton : bool) : option bool :=
  if found_singleton then Some false
  else
    let c := make_id [pid] in
    if bool_decide (c ∈ coalitions cand) then Some false
    else prefers cand c pid.

(** The loop over the players. *)
Fixpoint scan_players (cand : partition_info) (subs : list (list nat))
    (players : list nat) : option bool :=
  match players with
  | [] => Some true
  | pid :: rest =>
      match scan_blocks cand pid subs false with
      | None => None
      | Some (stable, found) =>
          match singleton_check cand pid found with
          | None => None
          | Some true => Some false
          | Some false =>
              if stable then scan_players cand subs rest else Some false
          end
      end
  end.

(** The Nash-stability flag of one enumerated partition. *)
Definition nash_stable (players : list nat) (subs : list (list nat))
  : option bool :=
  scan_players (candidate visited_coalitions subs) subs players.

Fixpoint nash_select (players : list nat) (parts : list (list (list nat)))
    (best_partitions : list partition_info) : option (list partition_info) :=
  match parts with
  | [] => Some best_partitions
  | subs :: rest =>
      match nash_stable players subs with
      | None => None
      | Some true =>
          nash_select players rest
            (best_partitions ++ [candidate visited_coalitions subs])
      | Some false => nash_select players rest best_partitions
      end
  end.

(** [nash_stable_partition_selector::operator()]. *)
Definition nash_stable_partition_selector (players : list nat)
  : option (list partition_info) :=
  nash_select players (lexicographic_partitions players) [].

(** The payoff the table holds for a player in a coalition. *)
Definition payoff_at (c : N) (pid : nat) : option real :=
  match visited_coalitions !! c with
  | Some ci => payoffs ci !! pid
  | None => None
  end.

(** A player who gets [mine] where it is would gain by being in [c]:
    the table holds a payoff there that is definitely greater. *)
Definition gains (mine : real) (c : N) (pid : nat) : Prop :=
  exists x, payoff_at c pid = Some x /\ definitely_greater x mine = true.

(** The table holds a payoff for the player in [c], and it is not
    definitely greater than [mine]. *)
Definition keeps (mine : real) (c : N) (pid : nat) : Prop :=
  exists x, payoff_at c pid = Some x /\ definitely_greater x mine = false.

(** The player is a block of its own. *)
Definition alone_in (subs : list (list nat)) (pid : nat) : Prop :=
  In [pid] (map to_set subs).

(** The payoff of a player in the partition. *)
Definition own_payoff (subs : list (list nat)) (pid : nat) : real :=
  default NaN (pi_payoffs (candidate visited_coalitions subs) !! pid).

(** Nash stability in the words of the specification: no player gains by
    joining another block or by going alone. *)
Definition spec_nash_stable (players : list nat) (subs : list (list nat))
  : Prop :=
  forall pid, In pid players ->
    (forall sub, In sub subs -> ~ In pid (to_set sub) ->
       ~ gains (own_payoff subs pid) (augmented_id pid sub) pid) /\
    ~ gains (own_payoff subs pid) (make_id [pid]) pid.

(** Nash stability as the selector tests it: every other block enlarged
    by the player, and the player alone unless it already is, must hold a
    payoff for the player that is not definitely greater. *)
Definition player_test (subs : list (list nat)) (pid : nat) : Prop :=
  (forall sub, In sub subs -> ~ In pid (to_set sub) ->
     keeps (own_payoff subs pid) (augmented_id pid sub) pid) /\
  (~ alone_in subs pid ->
   make_id [pid] ∉ coalitions (candidate visited_coalitions subs) ->
   keeps (own_payoff subs pid) (make_id [pid]) pid).

Definition tested_nash_stable (players : list nat) (subs : list (list nat))
  : Prop :=
  forall pid, In pid players -> player_test subs pid.

(** The records the test reads exist: every player has a payoff in the
    partition, and every coalition a player could move to was visited. *)
Definition nash_inputs_present (players : list nat) (subs : list (list nat))
  : Prop :=
  forall pid, In pid players ->
    is_Some (pi_payoffs (candidate visited_coalitions subs) !! pid) /\
    is_Some (visited_coalitions !! make_id [pid]) /\
    forall sub, In sub subs -> ~ In pid (to_set sub) ->
      is_Some (visited_coalitions !! augmented_id pid sub).

End NashStable.

Section MergeSplitStable.

Variable definitely_less : real -> real -> bool.
Variable visited_coalitions : gmap N coalition_info.

(** The enumerators, as sequences: the partitions of a range in the order
    [next_partition] hands them out, and the non-empty sub-ranges in the
    order of [next_subset]. *)
Variable partitions_of : list nat -> list (list (list nat)).
Variable subranges_of : list N -> list (list N).

(** [sum += visited_coalitions.at(c).value] over the identifiers that
    have a record. *)
Definition sum_values (cids : list N) : real :=
  fold_left
    (fun acc c =>
       match visited_coalitions !! c with
       | None => acc
       | Some ci => radd acc (value ci)
       end)
    cids (Fin 0).

(** The partition of a block that the split test looks at:
    [next_partition] is called once on a fresh [sub_partition]. *)
Definition inspected_partition (coal_players : list nat)
  : list (list nat) :=
  hd [] (partitions_of coal_players).

(** The first loop: the split test block by block, building the candidate
    and the vector [P] of block identifiers; the flag is [Dhp_stable]. *)
Fixpoint split_pass (cand : partition_info) (P : list N)
    (subs : list (list nat)) : bool * partition_info * list N :=
  match subs with
  | [] => (true, cand, P)
  | sub :: rest =>
      let c := make_id sub in
      let P' := P ++ [c] in
      match visited_coalitions !! c with
      | None => split_pass cand P' rest
      | Some ci =>
          let cand1 :=
            mk_partition_info (pi_value cand) ({[c]} ∪ coalitions cand)
              (pi_payoffs cand) (side_payments cand) in
          let vPi := value ci in
          let svC := sum_values (map make_id (inspected_partition sub)) in
          if definitely_less vPi svC then (false, cand1, P')
          else
            split_pass
              (mk_partition_info (pi_value cand1) (coalitions cand1)
                 (copy_payoffs ci sub (pi_payoffs cand1))
                 (side_payments cand1))
              P' rest
      end
  end.

(** The second loop: the merge test over the non-empty families of
    blocks. *)
Fixpoint merge_pass (np : nat) (families : list (list N)) : bool :=
  match families with
  | [] => true
  | sub_P :: rest =>
      let svPi := sum_values sub_P in
      let UPi_players :=
        to_set
          (flat_map
             (fun c =>
                match visited_coalitions !! c with
                | None => []
                | Some _ => members_of np c
                end)
             sub_P) in
      match visited_coalitions !! make_id UPi_players with
      | None => merge_pass np rest
      | Some ci =>
          if definitely_less svPi (value ci) then false
          else merge_pass np rest
      end
  end.

(** One enumerated partition: the candidate when it is kept. *)
Definition merge_split_stable (np : nat) (subs : list (list nat))
  : option partition_info :=
  match split_pass new_partition_info [] subs with
  | (false, _, _) => None
  | (true, cand, P) =>
      if merge_pass np (subranges_of P) then Some cand else None
  end.

(** [merge_split_stable_partition_selector::operator()]. *)
Definition merge_split_stable_partition_selector (players : list nat)
  : list partition_info :=
  omap (merge_split_stable (length players)) (partitions_of players).

(** The value the table holds for a block. *)
Definition block_value (sub : list nat) : real :=
  default NaN (value <$> visited_coalitions !! make_id sub).

(** Split stability of a block in the words of the specification: no
    partition of the block has a definitely larger total value. *)
Definition split_stable_block (sub : list nat) : Prop :=
  forall C, In C (partitions_of sub) ->
    definitely_less (block_value sub) (sum_values (map make_id C)) = false.

End MergeSplitStable.

Section ParetoOptimal.

Variable visited_coalitions : gmap N coalition_info.

(** An entry of the running vector gives way to a candidate payoff:
    [std::isnan(best) || payoff > best]. *)
Definition gives_way (best payoff : real) : bool :=
  isnan best || rgt payoff best.

(** The loop over the players for one candidate, from index [p] on:
    the running vector afterwards and the flag [pareto_optimal]; [None]
    is the [std::out_of_range] of [payoffs.at(pid)]. *)
Fixpoint pareto_scan (cand : partition_info) (best_payoffs : list real)
    (p : nat) (pids : list nat) : option (list real * bool) :=
  match pids with
  | [] => Some (best_payoffs, true)
  | pid :: rest =>
      match pi_payoffs cand !! pid with
      | None => None
      | Some x =>
          if gives_way (nth p best_payoffs NaN) x then
            pareto_scan cand (<[p := x]> best_payoffs) (Datatypes.S p) rest
          else Some (best_payoffs, false)
      end
  end.

(** One pass of the [while (partition.has_next())] loop on the state
    (running vector, accepted partitions). *)
Definition pareto_step (players : list nat)
    (state : list real * list partition_info) (subs : list (list nat))
  : option (list real * list partition_info) :=
  let cand := candidate visited_coalitions subs in
  match pareto_scan cand (fst state) 0 players with
  | None => None
  | Some (best', true) => Some (best', snd state ++ [cand])
  | Some (best', false) => Some (best', snd state)
  end.

Fixpoint pareto_run (players : list nat)
    (state : list real * list partition_info)
    (parts : list (list (list nat)))
  : option (list real * list partition_info) :=
  match parts with
  | [] => Some state
  | subs :: rest =>
      match pareto_step players state subs with
      | None => None
      | Some state' => pareto_run players state' rest
      end
  end.

(** [pareto_optimal_partition_selector::operator()]. *)
Definition pareto_optimal_partition_selector (players : list nat)
  : option (list partition_info) :=
  snd <$> pareto_run players (replicate (length players) NaN, [])
            (lexicographic_partitions players).

(** The number of leading players at which the running vector gives way
    to the payoffs of a candidate. *)
Fixpoint dominated_prefix (best pays : list real) : nat :=
  match best, pays with
  | b :: bs, x :: xs =>
      if gives_way b x then Datatypes.S (dominated_prefix bs xs) else 0%nat
  | _, _ => 0%nat
  end.

(** The candidate's payoffs in the order of the players. *)
Definition payoffs_of (cand : partition_info) (players : list nat)
  : list real :=
  map (fun pid => default NaN (pi_payoffs cand !! pid)) players.

(** The payoff of player number [p] in an enumerated partition. *)
Definition payoff_in (players : list nat) (subs : list (list nat)) (p : nat)
  : real :=
  default NaN
    (pi_payoffs (candidate visited_coalitions subs) !! nth p players 0%nat).

(** The larger of two payoffs, a NaN giving way to the other. *)
Definition rmax (x y : real) : real :=
  if isnan x then y else if isnan y then x else if rlt x y then y else x.

(** The per-player maximum over a list of partitions, in the words of the
    specification. *)
Definition per_player_max (players : list nat)
    (seen : list (list (list nat))) : list real :=
  map (fun p => fold_left rmax (map (fun subs => payoff_in players subs p) seen)
                  NaN)
      (seq 0 (length players)).

End ParetoOptimal.

End Selectors.

(** ** CSV export *)

Module Csv.

Import Evaluator.

Inductive column : Type :=
| CoalitionIdColumn
| PayoffColumn (p : nat)
| ValueColumn.

(** A field of a line: nothing between two separators, a quoted column
    title, a coalition identifier or a number. *)
Inductive field : Type :=
| Blank
| Title (c : column)
| Ident (c : N)
| Number (x : real).

(** The line written for one coalition: the identifier, one field per
    player (left blank when the coalition has no payoff for the player)
    and the running [value]. *)
Definition export_row (ncips : nat) (c : N) (ci : coalition_info)
  : list field :=
  let cells_value :=
    fold_left
      (fun acc p =>
         match payoffs ci !! p with
         | Some x => (fst acc ++ [Number x], radd (snd acc) x)
         | None => (fst acc ++ [Blank], snd acc)
         end)
      (seq 0 ncips) ([], Fin 0) in
  Ident c :: fst cells_value ++ [Number (snd cells_value)].

(** The header, or the separator line when appending. *)
Definition first_line (ncips : nat) (append : bool) : list field :=
  if append then replicate (ncips + 1) Blank
  else Title CoalitionIdColumn
       :: map (fun p => Title (PayoffColumn p)) (seq 0 ncips)
       ++ [Title ValueColumn].

Definition sorted_cids (m : gmap N coalition_info) : list N :=
  merge_sort N.le (map fst (map_to_list m)).

(** The lines of the coalitions, by ascending identifier. *)
Definition exported_rows (ncips : nat) (coalitions : gmap N coalition_info)
  : list (list field) :=
  omap (fun c => export_row ncips c <$> coalitions !! c)
    (sorted_cids coalitions).

(** [export_csv]: the lines of the file afterwards, given the lines it
    held before. *)
Definition export_csv (before : list (list field)) (ncips : nat)
    (coalitions : gmap N coalition_info) (append : bool)
  : list (list field) :=
  (if append then before else [])
  ++ first_line ncips append :: exported_rows ncips coalitions.

(** The field of a player's column on the line of a coalition. *)
Definition cell_of (ci : coalition_info) (p : nat) : field :=
  match payoffs ci !! p with
  | Some x => Number x
  | None => Blank
  end.

(** The numbers printed in the payoff columns of a line, left to right. *)
Definition printed_payoffs (line : list field) : list real :=
  omap (fun f => match f with Number x => Some x | _ => None end)
    (removelast (tl line)).

End Csv.

(** ** Command line: [main] *)

Module Cli.

Import Evaluator.

Inductive exception : Type :=
| invalid_argument (what : string)
| runtime_error (what : string)
| logic_error (what : string).

(** What [main] writes to standard error. *)
Inductive stderr_item : Type :=
| UsageMessage (progname : string)
| ErrorLine (text : string).

(** How the program ends: [main] returns a code, or an exception leaves
    [main] (there is no handler, so [std::terminate] is called). *)
Inductive ending : Type :=
| Returns (code : Z)
| Uncaught (e : exception).

Record run : Type := mk_run { how : ending; stderr : list stderr_item }.

(** Modelled from the spec: [dcs::cli::simple::get_option] (dcsxx-commons
    is not part of the sources).  A valued option is followed on the
    command line by its value; a flag stands alone. *)
Fixpoint find_value (argv : list string) (opt : string) : option string :=
  match argv with
  | [] => None
  | a :: rest =>
      if String.eqb a opt then
        match rest with
        | v :: _ => Some v
        | [] => None
        end
      else find_value rest opt
  end.

Definition get_option_default (argv : list string) (opt default_value : string)
  : string :=
  default default_value (find_value argv opt).

Definition get_flag (argv : list string) (opt : string) : bool :=
  existsb (String.eqb opt) argv.

(** Modelled from the spec: the look-up of an option without default;
    a missing option reads as the empty string, which [main] tests. *)
Definition get_option_or_empty (argv : list string) (opt : string)
  : exception + string :=
  inr (get_option_default argv opt "").

Definition formation_of_tag (tag : string)
  : option coalition_formation_category :=
  if String.eqb tag "nash" then Some nash_stable_coalition_formation
  else if String.eqb tag "merge-split"
       then Some merge_split_stable_coalition_formation
  else if String.eqb tag "pareto" then Some pareto_optimal_coalition_formation
  else if String.eqb tag "social" then Some social_optimum_coalition_formation
  else None.

Definition division_of_tag (tag : string)
  : option coalition_value_division_category :=
  if String.eqb tag "banzhaf" then Some banzhaf_coalition_value_division
  else if String.eqb tag "norm-banzhaf"
       then Some normalized_banzhaf_coalition_value_division
  else if String.eqb tag "shapley" then Some shapley_coalition_value_division
  else None.

Section Main.

(** The look-up of [--scenario], which has no default. *)
Variable get_option_required : list string -> string -> exception + string.

(** Conversion of an option value to a number. *)
Variable read_real : string -> real.
Variable read_count : string -> N.

(** [make_scenario] on a file name, with the file system behind it, and
    [run_experiment]; each ends normally or with an exception. *)
Variable make_scenario : string -> exception + scenario.
Variable run_experiment : scenario -> options -> exception + unit.

Definition main (argv : list string) : run :=
  let progname := hd "" argv in
  if (length argv <? 2)%nat then mk_run (Returns (-1)) [UsageMessage progname]
  else
    let opt_csv_fname := get_option_default argv "--csv" "" in
    if get_flag argv "--help" then mk_run (Returns 0) [UsageMessage progname]
    else
      match formation_of_tag (get_option_default argv "--formation" "nash") with
      | None =>
          mk_run (Uncaught (invalid_argument
                              "Unknown coalition formation category")) []
      | Some formation =>
          match division_of_tag
                  (get_option_default argv "--payoff" "shapley") with
          | None =>
              mk_run (Uncaught (invalid_argument
                                  "Unknown coalition value division category"))
                []
          | Some division =>
              let opts :=
                mk_options
                  (read_real (get_option_default argv "--opt-relgap" "0"))
                  (read_real (get_option_default argv "--opt-tilim" "-1"))
                  formation division
                  (get_flag argv "--rnd-genvms")
                  (get_flag argv "--rnd-genpmsonoff")
                  (get_flag argv "--rnd-genpmsonoffcosts")
                  (get_flag argv "--rnd-genvmsmigrcosts")
                  (read_count (get_option_default argv "--rnd-seed" "5489"))
                  (N.to_nat
                     (read_count (get_option_default argv "--rnd-numit" "1")))
                  opt_csv_fname in
              match get_option_required argv "--scenario" with
              | inl e => mk_run (Uncaught e) []
              | inr opt_scenario_file =>
                  if String.eqb opt_scenario_file "" then
                    mk_run (Returns (-1))
                      [ErrorLine "(E) Scenario file not specified";
                       UsageMessage progname]
                  else
                    match make_scenario opt_scenario_file with
                    | inl e => mk_run (Uncaught e) []
                    | inr scen =>
                        match run_experiment scen opts with
                        | inl e => mk_run (Uncaught e) []
                        | inr _ => mk_run (Returns 0) []
                        end
                    end
              end
          end
      end.

End Main.

(** What the specification asks of a fatal command-line error: the usage
    message on standard error and the return code -1. *)
Definition usage_and_minus_one (r : run) : Prop :=
  how r = Returns (-1) /\ exists progname, In (UsageMessage progname) (stderr r).

End Cli.

(** ** Sample data for the closed statements *)

Module Sample.

Import Solver Evaluator Selectors Cli.

Definition q_of (n : Z) : Qc := Q2Qc (inject_Z n).

(** Two providers, one PM type drawing 1000 W whatever its load, one VM
    type that fills a PM.  Provider 0 has one PM and two VMs, provider 1
    one PM and one VM; both PMs are on, electricity costs 1 $/kWh, no VM
    brings revenue and nothing else costs anything. *)
Definition scen : scenario :=
  mk_scenario 2 1 1
    [[1%nat]; [1%nat]]
    [[2%nat]; [1%nat]]
    [[true]; [true]]
    [[0]; [0]]
    [1; 1]
    [[0]; [0]]
    [[0]; [0]]
    [[[0]; [0]]; [[0]; [0]]]
    [q_of 1000]
    [q_of 1000]
    [[1]]
    [[Q2Qc (1 # 2)]].

(** The point "PM 0 on, VM 0 on PM 0, PM 0 fully used". *)
Definition one_on_one (x : var) : Qc :=
  match x with
  | X O => 1
  | Y O O => 1
  | S O => 1
  | _ => 0
  end.

(** A back-end for the models of [scen]: the model of one PM and one VM
    (three variables) is solved at [one_on_one] with objective value 1;
    the models with more VMs than PMs are infeasible. *)
Definition backend_answers (m : milp) : option solver_result :=
  Some (if (length (m_vars m) =? 3)%nat
        then mk_solver_result true Optimal 1 one_on_one
        else mk_solver_result false Infeasible 0 (fun _ => 0)).

(** Stand-ins for gtpack on [scen]: a player alone receives the value of
    its coalition, and no core is looked for. *)
Definition alone_division (_ : coalition_value_division_category)
    (g : gmap N real) (players : list nat) : gmap nat real :=
  match players with
  | [p] => {[p := game_value g (make_id [p])]}
  | _ => ∅
  end.

Definition no_core (_ : gmap N real) (_ : list nat) : bool := true.

Definition not_in_core (_ : gmap N real) (_ : list nat) (_ : gmap nat real)
  : bool := false.

Definition dg : real -> real -> bool := definitely_greater_tol sample_tolerance.
Definition dl : real -> real -> bool := definitely_less_tol sample_tolerance.

(** The evaluator run on [scen] over all three coalitions. *)
Definition evaluation : option eval_state :=
  evaluate_all dg CPLEX backend_answers no_core alone_division not_in_core
    scen new_options initial_state (lexicographic_subsets 2).

Definition evaluated : eval_state := default initial_state evaluation.

(** The allocation returned for provider 1 alone, and its input. *)
Definition input_1 : allocation_input := coalition_input scen new_options [1%nat].

Definition allocation_1 : optimal_allocation_info :=
  default new_optimal_allocation_info
    (allocation_of dg CPLEX backend_answers scen new_options [1%nat]).

(** The allocation returned for provider 0 alone. *)
Definition allocation_0 : optimal_allocation_info :=
  default new_optimal_allocation_info
    (allocation_of dg CPLEX backend_answers scen new_options [0%nat]).

(** A table of coalition records with the given values and payoffs, for
    the selectors. *)
Definition info_with (v : real) (ps : list (nat * real)) : coalition_info :=
  mk_coalition_info new_optimal_allocation_info v false (list_to_map ps)
    false 0%N.

(** Provider 0 cannot serve its VMs alone (no solution, hence no
    payoffs); provider 1 earns 1 alone; together they are worth 4 and get
    2 each. *)
Definition needs_partner : gmap N coalition_info :=
  list_to_map
    [(1%N, mk_coalition_info new_optimal_allocation_info NaN true ∅ false 0%N);
     (2%N, info_with (Fin 1) [(1%nat, Fin 1)]);
     (3%N, info_with (Fin (q_of 4)) [(0%nat, Fin (q_of 2));
                                     (1%nat, Fin (q_of 2))])].

(** Two players who are worth 1 each alone and 1 together. *)
Definition better_apart : gmap N coalition_info :=
  list_to_map
    [(1%N, info_with (Fin 1) [(0%nat, Fin 1)]);
     (2%N, info_with (Fin 1) [(1%nat, Fin 1)]);
     (3%N, info_with (Fin 1) [(0%nat, Fin (Q2Qc (1 # 2)));
                              (1%nat, Fin (Q2Qc (1 # 2)))])].

(** Together the two players get 1 each; alone player 0 gets 0 and
    player 1 gets 5. *)
Definition uneven : gmap N coalition_info :=
  list_to_map
    [(1%N, info_with (Fin 0) [(0%nat, Fin 0)]);
     (2%N, info_with (Fin (q_of 5)) [(1%nat, Fin (q_of 5))]);
     (3%N, info_with (Fin (q_of 2)) [(0%nat, Fin 1); (1%nat, Fin 1)])].

(** Stand-ins for the file system and the experiment behind [main]. *)
Definition no_such_file (_ : string) : exception + scenario :=
  inl (runtime_error "Cannot open scenario file").

Definition experiment_ok (_ : scenario) (_ : options) : exception + unit :=
  inr tt.

Definition sample_main : list string -> run :=
  main get_option_or_empty (fun _ => Fin 0) (fun _ => 0%N)
    no_such_file experiment_ok.

End Sample.

(** ** Scenario parser: the other records of [make_scenario] *)

Module Records.

Import Parser.

(** No line of the table under construction has room for a value. *)
Definition unsized (st : pstate) : Prop :=
  Forall (Forall (fun line => line = [])) (tbl st).

(** The run stops with an error. *)
Definition fails {A} (m : M A) (st : pstate) : Prop :=
  exists e, snd (m st) = inl e.

(** The state of the branches that read a matrix ([cip_revenues],
    [cip_num_pms], [cip_num_vms], [cip_pm_asleep_costs],
    [cip_pm_awake_costs], [vm_spec_cpus], [vm_spec_rams]): the line being
    read and the matrix under construction. *)
Record mstate (A : Type) : Type := mk_mstate {
  m_iss : istream;
  m_rows : list (list A)
}.

Arguments mk_mstate {A} _ _.
Arguments m_iss {A} _.
Arguments m_rows {A} _.

Definition MM (A B : Type) : Type := mstate A -> mstate A * (parse_error + B).

Definition mret {A B} (b : B) : MM A B := fun st => (st, inr b).

Definition mbind {A B C} (m : MM A B) (k : B -> MM A C) : MM A C :=
  fun st =>
    match m st with
    | (st', inl e) => (st', inl e)
    | (st', inr b) => k b st'
    end.

Fixpoint mfor_each {A} (l : list nat) (body : nat -> MM A unit) : MM A unit :=
  match l with
  | [] => mret tt
  | i :: r => mbind (body i) (fun _ => mfor_each r body)
  end.

Definition mfor_upto {A} (n : nat) (body : nat -> MM A unit) : MM A unit :=
  mfor_each (seq 0 n) body.

(** "Move to [delim]". *)
Definition mmove_to {A} (delim : ascii) : MM A unit :=
  fun st =>
    let s' := ignore delim (m_iss st) in
    let st' := mk_mstate s' (m_rows st) in
    if good s' then (st', inr tt) else (st', inl (Malformed delim)).

(** [s.field.resize(n)] *)
Definition mresize_outer {A} (n : nat) : MM A unit :=
  fun st => (mk_mstate (m_iss st) (resize n [] (m_rows st)), inr tt).

(** [s.field[c].resize(n)]: new elements are value-initialised. *)
Definition mresize_row {A} (zero : A) (c n : nat) : MM A unit :=
  fun st =>
    match m_rows st !! c with
    | None => (st, inl OutOfRange)
    | Some row =>
        (mk_mstate (m_iss st) (<[c := resize n zero row]> (m_rows st)), inr tt)
    end.

Section Matrix.

Context {A : Type}.

(** [operator>>] for the element type, and the value of [T()]. *)
Variable extract : istream -> A -> istream * A.
Variable zero : A.

(** [iss >> s.field[c][v]] *)
Definition mextract_into (c v : nat) : MM A unit :=
  fun st =>
    match m_rows st !! c with
    | None => (st, inl OutOfRange)
    | Some row =>
        match row !! v with
        | None => (st, inl OutOfRange)
        | Some old =>
            let '(s', new) := extract (m_iss st) old in
            (mk_mstate s' (<[c := <[v := new]> row]> (m_rows st)), inr tt)
        end
    end.

(** A matrix branch of [make_scenario], for a field of [nrows] rows and
    [ncols] columns. *)
Definition parse_matrix (nrows ncols : nat) : MM A unit :=
  mbind (mmove_to "=") (fun _ =>
  mbind (mmove_to "[") (fun _ =>
  mbind (mresize_outer nrows) (fun _ =>
  mfor_upto nrows (fun c =>
    mbind (mmove_to "[") (fun _ =>
    mbind (mresize_row zero c ncols) (fun _ =>
    mbind (mfor_upto ncols (fun v => mextract_into c v)) (fun _ =>
    mmove_to "]"))))))).

Definition parse_matrix_line (nrows ncols : nat) (line : list ascii)
    (rows : list (list A)) : mstate A * (parse_error + unit) :=
  parse_matrix nrows ncols (mk_mstate (mk_istream line true) rows).

(** A vector branch ([pm_spec_min_powers], [pm_spec_max_powers],
    [cip_electricity_costs]), as a matrix of one row held in row 0: the
    vector is resized and filled; the closing bracket is not looked
    for. *)
Definition parse_vector (n : nat) : MM A unit :=
  mbind (mmove_to "=") (fun _ =>
  mbind (mmove_to "[") (fun _ =>
  mbind (mresize_row zero 0 n) (fun _ =>
  mfor_upto n (fun p => mextract_into 0 p)))).

End Matrix.

(** The matrix has the given shape. *)
Definition has_shape {A} (nrows ncols : nat) (rows : list (list A)) : Prop :=
  length rows = nrows /\ Forall (fun row => length row = ncols) rows.

End Records.

(** ** Scenario parser: the lines of the file and the final checks *)

Module Lines.

(** [std::isspace] in the "C" locale. *)
Definition isspace (c : ascii) : bool :=
  let n := nat_of_ascii c in
  (n =? 32)%nat || ((9 <=? n)%nat && (n <=? 13)%nat).

(** [boost::to_lower] on one character. *)
Definition to_lower (c : ascii) : ascii :=
  let n := nat_of_ascii c in
  if ((65 <=? n)%nat && (n <=? 90)%nat) then ascii_of_nat (n + 32) else c.

(** The value of [pos] after the first loop: the number of leading blank
    characters. *)
Fixpoint leading_blanks (line : list ascii) : nat :=
  match line with
  | c :: r => if isspace c then S (leading_blanks r) else 0%nat
  | [] => 0%nat
  end.

(** [boost::starts_with] *)
Fixpoint starts_with (line key : list ascii) : bool :=
  match key, line with
  | [], _ => true
  | k :: key', c :: line' => Ascii.eqb c k && starts_with line' key'
  | _ :: _, [] => false
  end.

(** The records of a scenario file, one per branch of the chain of tests,
    in the order of the chain. *)
Inductive record_key : Type :=
| key_num_cips
| key_num_pm_types
| key_num_vm_types
| key_cip_revenues
| key_pm_spec_min_powers
| key_pm_spec_max_powers
| key_cip_num_pms
| key_cip_num_vms
| key_cip_pm_power_states
| key_cip_electricity_costs
| key_cip_pm_asleep_costs
| key_cip_pm_awake_costs
| key_vm_spec_cpus
| key_vm_spec_rams
| key_cip_to_cip_vm_migration_costs.

(** The tests of the chain: the text looked for and the branch taken.
    [cip_wcosts] is a second name of the electricity costs. *)
Definition tests : list (string * record_key) :=
  [ ("num_cips", key_num_cips);
    ("num_pm_types", key_num_pm_types);
    ("num_vm_types", key_num_vm_types);
    ("cip_revenues", key_cip_revenues);
    ("pm_spec_min_powers", key_pm_spec_min_powers);
    ("pm_spec_max_powers", key_pm_spec_max_powers);
    ("cip_num_pms", key_cip_num_pms);
    ("cip_num_vms", key_cip_num_vms);
    ("cip_pm_power_states", key_cip_pm_power_states);
    ("cip_wcosts", key_cip_electricity_costs);
    ("cip_electricity_costs", key_cip_electricity_costs);
    ("cip_pm_asleep_costs", key_cip_pm_asleep_costs);
    ("cip_pm_awake_costs", key_cip_pm_awake_costs);
    ("vm_spec_cpus", key_vm_spec_cpus);
    ("vm_spec_rams", key_vm_spec_rams);
    ("cip_to_cip_vm_migration_costs", key_cip_to_cip_vm_migration_costs) ]%string.

Fixpoint first_match (line : list ascii) (ts : list (string * record_key))
  : option record_key :=
  match ts with
  | [] => None
  | (text, k) :: rest =>
      if starts_with line (list_ascii_of_string text) then Some k
      else first_match line rest
  end.

(** The branches that build their stream from [line.substr(pos)]; the
    first two build it from [line]. *)
Definition cuts_again (k : record_key) : bool :=
  match k with
  | key_num_cips | key_num_pm_types => false
  | _ => true
  end.

(** What the loop body does with a line of the file: nothing (blank line,
    comment, or no test of the chain succeeds), the branch of a record run
    on a stream holding the given characters, or [std::out_of_range] out of
    [substr]. *)
Inductive line_action : Type :=
| Skipped
| Unknown
| Branch (k : record_key) (stream : list ascii)
| SubstrOutOfRange.

Definition dispatch (line : list ascii) : line_action :=
  let pos := leading_blanks line in
  let line1 := if (0 <? pos)%nat then drop pos line else line in
  match line1 with
  | [] => Skipped
  | c :: _ =>
      if Ascii.eqb c "#" then Skipped
      else
        let line2 := map to_lower line1 in
        match first_match line2 tests with
        | None => Unknown
        | Some k =>
            if cuts_again k then
              if (pos <=? length line2)%nat then Branch k (drop pos line2)
              else SubstrOutOfRange
            else Branch k line2
        end
  end.

End Lines.

Module Finish.

Import Cli.

(** How the part of [make_scenario] after the loop ends: an exception, a
    read past the end of a vector, or the scenario that is returned. *)
Inductive outcome : Type :=
| Thrown (e : exception)
| OutOfBounds
| Returned (s : scenario).

(** [v.size() == 0 || n == v.size()] *)
Definition size_ok {A} (n : nat) (v : list A) : bool :=
  (length v =? 0)%nat || (n =? length v)%nat.

(** The exception of the first check that fails, if any. *)
Definition failed_check (s : scenario) : option exception :=
  if negb (0 <? num_cips s)%nat then
    Some (logic_error "Number of CIP must be a positive number")
  else if negb (0 <? num_pm_types s)%nat then
    Some (logic_error "Number of PM types must be a positive number")
  else if negb (0 <? num_vm_types s)%nat then
    Some (logic_error "Number of VM types must be a positive number")
  else if negb (size_ok (num_cips s) (cip_revenues s)) then
    Some (runtime_error "Unexpected number of CIP revenues")
  else if negb (size_ok (num_cips s) (cip_num_pms s)) then
    Some (runtime_error "Unexpected number of CIP PMs")
  else if negb (size_ok (num_cips s) (cip_num_vms s)) then
    Some (runtime_error "Unexpected number of CIP VMs")
  else if negb (size_ok (num_cips s) (cip_electricity_costs s)) then
    Some (runtime_error "Unexpected number of CIP electricity costs")
  else if negb (size_ok (num_cips s) (cip_pm_power_states s)) then
    Some (runtime_error "Unexpected number of CIP PM power states")
  else if negb (size_ok (num_cips s) (cip_pm_asleep_costs s)) then
    Some (runtime_error "Unexpected number of CIP PM switch-off costs")
  else if negb (size_ok (num_cips s) (cip_pm_awake_costs s)) then
    Some (runtime_error "Unexpected number of CIP PM switch-on costs")
  else if negb (size_ok (num_pm_types s) (pm_spec_min_powers s)) then
    Some (runtime_error
            "Unexpected number of PM minimum power consumption specifications")
  else if negb (size_ok (num_pm_types s) (pm_spec_max_powers s)) then
    Some (runtime_error
            "Unexpected number of PM maximum power consumption specifications")
  else if negb (size_ok (num_vm_types s) (vm_spec_cpus s)) then
    Some (runtime_error "Unexpected number of VM CPU share requirements")
  else if negb (size_ok (num_vm_types s) (vm_spec_rams s)) then
    Some (runtime_error "Unexpected number of VM RAM share requirements")
  else if negb (size_ok (num_cips s) (cip_to_cip_vm_migration_costs s)) then
    Some (runtime_error "Unexpected number of CIP-to-CIP VM migration costs")
  else None.

(** [num_pms += s.cip_num_pms[c][p]] for every PM type; [None] when an
    element is missing. *)
Definition count_pms (s : scenario) (c : nat) : option nat :=
  foldl
    (fun acc p =>
       match acc, cip_num_pms s !! c with
       | Some n, Some row => (fun k => (n + k)%nat) <$> row !! p
       | _, _ => None
       end)
    (Some 0%nat) (seq 0 (num_pm_types s)).

(** The default power states: every PM of every provider is off. *)
Definition default_power_states (s : scenario) : option (list (list bool)) :=
  mapM (fun c => (fun n => replicate n false) <$> count_pms s c)
    (seq 0 (num_cips s)).

Definition with_power_states (x : list (list bool)) (s : scenario)
  : scenario :=
  mk_scenario (num_cips s) (num_pm_types s) (num_vm_types s) (cip_num_pms s)
    (cip_num_vms s) x (cip_revenues s) (cip_electricity_costs s)
    (cip_pm_asleep_costs s) (cip_pm_awake_costs s)
    (cip_to_cip_vm_migration_costs s) (pm_spec_min_powers s)
    (pm_spec_max_powers s) (vm_spec_cpus s) (vm_spec_rams s).

Definition with_asleep_costs (x : list (list Qc)) (s : scenario) : scenario :=
  mk_scenario (num_cips s) (num_pm_types s) (num_vm_types s) (cip_num_pms s)
    (cip_num_vms s) (cip_pm_power_states s) (cip_revenues s)
    (cip_electricity_costs s) x (cip_pm_awake_costs s)
    (cip_to_cip_vm_migration_costs s) (pm_spec_min_powers s)
    (pm_spec_max_powers s) (vm_spec_cpus s) (vm_spec_rams s).

Definition with_awake_costs (x : list (list Qc)) (s : scenario) : scenario :=
  mk_scenario (num_cips s) (num_pm_types s) (num_vm_types s) (cip_num_pms s)
    (cip_num_vms s) (cip_pm_power_states s) (cip_revenues s)
    (cip_electricity_costs s) (cip_pm_asleep_costs s) x
    (cip_to_cip_vm_migration_costs s) (pm_spec_min_powers s)
    (pm_spec_max_powers s) (vm_spec_cpus s) (vm_spec_rams s).

Definition with_migration_costs (x : list (list (list Qc))) (s : scenario)
  : scenario :=
  mk_scenario (num_cips s) (num_pm_types s) (num_vm_types s) (cip_num_pms s)
    (cip_num_vms s) (cip_pm_power_states s) (cip_revenues s)
    (cip_electricity_costs s) (cip_pm_asleep_costs s) (cip_pm_awake_costs s)
    x (pm_spec_min_powers s) (pm_spec_max_powers s) (vm_spec_cpus s)
    (vm_spec_rams s).

(** The defaults of the tables the file left out. *)
Definition fill_defaults (s : scenario) : option scenario :=
  s1 ← (if (length (cip_pm_power_states s) =? 0)%nat
        then (fun x => with_power_states x s) <$> default_power_states s
        else Some s);
  let s2 :=
    if (length (cip_pm_asleep_costs s1) =? 0)%nat
    then with_asleep_costs
           (replicate (num_cips s1) (replicate (num_pm_types s1) 0)) s1
    else s1 in
  let s3 :=
    if (length (cip_pm_awake_costs s2) =? 0)%nat
    then with_awake_costs
           (replicate (num_cips s2) (replicate (num_pm_types s2) 0)) s2
    else s2 in
  Some (if (length (cip_to_cip_vm_migration_costs s3) =? 0)%nat
        then with_migration_costs
               (replicate (num_cips s3)
                  (replicate (num_cips s3) (replicate (num_vm_types s3) 0)))
               s3
        else s3).

(** The checks and defaults [make_scenario] applies to the scenario the
    loop over the lines has built. *)
Definition check_and_default (s : scenario) : outcome :=
  match failed_check s with
  | Some e => Thrown e
  | None =>
      match fill_defaults s with
      | None => OutOfBounds
      | Some s' => Returned s'
      end
  end.

(** Every PM of the provider is recorded as switched off. *)
Definition all_off (s : scenario) (c : nat) : Prop :=
  exists n, count_pms s c = Some n /\
            cip_pm_power_states s !! c = Some (replicate n false).

End Finish.

(** ** The social-optimum selector and [analyze_coalitions] *)

Module Formation.

Import Solver Evaluator Selectors.

Section SocialOptimum.

(** [dcs::math::float_traits<RealT>]. *)
Variable definitely_greater : real -> real -> bool.
Variable essentially_equal : real -> real -> bool.
Variable visited_coalitions : gmap N coalition_info.

(** [candidate_partition_value]: the values of the blocks that have a
    record, added up in the order of the blocks. *)
Definition candidate_partition_value (subs : list (list nat)) : real :=
  fold_left
    (fun acc sub =>
       match visited_coalitions !! make_id sub with
       | None => acc
       | Some ci => radd acc (value ci)
       end)
    subs (Fin 0).

(** One pass of the [while (partition.has_next())] loop on the state
    ([best_value], [best_partitions]). *)
Definition social_step (state : real * list partition_info)
    (subs : list (list nat)) : real * list partition_info :=
  let cand := candidate visited_coalitions subs in
  let v := candidate_partition_value subs in
  if (length (snd state) =? 0)%nat || definitely_greater v (fst state)
  then (v, [cand])
  else if essentially_equal v (fst state)
       then (fst state, snd state ++ [cand])
       else state.

Definition social_run (parts : list (list (list nat)))
    (state : real * list partition_info) : real * list partition_info :=
  fold_left social_step parts state.

(** [social_optimum_partition_selector::operator()]. *)
Definition social_optimum_partition_selector (players : list nat)
  : list partition_info :=
  snd (social_run (lexicographic_partitions players) (Fin 0, [])).

End SocialOptimum.

(** [coalition_formation_info]. *)
Record coalition_formation_info : Type := mk_coalition_formation_info {
  fc_coalitions : gmap N coalition_info;
  best_partitions : list partition_info
}.

Section AnalyzeCoalitions.

Variable definitely_greater : real -> real -> bool.
Variable definitely_less : real -> real -> bool.
Variable essentially_equal : real -> real -> bool.
Variable be : backend.
Variable solve : milp -> option solver_result.
Variable core_is_empty : gmap N real -> list nat -> bool.
Variable value_division :
  coalition_value_division_category -> gmap N real -> list nat -> gmap nat real.
Variable belongs_to_core : gmap N real -> list nat -> gmap nat real -> bool.

(** [analyze_coalitions]: the loop over the coalitions, then the selector
    of the chosen formation rule on the players [0 .. num_cips-1] of the
    game; [None] when an exception leaves the function. *)
Definition analyze_coalitions (s : scenario) (opts : options)
  : option coalition_formation_info :=
  match evaluate_all definitely_greater be solve core_is_empty value_division
          belongs_to_core s opts initial_state
          (lexicographic_subsets (num_cips s)) with
  | None => None
  | Some st =>
      let players := seq 0 (num_cips s) in
      let best :=
        match coalition_formation opts with
        | merge_split_stable_coalition_formation =>
            Some (merge_split_stable_partition_selector definitely_less
                    (visited st) lexicographic_partitions
                    lexicographic_subranges players)
        | nash_stable_coalition_formation =>
            nash_stable_partition_selector definitely_greater (visited st)
              players
        | pareto_optimal_coalition_formation =>
            pareto_optimal_partition_selector (visited st) players
        | social_optimum_coalition_formation =>
            Some (social_optimum_partition_selector definitely_greater
                    essentially_equal (visited st) players)
        end in
      mk_coalition_formation_info (visited st) <$> best
  end.

End AnalyzeCoalitions.

End Formation.

(** ** The report *)

Module Report.

Import Solver Evaluator Selectors Formation.

(** A loop whose body can throw. *)
Fixpoint fold_throwing {A B} (f : A -> B -> option A) (l : list B) (a : A)
  : option A :=
  match l with
  | [] => Some a
  | b :: r =>
      match f a b with
      | None => None
      | Some a' => fold_throwing f r a'
      end
  end.

(** The elements of a [std::set<cid_type>] and the entries of a
    [std::map<player_type, RealT>] in the order of the iterators. *)
Definition set_elements (s : gset N) : list N :=
  merge_sort N.le (elements s).

Definition map_entries (m : gmap nat real) : list (nat * real) :=
  omap (fun p => (fun x => (p, x)) <$> m !! p)
    (merge_sort Nat.le (map fst (map_to_list m))).

(** The sums the report accumulates for one of the best partitions; the
    percentages it prints are quotients of these sums. *)
Record partition_sums : Type := mk_partition_sums {
  bestpart_value : real;
  bestpart_kwatt : real;
  grandpart_value : real;
  singlepart_value : real;
  singlepart_kwatt : real
}.

Section Report.

Variable ncips : nat.
Variable formed : coalition_formation_info.

(** [formed_coalitions.coalitions.at(cid)] and
    [formed_coalitions.coalitions.at(cid).payoffs.at(pid)]; [None] is
    [std::out_of_range]. *)
Definition record_at (c : N) : option coalition_info :=
  fc_coalitions formed !! c.

Definition payoff_at (c : N) (pid : nat) : option real :=
  match record_at c with
  | None => None
  | Some ci => payoffs ci !! pid
  end.

(** The identifier of the grand coalition. *)
Definition gcid : N := make_id (seq 0 ncips).

(** The section "Payoffs" of a best partition: [bestpart_value] and
    [bestpart_kwatt]. *)
Definition best_sums (cids : list N) : option (real * real) :=
  fold_throwing
    (fun acc c =>
       match record_at c with
       | None => None
       | Some ci =>
           Some (fold_left (fun v e => radd v (snd e))
                   (map_entries (payoffs ci)) (fst acc),
                 radd (snd acc) (kwatt (optimal_allocation ci)))
       end)
    cids (Fin 0, Fin 0).

(** The sections "Core exists?" and "Value inside the Core?". *)
Definition core_lines (cids : list N) : option (list (bool * bool)) :=
  mapM (fun c =>
          (fun ci => (negb (core_empty ci), payoffs_in_core ci))
          <$> record_at c)
    cids.

(** The section "Payoff increments wrt Grand-Coalition":
    [grandpart_value]. *)
Definition grand_sums (cids : list N) : option real :=
  fold_throwing
    (fun acc c =>
       match record_at c with
       | None => None
       | Some ci =>
           fold_throwing
             (fun v e =>
                match payoff_at gcid (fst e) with
                | None => None
                | Some x => Some (radd v x)
                end)
             (map_entries (payoffs ci)) acc
       end)
    cids (Fin 0).

(** The section "Payoff increments wrt Singleton Coalitions":
    [singlepart_value] and [singlepart_kwatt]. *)
Definition single_sums (cids : list N) : option (real * real) :=
  fold_throwing
    (fun acc c =>
       match record_at c with
       | None => None
       | Some ci =>
           fold_throwing
             (fun a e =>
                let pcid := make_id [fst e] in
                match payoff_at pcid (fst e), record_at pcid with
                | Some x, Some pci =>
                    Some (radd (fst a) x,
                          radd (snd a) (kwatt (optimal_allocation pci)))
                | _, _ => None
                end)
             (map_entries (payoffs ci)) acc
       end)
    cids (Fin 0, Fin 0).

Definition report_partition (part : partition_info) : option partition_sums :=
  let cids := set_elements (coalitions part) in
  match best_sums cids with
  | None => None
  | Some (bv, bk) =>
      match core_lines cids with
      | None => None
      | Some _ =>
          match grand_sums cids with
          | None => None
          | Some gv =>
              match single_sums cids with
              | None => None
              | Some (sv, sk) => Some (mk_partition_sums bv bk gv sv sk)
              end
          end
      end
  end.

(** The section "Grand Coalition": the sum of its payoffs, when it has a
    record. *)
Definition report_grand : option real :=
  (fun ci => fold_left (fun v e => radd v (snd e))
               (map_entries (payoffs ci)) (Fin 0))
  <$> record_at gcid.

(** The section "Singleton Coalitions": [singlepart_value] and
    [singlepart_kwatt] over all the players. *)
Definition report_singletons : option (real * real) :=
  fold_throwing
    (fun a c =>
       let pcid := make_id [c] in
       match payoff_at pcid c, record_at pcid with
       | Some x, Some pci =>
           Some (radd (fst a) x, radd (snd a) (kwatt (optimal_allocation pci)))
       | _, _ => None
       end)
    (seq 0 ncips) (Fin 0, Fin 0).

(** What [report] computes: the sums of every best partition, of the
    grand coalition and of the singletons; [None] when [std::out_of_range]
    leaves it. *)
Definition report
  : option (list partition_sums * option real * (real * real)) :=
  match mapM report_partition (best_partitions formed) with
  | None => None
  | Some parts =>
      match report_singletons with
      | None => None
      | Some singles => Some (parts, report_grand, singles)
      end
  end.

End Report.

End Report.

(** ** [run_experiment] *)

Module Experiment.

Import Solver Evaluator Selectors Formation Finish.

Definition with_num_vms (x : list (list nat)) (s : scenario) : scenario :=
  mk_scenario (num_cips s) (num_pm_types s) (num_vm_types s) (cip_num_pms s)
    x (cip_pm_power_states s) (cip_revenues s) (cip_electricity_costs s)
    (cip_pm_asleep_costs s) (cip_pm_awake_costs s)
    (cip_to_cip_vm_migration_costs s) (pm_spec_min_powers s)
    (pm_spec_max_powers s) (vm_spec_cpus s) (vm_spec_rams s).

(** The number of passes of the main loop. *)
Definition iterations (opts : options) : nat :=
  if rnd_gen_vms opts then Nat.max 1 (rnd_num_iters opts) else 1%nat.

Section Perturbation.

(** The random variates of Boost.Random in one run, by iteration and by
    generator: [rvg(rng_vms[c][v])] for the upper bound given last, the
    [k]-th call of [rvg(rng_pm_power_states[c][p])],
    [rvg(rng_pm_on_off_costs[c][p])] and
    [rvg(rng_vm_migration_costs[c1][c2][v])].  The generators of a run are
    seeded from [rng_seed] in the order of the options that are enabled,
    so the variates belong to one setting of the options: two runs with
    different [--rnd-*] options do not share them. *)
Variable rvg_vms : nat -> nat -> nat -> nat -> nat.
Variable rvg_pm_power_state : nat -> nat -> nat -> nat -> bool.
Variable rvg_pm_on_off_time : nat -> nat -> nat -> Qc.
Variable rvg_vm_migration_time : nat -> nat -> nat -> nat -> Qc.

Variable scen : scenario.
Variable i : nat.

(** [wrk_scen.cip_num_vms[c][v] = std::max(rvg(rng_vms[c][v]), 0UL)] *)
Definition gen_vms (tbl : list (list nat)) : list (list nat) :=
  foldl
    (fun m c =>
       foldl
         (fun m v =>
            alter
              (fun row =>
                 <[v := Nat.max
                          (rvg_vms i c v (at2 0%nat (cip_num_vms scen) c v))
                          0]> row)
              c m)
         m (seq 0 (num_vm_types scen)))
    tbl (seq 0 (num_cips scen)).

(** [wrk_scen.cip_pm_power_states.resize(scen.num_cips)], then one
    [push_back] per PM of the working scenario. *)
Definition gen_pm_power_states (wrk : scenario) : list (list bool) :=
  foldl
    (fun m c =>
       foldl
         (fun m p =>
            foldl
              (fun m k =>
                 alter (fun row => row ++ [rvg_pm_power_state i c p k]) c m)
              m (seq 0 (at2 0%nat (cip_num_pms wrk) c p)))
         m (seq 0 (num_pm_types scen)))
    (resize (num_cips scen) [] (cip_pm_power_states wrk))
    (seq 0 (num_cips scen)).

(** [scen.pm_spec_max_powers[p]*1e-3*scen.cip_electricity_costs[c]] *)
Definition transition_cost_rate (c p : nat) : Qc :=
  at1 0 (pm_spec_max_powers scen) p * Q2Qc (1 # 1000)
  * at1 0 (cip_electricity_costs scen) c.

(** The cost drawn for the PMs of type [p] of provider [c], given to both
    the switch-off and the switch-on table. *)
Definition on_off_cost (c p : nat) : Qc :=
  qmax (rvg_pm_on_off_time i c p * transition_cost_rate c p) 0.

Definition gen_pm_on_off_costs (tbl : list (list Qc)) : list (list Qc) :=
  foldl
    (fun m c =>
       foldl
         (fun m p => alter (fun row => <[p := on_off_cost c p]> row) c m)
         (alter (resize (num_pm_types scen) 0) c m)
         (seq 0 (num_pm_types scen)))
    (resize (num_cips scen) [] tbl) (seq 0 (num_cips scen)).

(** [data_transfer_cost*data_rate/activation_time] with
    [data_transfer_cost = 1e-5], [data_rate = 12.5*3600] and
    [activation_time = 12]. *)
Definition transfer_cost_rate : Qc :=
  Q2Qc (1 # 100000) * (Q2Qc (25 # 2) * Q2Qc (3600 # 1)) / Q2Qc (12 # 1).

Definition migration_cost (c1 c2 v : nat) : Qc :=
  qmax (rvg_vm_migration_time i c1 c2 v * transfer_cost_rate) 0.

(** The line the loops leave for a pair of providers. *)
Definition migration_line (c1 c2 : nat) : list Qc :=
  if bool_decide (c1 <> c2)
  then map (migration_cost c1 c2) (seq 0 (num_vm_types scen))
  else replicate (num_vm_types scen) 0.

Definition gen_vm_migration_costs (tbl : list (list (list Qc)))
  : list (list (list Qc)) :=
  foldl
    (fun m c1 =>
       foldl
         (fun m c2 =>
            if bool_decide (c1 <> c2) then
              foldl
                (fun m v =>
                   alter (alter (fun line => <[v := migration_cost c1 c2 v]> line)
                            c2)
                     c1 m)
                (alter (alter (resize (num_vm_types scen) 0) c2) c1 m)
                (seq 0 (num_vm_types scen))
            else
              alter (alter (fun _ => replicate (num_vm_types scen) 0) c2) c1 m)
         (alter (resize (num_cips scen) []) c1 m)
         (seq 0 (num_cips scen)))
    (resize (num_cips scen) [] tbl) (seq 0 (num_cips scen)).

(** [wrk_scen] at the end of the perturbations of iteration [i]. *)
Definition working_scenario (opts : options) : scenario :=
  let w1 :=
    if rnd_gen_vms opts then with_num_vms (gen_vms (cip_num_vms scen)) scen
    else scen in
  let w2 :=
    if rnd_gen_pm_power_states opts
    then with_power_states (gen_pm_power_states w1) w1
    else w1 in
  let w3 :=
    if rnd_gen_pm_on_off_costs opts
    then with_awake_costs (gen_pm_on_off_costs (cip_pm_awake_costs w2))
           (with_asleep_costs (gen_pm_on_off_costs (cip_pm_asleep_costs w2))
              w2)
    else w2 in
  if rnd_gen_vm_migration_costs opts
  then with_migration_costs
         (gen_vm_migration_costs (cip_to_cip_vm_migration_costs w3)) w3
  else w3.

End Perturbation.

Section RunExperiment.

Variable rvg_vms : nat -> nat -> nat -> nat -> nat.
Variable rvg_pm_power_state : nat -> nat -> nat -> nat -> bool.
Variable rvg_pm_on_off_time : nat -> nat -> nat -> Qc.
Variable rvg_vm_migration_time : nat -> nat -> nat -> nat -> Qc.

Variable definitely_greater : real -> real -> bool.
Variable definitely_less : real -> real -> bool.
Variable essentially_equal : real -> real -> bool.
Variable be : backend.
Variable solve : milp -> option solver_result.
Variable core_is_empty : gmap N real -> list nat -> bool.
Variable value_division :
  coalition_value_division_category -> gmap N real -> list nat -> gmap nat real.
Variable belongs_to_core : gmap N real -> list nat -> gmap nat real -> bool.

Variable scen : scenario.
Variable opts : options.

Definition wrk_scen (i : nat) : scenario :=
  working_scenario rvg_vms rvg_pm_power_state rvg_pm_on_off_time
    rvg_vm_migration_time scen i opts.

Definition formed_coalitions (i : nat) : option coalition_formation_info :=
  analyze_coalitions definitely_greater definitely_less essentially_equal be
    solve core_is_empty value_division belongs_to_core (wrk_scen i) opts.

(** One pass of the main loop on the lines of the CSV file: the lines
    afterwards, and whether the pass ended without an exception. *)
Definition run_iteration (csv : list (list Csv.field)) (i : nat)
  : list (list Csv.field) * bool :=
  match formed_coalitions i with
  | None => (csv, false)
  | Some formed =>
      match Report.report (num_cips (wrk_scen i)) formed with
      | None => (csv, false)
      | Some _ =>
          (if String.eqb (csv_fname opts) "" then csv
           else Csv.export_csv csv (num_cips (wrk_scen i))
                  (fc_coalitions formed) (1 <? i)%nat,
           true)
      end
  end.

Fixpoint run_iterations (csv : list (list Csv.field)) (l : list nat)
  : list (list Csv.field) * bool :=
  match l with
  | [] => (csv, true)
  | i :: rest =>
      match run_iteration csv i with
      | (csv', true) => run_iterations csv' rest
      | (csv', false) => (csv', false)
      end
  end.

(** [run_experiment] on the lines the CSV file holds: the lines it holds
    afterwards, and whether the function returned. *)
Definition run_experiment (csv : list (list Csv.field))
  : list (list Csv.field) * bool :=
  run_iterations csv (seq 1 (iterations opts)).

(** The lines written for iteration [i]. *)
Definition csv_block (i : nat) : list (list Csv.field) :=
  match formed_coalitions i with
  | None => []
  | Some formed =>
      Csv.first_line (num_cips (wrk_scen i)) (1 <? i)%nat
      :: Csv.exported_rows (num_cips (wrk_scen i)) (fc_coalitions formed)
  end.

End RunExperiment.

End Experiment.

(** ** Inputs without negative prices *)

Module Prices.

Import Solver.

(** No price, cost or power of the input of [find_optimal_allocation] is
    negative, and no PM type draws more when idle than at full load. *)
Definition not_negative (inp : allocation_input) : Prop :=
  Forall (Qcle 0) (in_cips_electricity_cost inp) /\
  Forall2 (fun lo hi => 0 <= lo /\ lo <= hi)
    (in_pm_specs_min_power inp) (in_pm_specs_max_power inp) /\
  Forall (Forall (Qcle 0)) (in_cip_pm_awake_costs inp) /\
  Forall (Forall (Qcle 0)) (in_cip_pm_asleep_costs inp) /\
  Forall (Forall (Forall (Qcle 0))) (in_cip_to_cip_vm_migration_costs inp).

#[global] Instance not_negative_dec (inp : allocation_input) :
  Decision (not_negative inp).
Proof. unfold not_negative. apply _. Defined.

End Prices.

(** ** Sample scenarios for the parser *)

Module Cases.

Import Solver Evaluator Sample.

(** The scenario of [Sample.scen] as a file gives it that leaves out the
    power states, the switch-off and switch-on costs and the migration
    costs. *)
Definition bare : scenario :=
  mk_scenario 2 1 1
    [[1%nat]; [1%nat]]
    [[2%nat]; [1%nat]]
    []
    [[0]; [0]]
    [1; 1]
    []
    []
    []
    [q_of 1000]
    [q_of 1000]
    [[1]]
    [[Q2Qc (1 # 2)]].

(** The same with the defaults. *)
Definition bare_filled : scenario :=
  mk_scenario 2 1 1
    [[1%nat]; [1%nat]]
    [[2%nat]; [1%nat]]
    [[false]; [false]]
    [[0]; [0]]
    [1; 1]
    [[0]; [0]]
    [[0]; [0]]
    [[[0]; [0]]; [[0]; [0]]]
    [q_of 1000]
    [q_of 1000]
    [[1]]
    [[Q2Qc (1 # 2)]].

(** A file that gives the three counts only. *)
Definition counts_only : scenario :=
  mk_scenario 2 1 1 [] [] [] [] [] [] [] [] [] [] [] [].

(** Stand-ins for Boost.Random: the largest number of VMs, every PM on,
    and a unit time for every transition and migration. *)
Definition all_vms (_ _ _ bound : nat) : nat := bound.
Definition always_on (_ _ _ _ : nat) : bool := true.
Definition unit_time (_ _ _ : nat) : Qc := 1.
Definition unit_migration_time (_ _ _ _ : nat) : Qc := 1.

(** Every random generation switched on, two iterations, a CSV file. *)
Definition all_random : options :=
  mk_options (Fin 0) (Fin (-1)) nash_stable_coalition_formation
    shapley_coalition_value_division true true true true 5489%N 2%nat
    "out.csv".

(** A stand-in for [essentially_equal]: equality of finite values. *)
Definition same (x y : real) : bool :=
  match x, y with
  | Fin a, Fin b => bool_decide (a = b)
  | _, _ => false
  end.

(** One provider with one PM and one VM. *)
Definition lone : scenario :=
  mk_scenario 1 1 1
    [[1%nat]]
    [[1%nat]]
    [[true]]
    [[0]]
    [1]
    [[0]]
    [[0]]
    [[[0]]]
    [q_of 1000]
    [q_of 1000]
    [[1]]
    [[Q2Qc (1 # 2)]].




(** The same point as a solver reports it within an integrality tolerance
    of 1e-9: no value is exactly 0 or 1. *)
Definition tolerance : Qc := Q2Qc (1 # 1000000000).

Definition first_pm_reported (x : var) : Qc :=
  match x with
  | X 0 => 1 - tolerance
  | Y 0 0 => 1 - tolerance
  | S 0 => 1 - tolerance
  | _ => tolerance
  end.

Definition reported : solver_result :=
  mk_solver_result true Optimal 1 first_pm_reported.



(** The experiment on [scen] with the default options, and on [lone] with
    [all_random], from an empty or absent CSV file. *)
Definition experiment (s : scenario) (opts : options)
  : list (list Csv.field) -> list (list Csv.field) * bool :=
  Experiment.run_experiment all_vms always_on unit_time unit_migration_time
    dg dl same CPLEX backend_answers no_core alone_division not_in_core
    s opts.

Definition analysis (s : scenario) (opts : options)
  : option Formation.coalition_formation_info :=
  Formation.analyze_coalitions dg dl same CPLEX backend_answers no_core
    alone_division not_in_core s opts.

(** The options of the social-optimum rule. *)
Definition social : options :=
  mk_options (Fin 0) (Fin (-1)) social_optimum_coalition_formation
    shapley_coalition_value_division false false false false 5489%N 1%nat "".

Definition formed_social : Formation.coalition_formation_info :=
  default (Formation.mk_coalition_formation_info ∅ [])
    (analysis scen social).

Definition formed_lone : Formation.coalition_formation_info :=
  default (Formation.mk_coalition_formation_info ∅ [])
    (analysis lone new_options).

Definition report_lone
  : list Report.partition_sums * option real * (real * real) :=
  default ([], None, (NaN, NaN)) (Report.report 1 formed_lone).

Definition csv_lone : list (list Csv.field) :=
  fst (experiment lone all_random []).

(** A stand-in for [definitely_less] that never holds. *)
Definition never_less (_ _ : real) : bool := false.

(** The record of the two players of [better_apart] together. *)
Definition together : coalition_info :=
  info_with (Fin 1) [(0%nat, Fin (Q2Qc (1 # 2))); (1%nat, Fin (Q2Qc (1 # 2)))].

(** The Pareto selector on [uneven], the grand coalition first. *)
Definition pareto_uneven : list real * list Selectors.partition_info :=
  default ([], [])
    (Selectors.pareto_run uneven [0%nat; 1%nat] (replicate 2 NaN, [])
       [[[0%nat; 1%nat]]; [[0%nat]; [1%nat]]]).

End Cases.

(** * Properties *)

(** ** Arithmetic of [real] *)

Lemma radd_0_l (x : real) : radd (Fin 0) x = x.
Proof. destruct x; simpl; try reflexivity. f_equal. ring. Qed.

Lemma radd_fin (a b : Qc) : radd (Fin a) (Fin b) = Fin (a + b).
Proof. reflexivity. Qed.

Lemma rsub_fin (a b : Qc) : rsub (Fin a) (Fin b) = Fin (a - b).
Proof. reflexivity. Qed.

Lemma rlt_irrefl (x : real) : rlt x x = false.
Proof.
  destruct x; simpl; try reflexivity.
  apply bool_decide_eq_false. intros H.
  exact (Qcle_not_lt _ _ (Qcle_refl q) H).
Qed.


(** ** The migration-cost record of the scenario file *)

Section ParserFacts.

Import Parser.

Variable extract_real : istream -> Qc -> istream * Qc.

Lemma keeps_diagonal_bind {A B} (m : M A) (k : A -> M B) :
  keeps_diagonal m -> (forall a, keeps_diagonal (k a)) ->
  keeps_diagonal (bind m k).
Proof.
  intros Hm Hk st Hst. unfold bind.
  specialize (Hm st Hst). destruct (m st) as [st' [e | a]]; simpl in *.
  - exact Hm.
  - apply Hk. exact Hm.
Qed.

Lemma keeps_diagonal_for_each (l : list nat) (body : nat -> M unit) :
  (forall i, keeps_diagonal (body i)) -> keeps_diagonal (for_each l body).
Proof.
  intros Hbody. induction l as [| i r IH]; simpl.
  - intros st Hst. exact Hst.
  - apply keeps_diagonal_bind; [apply Hbody | intros _; exact IH].
Qed.

Lemma keeps_diagonal_move_to (delim : ascii) : keeps_diagonal (move_to delim).
Proof.
  intros st Hst. unfold move_to.
  destruct (good (ignore delim (iss st))); exact Hst.
Qed.

Lemma keeps_diagonal_resize_outer (n : nat) : keeps_diagonal (resize_outer n).
Proof. intros st Hst. exact Hst. Qed.

Lemma keeps_diagonal_resize_row (c n : nat) : keeps_diagonal (resize_row c n).
Proof.
  intros st Hst. unfold resize_row. destruct (tbl st !! c); exact Hst.
Qed.

Lemma keeps_diagonal_extract_into (c k : nat) :
  keeps_diagonal (extract_into extract_real c c k).
Proof.
  intros st Hst. unfold extract_into.
  assert (Hnew : Forall (fun t => fst (fst t) = snd (fst t))
                   (stores st ++ [(c, c, k)])).
  { apply Forall_app. split; [exact Hst |]. constructor; [reflexivity | constructor]. }
  destruct (tbl st !! c) as [plane |]; [| exact Hnew].
  destruct (plane !! c) as [line |]; [| exact Hnew].
  destruct (line !! k) as [old |]; [| exact Hnew].
  destruct (extract_real (iss st) old) as [s' new]. exact Hnew.
Qed.

Lemma keeps_diagonal_parse (ncips nvmtypes npmtypes : nat) :
  keeps_diagonal (parse_migration_costs extract_real ncips nvmtypes npmtypes).
Proof.
  unfold parse_migration_costs, for_upto.
  repeat first
    [ apply keeps_diagonal_bind; [| intros _]
    | apply keeps_diagonal_move_to
    | apply keeps_diagonal_resize_outer
    | apply keeps_diagonal_resize_row
    | apply keeps_diagonal_extract_into
    | apply keeps_diagonal_for_each; intros ? ].
Qed.

(** C7. Reading a [cip_to_cip_vm_migration_costs] record, whatever the
    line holds and whatever table the parser starts from, and whether the
    run completes or stops with an error, the parser hands to the stream
    extraction only elements [G[c][c][k]]: no element [G[c1][c2][v]] with
    [c1 <> c2] is ever a target of an extraction from the file. *)
Theorem migration_costs_only_diagonal_written
    (ncips nvmtypes npmtypes : nat) (line : list ascii)
    (table : list (list (list Qc))) (c1 c2 v : nat) :
  c1 <> c2 ->
  ~ In (c1, c2, v)
      (stores (fst (parse_migration_costs_line extract_real
                      ncips nvmtypes npmtypes line table))).
Proof.
  intros Hne Hin.
  assert (Hd : diagonal_only
                 (fst (parse_migration_costs_line extract_real
                         ncips nvmtypes npmtypes line table))).
  { apply keeps_diagonal_parse. constructor. }
  unfold diagonal_only in Hd. rewrite Forall_forall in Hd.
  apply list_elem_of_In in Hin.
  specialize (Hd _ Hin). simpl in Hd. contradiction.
Qed.

End ParserFacts.

Lemma migration_costs_only_diagonal_written_witness :
  0%nat <> 1%nat /\
  ~ In (0%nat, 1%nat, 0%nat)
      (Parser.stores (fst (Parser.parse_migration_costs_line
                             Parser.extract_digit 2 1 1 Parser.sample_line
                             [[[0; 0]; [0; 0]]; [[0; 0]; [0; 0]]]))).
Proof.
  split; [lia | apply migration_costs_only_diagonal_written; lia].
Defined.

(** From the empty table a fresh scenario holds, the first extraction
    already addresses a vector that was never sized. *)
Example migration_costs_first_store_out_of_range :
  let r := Parser.parse_migration_costs_line
             Parser.extract_digit 2 1 1 Parser.sample_line [] in
  Parser.stores (fst r) = [(0, 0, 0)%nat] /\ snd r = inl Parser.OutOfRange.
Proof. vm_compute. split; reflexivity. Qed.

(** With room already present the run completes, and only [G[0][0][0]]
    and [G[1][1][0]] ever receive a value. *)
Example migration_costs_sized_table_run :
  let r := Parser.parse_migration_costs_line
             Parser.extract_digit 2 2 1 Parser.sample_line
             [[[0]; [0]]; [[0]; [0]]] in
  Parser.stores (fst r)
  = [(0, 0, 0)%nat; (1, 1, 0)%nat; (0, 0, 0)%nat; (1, 1, 0)%nat].
Proof. vm_compute. reflexivity. Qed.

(** ** Placement solver *)

Ltac qc_lra :=
  unfold Qcle, Qclt, Qcminus, Qcopp, Qcplus, Qcmult in *; simpl in *;
  rewrite ?Qred_correct in *; lra.



Section SolverFacts.

Import Solver.

Lemma eval_fold_left (sigma : var -> Qc) (step : expr -> nat -> expr)
    (F : nat -> Qc) :
  (forall e h, eval sigma (step e h) = eval sigma e + F h) ->
  forall l e, eval sigma (fold_left step l e) = eval sigma e + qsum (map F l).
Proof.
  intros Hstep l. induction l as [| h l IH]; intros e; simpl.
  - ring.
  - rewrite IH, Hstep. ring.
Qed.

Lemma eval_accumulate (sigma : var -> Qc) (n : nat) (term : nat -> expr)
    (init : expr) :
  eval sigma (accumulate n term init)
  = eval sigma init + sum_upto n (fun i => eval sigma (term i)).
Proof.
  unfold accumulate, sum_upto. apply eval_fold_left. intros; reflexivity.
Qed.

Lemma eval_objective_min_cost (inp : allocation_input) (sigma : var -> Qc) :
  eval sigma (objective_min_cost inp) = spec_min_cost inp sigma.
Proof.
  unfold objective_min_cost, spec_min_cost, sum_upto, npms.
  match goal with
  | |- _ = qsum (map ?F _) => rewrite (eval_fold_left sigma _ F)
  end.
  - simpl. ring.
  - intros e h. unfold objective_min_cost_step.
    rewrite eval_accumulate. simpl. unfold sum_upto, nvms. ring.
Qed.


Lemma nth_map_seq {A} (F : nat -> A) (n i : nat) (d : A) :
  (i < n)%nat -> nth i (map F (seq 0 n)) d = F i.
Proof.
  intros Hi. rewrite (nth_indep _ d (F 0%nat)).
  - rewrite map_nth, seq_nth by lia. reflexivity.
  - rewrite length_map, length_seq. exact Hi.
Qed.












End SolverFacts.

Section SolverTheorems.

Import Solver.

Variable definitely_greater : real -> real -> bool.
Variable be : backend.
Variable solve : milp -> option solver_result.

Local Abbreviation build := (build_model definitely_greater).
Local Abbreviation find := (find_optimal_allocation definitely_greater be solve).

Lemma feasible_binary_y (inp : allocation_input) (sigma : var -> Qc) (v h : nat) :
  feasible (build inp) sigma -> (v < in_nvms inp)%nat -> (h < in_npms inp)%nat ->
  sigma (Y v h) = 0 \/ sigma (Y v h) = 1.
Proof.
  intros [Hk _] Hv Hh. simpl in Hk. unfold variables in Hk.
  apply Forall_app in Hk. destruct Hk as [Hy _].
  rewrite List.Forall_forall in Hy.
  apply (Hy (Y v h, Binary)). apply in_flat_map. exists v. split.
  - apply in_seq. unfold nvms. lia.
  - apply in_map_iff. exists h. split; [reflexivity |].
    apply in_seq. unfold npms. lia.
Qed.

Lemma feasible_binary_x (inp : allocation_input) (sigma : var -> Qc) (h : nat) :
  feasible (build inp) sigma -> (h < in_npms inp)%nat ->
  sigma (X h) = 0 \/ sigma (X h) = 1.
Proof.
  intros [Hk _] Hh. simpl in Hk. unfold variables in Hk.
  apply Forall_app in Hk. destruct Hk as [_ Hk].
  apply Forall_app in Hk. destruct Hk as [Hx _].
  rewrite List.Forall_forall in Hx.
  apply (Hx (X h, Binary)). apply in_map_iff. exists h. split; [reflexivity |].
  apply in_seq. unfold npms. lia.
Qed.








(** A returned allocation with [solved = true] went through the code that
    reads the variables back. *)
Lemma find_solved_inv (inp : allocation_input) (r : solver_result)
    (oa : optimal_allocation_info) :
  solve (build inp) = Some r ->
  (sr_solve r = true -> has_solution r) ->
  find inp = Some oa ->
  solved oa = true ->
  has_solution r /\
  exists sol, oa = read_solution be inp r sol
              /\ objective_value sol = Fin (sr_objval r).
Proof.
  intros Hr Hc Hfind Hsolved. unfold find_optimal_allocation in Hfind.
  rewrite Hr in Hfind.
  destruct (sr_status r) eqn:Hst; inversion Hfind; subst oa; clear Hfind;
    try (split; [unfold has_solution; tauto | eexists; split; reflexivity]);
    simpl in Hsolved; destruct be; try discriminate;
    destruct (Hc Hsolved) as [E | E]; congruence.
Qed.



Lemma read_solution_cost_min_cost (inp : allocation_input) (r : solver_result)
    (sol : optimal_allocation_info) :
  in_min_power inp = false ->
  cost (read_solution be inp r sol) = objective_value sol.
Proof.
  intros Hmp. unfold read_solution. simpl. rewrite Hmp. simpl.
  induction (seq 0 (npms inp)) as [| h l IH]; simpl; [reflexivity | exact IH].
Qed.

(** C2. In min-cost mode the model handed to the back-end is a
    minimisation over binary [x], [y] and continuous [s] whose objective,
    at every point, is the sum over the PMs of the electricity term (with
    the factor 1e-3), the switch-on term, the switch-off term and the
    migration terms of the VMs; and when the back-end reports a solution,
    the [cost] of the returned allocation is that sum at the reported
    values. *)
Theorem min_cost_objective_and_reported_cost
    (inp : allocation_input) (r : solver_result) :
  in_min_power inp = false ->
  solve (build inp) = Some r ->
  solver_contract (build inp) r ->
  has_solution r ->
  m_sense (build inp) = Minimize /\
  (forall v h, (v < in_nvms inp)%nat -> (h < in_npms inp)%nat ->
     In (X h, Binary) (m_vars (build inp)) /\
     In (Y v h, Binary) (m_vars (build inp)) /\
     In (S h, Continuous01) (m_vars (build inp))) /\
  (forall sigma,
     eval sigma (m_objective (build inp)) = spec_min_cost inp sigma) /\
  exists oa, find inp = Some oa /\
             cost oa = Fin (spec_min_cost inp (sr_value r)).
Proof.
  intros Hmp Hr [_ Hc] Hsol.
  assert (Hobj : forall sigma,
             eval sigma (m_objective (build inp)) = spec_min_cost inp sigma).
  { intros sigma. simpl. unfold objective. rewrite Hmp.
    apply eval_objective_min_cost. }
  split; [reflexivity |]. split; [| split; [exact Hobj |]].
  - intros v h Hv Hh. simpl. unfold variables. rewrite !in_app_iff.
    assert (Hin : In h (seq 0 (npms inp))) by (apply in_seq; unfold npms; lia).
    split; [| split].
    + right. left. apply in_map_iff. exists h. split; [reflexivity | exact Hin].
    + left. apply in_flat_map. exists v. split.
      * apply in_seq. unfold nvms. lia.
      * apply in_map_iff. exists h. split; [reflexivity | exact Hin].
    + right. right. apply in_map_iff. exists h. split; [reflexivity | exact Hin].
  - destruct (Hc Hsol) as [_ Hval].
    unfold find_optimal_allocation. rewrite Hr.
    destruct Hsol as [Hst | Hst]; rewrite Hst; eexists; (split; [reflexivity |]);
      rewrite read_solution_cost_min_cost by exact Hmp; simpl;
      rewrite Hval, Hobj; reflexivity.
Qed.




End SolverTheorems.

(** ** Coalition evaluator *)

Section EvaluatorFacts.

Import Solver Evaluator.

Lemma fold_left_plus_qsum {A} (f : A -> Qc) (l : list A) (acc : Qc) :
  fold_left (fun a x => a + f x) l acc = acc + qsum (map f l).
Proof.
  revert acc. induction l as [| x l IH]; intros acc; simpl.
  - ring.
  - rewrite IH. ring.
Qed.

(** The accumulated profit is the double sum of the specification. *)
Lemma coal_profit_spec (s : scenario) (coal_cips : list nat) :
  coal_profit s coal_cips = spec_profit s coal_cips.
Proof.
  unfold coal_profit, spec_profit.
  assert (H : forall l acc,
             fold_left
               (fun acc cip =>
                  fold_left
                    (fun a v => a + at2 0 (cip_revenues s) cip v
                                    * count_q (at2 0%nat (cip_num_vms s) cip v))
                    (seq 0 (num_vm_types s)) acc)
               l acc
             = acc + qsum (map (fun p =>
                                  sum_upto (num_vm_types s) (fun v =>
                                    at2 0 (cip_revenues s) p v
                                    * count_q (at2 0%nat (cip_num_vms s) p v)))
                               l)).
  { induction l as [| cip l IH]; intros acc; simpl.
    - ring.
    - rewrite IH, fold_left_plus_qsum. unfold sum_upto. ring. }
  rewrite H. ring.
Qed.

Lemma update_info_eq (c : N) (f : coalition_info -> coalition_info)
    (m : gmap N coalition_info) :
  update_info c f m !! c = Some (f (default new_coalition_info (m !! c))).
Proof. unfold update_info. apply lookup_insert_eq. Qed.

Lemma update_info_ne (c c' : N) (f : coalition_info -> coalition_info)
    (m : gmap N coalition_info) :
  c <> c' -> update_info c f m !! c' = m !! c'.
Proof. intros Hne. unfold update_info. apply lookup_insert_ne. exact Hne. Qed.

Lemma make_id_app (l1 l2 : list nat) :
  make_id (l1 ++ l2) = (make_id l1 + make_id l2)%N.
Proof.
  induction l1 as [| p l1 IH]; simpl; [reflexivity |]. rewrite IH. lia.
Qed.

Lemma members_of_succ (n : nat) (k : N) :
  members_of (Datatypes.S n) k
  = members_of n k ++ (if N.testbit k (N.of_nat n) then [n] else []).
Proof.
  unfold members_of. rewrite seq_S, filter_app. simpl. f_equal.
  rewrite filter_cons, filter_nil.
  destruct (N.testbit k (N.of_nat n)); reflexivity.
Qed.

(** The identifier of the members read off a bit mask is the mask. *)
Lemma make_id_members_of (n : nat) (k : N) :
  make_id (members_of n k) = (k mod 2 ^ N.of_nat n)%N.
Proof.
  induction n as [| n IH].
  - simpl. rewrite N.mod_1_r. reflexivity.
  - rewrite members_of_succ, make_id_app, IH.
    rewrite Nat2N.inj_succ, N.pow_succ_r', (N.mul_comm 2).
    rewrite N.Div0.mod_mul_r, <- N.testbit_spec'.
    destruct (N.testbit k (N.of_nat n)); simpl; lia.
Qed.

(** The enumerated coalitions have pairwise distinct identifiers,
    [1 .. 2^n - 1]. *)
Lemma lexicographic_subsets_ids (n : nat) :
  map make_id (lexicographic_subsets n) = map N.of_nat (seq 1 (2 ^ n - 1)).
Proof.
  unfold lexicographic_subsets. rewrite map_map. apply map_ext_in.
  intros k Hk. apply in_seq in Hk. rewrite make_id_members_of.
  apply N.mod_small.
  assert (H : (k < 2 ^ n)%nat) by lia.
  replace (2 ^ N.of_nat n)%N with (N.of_nat (2 ^ n)).
  - lia.
  - rewrite Nat2N.inj_pow. reflexivity.
Qed.

Lemma lexicographic_subsets_distinct (n : nat) :
  NoDup (map make_id (lexicographic_subsets n)).
Proof.
  rewrite lexicographic_subsets_ids.
  apply NoDup_ListNoDup. apply Finite.Injective_map_NoDup.
  - intros a b H. lia.
  - apply seq_NoDup.
Qed.

End EvaluatorFacts.

Section EvaluatorTheorems.

Import Solver Evaluator.

Variable definitely_greater : real -> real -> bool.
Variable be : backend.
Variable solve : milp -> option solver_result.
Variable core_is_empty : gmap N real -> list nat -> bool.
Variable value_division :
  coalition_value_division_category -> gmap N real -> list nat -> gmap nat real.
Variable belongs_to_core : gmap N real -> list nat -> gmap nat real -> bool.
Variable s : scenario.
Variable opts : options.

Local Abbreviation alloc :=
  (allocation_of definitely_greater be solve s opts).
Local Abbreviation step :=
  (evaluate_coalition definitely_greater be solve core_is_empty
     value_division belongs_to_core s opts).
Local Abbreviation run :=
  (evaluate_all definitely_greater be solve core_is_empty
     value_division belongs_to_core s opts).

Ltac info_simpl :=
  repeat (rewrite update_info_eq; simpl).

(** What one pass writes for a coalition with a solution. *)
Lemma step_solved (st st' : eval_state) (S : list nat)
    (oa : optimal_allocation_info) :
  alloc S = Some oa -> solved oa = true -> step st S = Some st' ->
  game st' !! make_id S = Some (rsub (Fin (coal_profit s S)) (cost oa)) /\
  value <$> (visited st' !! make_id S)
  = Some (rsub (Fin (coal_profit s S)) (cost oa)).
Proof.
  intros Ha Hs Hstep. unfold evaluate_coalition in Hstep.
  rewrite Ha, Hs in Hstep. inversion Hstep; subst st'; clear Hstep. simpl.
  split; [apply lookup_insert_eq |].
  destruct (core_is_empty _ S); info_simpl;
    try (destruct (belongs_to_core _ _ _));
    info_simpl; unfold game_value; rewrite lookup_insert_eq; reflexivity.
Qed.

(** What one pass writes for a coalition without a solution. *)
Lemma step_unsolved (st st' : eval_state) (S : list nat)
    (oa : optimal_allocation_info) :
  alloc S = Some oa -> solved oa = false -> step st S = Some st' ->
  game st' !! make_id S = Some sentinel /\
  exists ci, visited st' !! make_id S = Some ci /\
             core_empty ci = true /\ payoffs_in_core ci = false /\
             optimal_allocation ci = oa /\
             value ci = value (default new_coalition_info
                                 (visited st !! make_id S)) /\
             payoffs ci = payoffs (default new_coalition_info
                                     (visited st !! make_id S)).
Proof.
  intros Ha Hs Hstep. unfold evaluate_coalition in Hstep.
  rewrite Ha, Hs in Hstep. inversion Hstep; subst st'; clear Hstep. simpl.
  split; [apply lookup_insert_eq |].
  eexists. split; [apply update_info_eq |]. info_simpl. repeat split.
Qed.

(** A pass leaves the entries of every other identifier alone. *)
Lemma step_frame (st st' : eval_state) (S : list nat) (c : N) :
  step st S = Some st' -> c <> make_id S ->
  game st' !! c = game st !! c /\ visited st' !! c = visited st !! c.
Proof.
  intros Hstep Hne. unfold evaluate_coalition in Hstep.
  destruct (alloc S) as [oa |]; [| discriminate].
  assert (Hne' : make_id S <> c) by congruence.
  destruct (solved oa); inversion Hstep; subst st'; clear Hstep; simpl;
    (split; [apply lookup_insert_ne; exact Hne' |]);
    repeat match goal with
           | |- context [if ?b then _ else _] => destruct b
           end;
    rewrite ?update_info_ne by exact Hne'; reflexivity.
Qed.

Lemma step_total (st : eval_state) (S : list nat) :
  is_Some (alloc S) -> is_Some (step st S).
Proof.
  intros [oa Ha]. unfold evaluate_coalition. rewrite Ha.
  destruct (solved oa); eexists; reflexivity.
Qed.

Lemma step_visits (st st' : eval_state) (S : list nat) :
  step st S = Some st' -> is_Some (visited st' !! make_id S).
Proof.
  intros Hstep. unfold evaluate_coalition in Hstep.
  destruct (alloc S) as [oa |]; [| discriminate].
  destruct (solved oa); inversion Hstep; subst st'; clear Hstep; simpl;
    repeat match goal with
           | |- context [if ?b then _ else _] => destruct b
           end;
    rewrite update_info_eq; eexists; reflexivity.
Qed.

Lemma step_keeps_visited (st st' : eval_state) (S : list nat) (c : N) :
  step st S = Some st' -> is_Some (visited st !! c) ->
  is_Some (visited st' !! c).
Proof.
  intros Hstep Hc. destruct (decide (c = make_id S)) as [-> | Hne].
  - eapply step_visits. exact Hstep.
  - destruct (step_frame st st' S c Hstep Hne) as [_ E]. rewrite E. exact Hc.
Qed.

Lemma run_frame (l : list (list nat)) (st st' : eval_state) (c : N) :
  run st l = Some st' -> ~ In c (map make_id l) ->
  game st' !! c = game st !! c /\ visited st' !! c = visited st !! c.
Proof.
  revert st. induction l as [| S l IH]; intros st Hrun Hnin; simpl in *.
  - inversion Hrun. split; reflexivity.
  - destruct (step st S) as [st1 |] eqn:Hstep; [| discriminate].
    destruct (IH st1 Hrun) as [E1 E2]; [tauto |].
    destruct (step_frame st st1 S c Hstep) as [E3 E4]; [intros ->; tauto |].
    split; congruence.
Qed.

Lemma run_keeps_visited (l : list (list nat)) (st st' : eval_state) (c : N) :
  run st l = Some st' -> is_Some (visited st !! c) ->
  is_Some (visited st' !! c).
Proof.
  revert st. induction l as [| S l IH]; intros st Hrun Hc; simpl in *.
  - inversion Hrun; subst. exact Hc.
  - destruct (step st S) as [st1 |] eqn:Hstep; [| discriminate].
    apply (IH st1 Hrun). eapply step_keeps_visited; eassumption.
Qed.

Lemma run_total (l : list (list nat)) (st : eval_state) :
  Forall (fun S => is_Some (alloc S)) l -> is_Some (run st l).
Proof.
  revert st. induction l as [| S l IH]; intros st Hall; simpl.
  - eexists; reflexivity.
  - inversion Hall as [| ? ? HS Hl]; subst.
    destruct (step_total st S HS) as [st1 Hstep]. rewrite Hstep.
    apply IH. exact Hl.
Qed.

(** C1. After the loop over the enumerated coalitions, every coalition
    [S] whose allocation came back solved has the characteristic value
    [profit(S) - cost(S)], both in the game object and in its record of
    [visited_coalitions]; [profit(S)] is the sum over the members and the
    VM types of revenue rate times number of VMs, [cost(S)] the [cost]
    field of the returned allocation. *)
Theorem solved_coalition_value_is_profit_minus_cost
    (subsets : list (list nat)) (st st' : eval_state) (S : list nat)
    (oa : optimal_allocation_info) :
  run st subsets = Some st' ->
  NoDup (map make_id subsets) ->
  In S subsets ->
  alloc S = Some oa ->
  solved oa = true ->
  game st' !! make_id S = Some (rsub (Fin (spec_profit s S)) (cost oa)) /\
  value <$> (visited st' !! make_id S)
  = Some (rsub (Fin (spec_profit s S)) (cost oa)).
Proof.
  revert st. induction subsets as [| T l IH]; intros st Hrun Hnd Hin Ha Hs.
  - destruct Hin.
  - simpl in Hrun, Hnd. apply NoDup_cons in Hnd. destruct Hnd as [Hfresh Hnd].
    destruct (step st T) as [st1 |] eqn:Hstep; [| discriminate].
    destruct Hin as [-> | Hin].
    + destruct (step_solved st st1 S oa Ha Hs Hstep) as [E1 E2].
      destruct (run_frame l st1 st' (make_id S) Hrun) as [E3 E4].
      { intros Hin. apply Hfresh. apply list_elem_of_In. exact Hin. }
      rewrite E3, E4, E1, E2, coal_profit_spec. split; reflexivity.
    + apply (IH st1); assumption.
Qed.

(** C4 (amended). When the back-end raises no exception, the loop of
    [analyze_coalitions] over the coalitions runs to its end and every
    enumerated coalition has a record, whether its placement problem was
    solved or not; for a coalition whose allocation came back with
    [solved = false] the game object holds the value
    [-numeric_limits_min], which is below every non-negative value, and
    the record says that the core is empty and that the payoffs are not in
    the core.  This is a statement about the loop: what the program does
    with the records afterwards is not part of it. *)
Theorem unsolved_coalition_is_recorded_and_loop_goes_on
    (subsets : list (list nat)) :
  Forall (fun S => is_Some (alloc S)) subsets ->
  NoDup (map make_id subsets) ->
  exists st',
    run initial_state subsets = Some st' /\
    (forall S, In S subsets -> is_Some (visited st' !! make_id S)) /\
    (forall S oa, In S subsets -> alloc S = Some oa -> solved oa = false ->
       game st' !! make_id S = Some sentinel /\
       (forall x : Qc, 0 <= x -> rlt sentinel (Fin x) = true) /\
       exists ci, visited st' !! make_id S = Some ci /\
                  core_empty ci = true /\ payoffs_in_core ci = false).
Proof.
  intros Hall Hnd.
  destruct (run_total subsets initial_state Hall) as [st' Hrun].
  exists st'. split; [exact Hrun |].
  revert Hrun Hnd. generalize initial_state. clear Hall.
  induction subsets as [| T l IH]; intros st Hrun Hnd.
  - split; intros; contradiction.
  - simpl in Hrun, Hnd. apply NoDup_cons in Hnd. destruct Hnd as [Hfresh Hnd].
    destruct (step st T) as [st1 |] eqn:Hstep; [| discriminate].
    destruct (IH st1 Hrun Hnd) as [IH1 IH2].
    assert (Hfresh' : ~ In (make_id T) (map make_id l)).
    { intros Hin. apply Hfresh. apply list_elem_of_In. exact Hin. }
    split.
    + intros S [-> | Hin]; [| now apply IH1].
      eapply run_keeps_visited; [exact Hrun |].
      eapply step_visits. exact Hstep.
    + intros S oa [-> | Hin] Ha Hs; [| now apply (IH2 S oa)].
      destruct (step_unsolved st st1 S oa Ha Hs Hstep)
        as (E1 & ci & E2 & Hce & Hpc & _).
      destruct (run_frame l st1 st' (make_id S) Hrun Hfresh') as [E3 E4].
      rewrite E3, E4. split; [exact E1 |]. split.
      * intros x Hx. unfold sentinel. simpl. apply bool_decide_eq_true.
        assert (Hpos : 0 < numeric_limits_min) by reflexivity.
        qc_lra.
      * exists ci. auto.
Qed.

End EvaluatorTheorems.

(** ** CSV export *)

Section CsvFacts.

Import Evaluator Csv.

Lemma export_row_fold (ci : coalition_info) (l : list nat)
    (cells : list field) (v : real) :
  fold_left
    (fun acc p =>
       match payoffs ci !! p with
       | Some x => (fst acc ++ [Number x], radd (snd acc) x)
       | None => (fst acc ++ [Blank], snd acc)
       end)
    l (cells, v)
  = (cells ++ map (cell_of ci) l,
     fold_left radd (omap (fun p => payoffs ci !! p) l) v).
Proof.
  revert cells v. induction l as [| p l IH]; intros cells v; simpl.
  - rewrite app_nil_r. reflexivity.
  - unfold cell_of at 1. destruct (payoffs ci !! p) as [x |]; simpl;
      rewrite IH, <- app_assoc; reflexivity.
Qed.

Lemma export_row_shape (ncips : nat) (c : N) (ci : coalition_info) :
  export_row ncips c ci
  = Ident c :: map (cell_of ci) (seq 0 ncips)
    ++ [Number (rsum (omap (fun p => payoffs ci !! p) (seq 0 ncips)))].
Proof. unfold export_row. rewrite export_row_fold. reflexivity. Qed.

Lemma printed_cells (ci : coalition_info) (l : list nat) :
  omap (fun f => match f with Number x => Some x | _ => None end)
    (map (cell_of ci) l)
  = omap (fun p => payoffs ci !! p) l.
Proof.
  induction l as [| p l IH]; [reflexivity |].
  change (map (cell_of ci) (p :: l)) with (cell_of ci p :: map (cell_of ci) l).
  cbn [omap list_omap]. rewrite IH. unfold cell_of.
  destruct (payoffs ci !! p); reflexivity.
Qed.

Lemma printed_payoffs_row (ncips : nat) (c : N) (ci : coalition_info) :
  printed_payoffs (export_row ncips c ci)
  = omap (fun p => payoffs ci !! p) (seq 0 ncips).
Proof.
  rewrite export_row_shape. unfold printed_payoffs. simpl.
  rewrite removelast_last. apply printed_cells.
Qed.

Lemma last_export_row (ncips : nat) (c : N) (ci : coalition_info) :
  List.last (export_row ncips c ci) Blank
  = Number (rsum (printed_payoffs (export_row ncips c ci))).
Proof.
  rewrite printed_payoffs_row, export_row_shape.
  change (Ident c :: ?l ++ [?x]) with ((Ident c :: l) ++ [x]).
  apply last_last.
Qed.

Lemma elem_of_sorted_cids (m : gmap N coalition_info) (c : N) :
  c ∈ sorted_cids m <-> is_Some (m !! c).
Proof.
  unfold sorted_cids. rewrite merge_sort_Permutation.
  rewrite list_elem_of_In, in_map_iff. split.
  - intros ([c' ci] & <- & Hin). apply list_elem_of_In in Hin.
    apply elem_of_map_to_list in Hin. simpl. eauto.
  - intros [ci Hci]. exists (c, ci). split; [reflexivity |].
    apply list_elem_of_In. apply elem_of_map_to_list. exact Hci.
Qed.

(** C10. The lines written for the coalitions are one line per recorded
    coalition, and on each of them the last field [Value(Coalition)] is
    the sum of the payoffs printed on that line, players without a payoff
    entry adding nothing.  It is not taken from the stored value: when
    the printed payoffs do not sum to the stored value the column differs
    from it, and a coalition with an empty payoff map gets 0. *)
Theorem csv_value_column_is_sum_of_printed_payoffs
    (ncips : nat) (coalitions : gmap N coalition_info) (line : list field) :
  In line (exported_rows ncips coalitions) ->
  exists c ci,
    coalitions !! c = Some ci /\
    line = export_row ncips c ci /\
    List.last line Blank = Number (rsum (printed_payoffs line)) /\
    printed_payoffs line = omap (fun p => payoffs ci !! p) (seq 0 ncips) /\
    (rsum (printed_payoffs line) <> value ci ->
     List.last line Blank <> Number (value ci)) /\
    (payoffs ci = ∅ -> List.last line Blank = Number (Fin 0)).
Proof.
  intros Hin. unfold exported_rows in Hin.
  apply list_elem_of_In in Hin. apply list_elem_of_omap in Hin.
  destruct Hin as (c & _ & Hrow).
  destruct (coalitions !! c) as [ci |] eqn:Hci; [| discriminate].
  simpl in Hrow. inversion Hrow; subst line; clear Hrow.
  exists c, ci. split; [exact Hci |]. split; [reflexivity |].
  split; [apply last_export_row |].
  split; [apply printed_payoffs_row |]. split.
  - intros Hne Heq. rewrite last_export_row in Heq. congruence.
  - intros Hempty. rewrite last_export_row, printed_payoffs_row, Hempty.
    f_equal.
    induction (seq 0 ncips) as [| p l IH]; simpl; [reflexivity |].
    rewrite lookup_empty. exact IH.
Qed.

(** Every recorded coalition has its line, after the header or the
    separator. *)
Lemma csv_every_coalition_has_a_line
    (ncips : nat) (coalitions : gmap N coalition_info)
    (c : N) (ci : coalition_info) :
  coalitions !! c = Some ci ->
  In (export_row ncips c ci) (exported_rows ncips coalitions).
Proof.
  intros Hci. unfold exported_rows.
  apply list_elem_of_In. apply list_elem_of_omap. exists c. split.
  - apply elem_of_sorted_cids. eauto.
  - rewrite Hci. reflexivity.
Qed.

End CsvFacts.

(** ** Command line *)

Section CliFacts.

Import Evaluator Cli.

Variable get_option_required : list string -> string -> exception + string.
Variable read_real : string -> real.
Variable read_count : string -> N.
Variable make_scenario : string -> exception + scenario.
Variable run_experiment : scenario -> options -> exception + unit.

Local Abbreviation main' :=
  (main get_option_required read_real read_count make_scenario run_experiment).

(** C9 (amended). Without arguments [main] prints the usage message and
    returns -1.  Otherwise, and unless [--help] is given: an unknown
    [--formation] or [--payoff] tag makes [main] throw
    [std::invalid_argument], nothing is printed and no code is returned;
    with known tags, a [--scenario] that reads as the empty string makes
    [main] print the error line and the usage message and return -1, and
    an exception of [make_scenario] leaves [main] with its message, [main]
    printing nothing and returning no code. *)
Theorem main_error_endings (argv : list string) :
  ((length argv < 2)%nat ->
   main' argv = mk_run (Returns (-1)) [UsageMessage (hd "" argv)]) /\
  ((2 <= length argv)%nat -> get_flag argv "--help" = false ->
   (formation_of_tag (get_option_default argv "--formation" "nash") = None ->
    main' argv
    = mk_run (Uncaught (invalid_argument
                          "Unknown coalition formation category")) []) /\
   (is_Some (formation_of_tag (get_option_default argv "--formation" "nash")) ->
    division_of_tag (get_option_default argv "--payoff" "shapley") = None ->
    main' argv
    = mk_run (Uncaught (invalid_argument
                          "Unknown coalition value division category")) []) /\
   (is_Some (formation_of_tag (get_option_default argv "--formation" "nash")) ->
    is_Some (division_of_tag (get_option_default argv "--payoff" "shapley")) ->
    (get_option_required argv "--scenario" = inr "" ->
     main' argv
     = mk_run (Returns (-1))
         [ErrorLine "(E) Scenario file not specified";
          UsageMessage (hd "" argv)]) /\
    (forall file e,
       get_option_required argv "--scenario" = inr file -> file <> "" ->
       make_scenario file = inl e ->
       main' argv = mk_run (Uncaught e) []))).
Proof.
  split.
  - intros Hlen. unfold main. apply Nat.ltb_lt in Hlen. rewrite Hlen.
    reflexivity.
  - intros Hlen Hhelp. unfold main.
    assert (E : (length argv <? 2)%nat = false) by (apply Nat.ltb_ge; lia).
    rewrite E, Hhelp. clear E. split; [| split].
    + intros ->. reflexivity.
    + intros [f ->] ->. reflexivity.
    + intros [f ->] [d ->]. split.
      * intros ->. reflexivity.
      * intros file e -> Hne He.
        apply String.eqb_neq in Hne. rewrite Hne, He. reflexivity.
Qed.

End CliFacts.

(** C9, as stated, fails: with an unknown [--formation] tag the run ends
    with an exception leaving [main]; no usage message is printed and no
    code is returned. *)
Lemma unknown_formation_tag_is_thrown :
  Cli.how (Sample.sample_main
             ["sim"; "--formation"; "bogus"; "--scenario"; "s.txt"]%string)
  = Cli.Uncaught (Cli.invalid_argument "Unknown coalition formation category")
  /\ ~ Cli.usage_and_minus_one
         (Sample.sample_main
            ["sim"; "--formation"; "bogus"; "--scenario"; "s.txt"]%string).
Proof.
  split; [reflexivity |]. intros [Hcode _]. discriminate Hcode.
Qed.

Lemma main_error_endings_witness :
  Sample.sample_main ["sim"]%string
  = Cli.mk_run (Cli.Returns (-1)) [Cli.UsageMessage "sim"]
  /\ Sample.sample_main ["sim"; "--payoff"; "nash"]%string
     = Cli.mk_run
         (Cli.Uncaught
            (Cli.invalid_argument "Unknown coalition value division category"))
         []
  /\ Sample.sample_main ["sim"; "--formation"; "pareto"]%string
     = Cli.mk_run (Cli.Returns (-1))
         [Cli.ErrorLine "(E) Scenario file not specified";
          Cli.UsageMessage "sim"]
  /\ Sample.sample_main ["sim"; "--scenario"; "s.txt"]%string
     = Cli.mk_run (Cli.Uncaught (Cli.runtime_error "Cannot open scenario file"))
         [].
Proof.
  split; [| split; [| split]].
  - apply (main_error_endings Cli.get_option_or_empty (fun _ => Fin 0)
             (fun _ => 0%N) Sample.no_such_file Sample.experiment_ok
             ["sim"]%string).
    simpl. lia.
  - apply (main_error_endings Cli.get_option_or_empty (fun _ => Fin 0)
             (fun _ => 0%N) Sample.no_such_file Sample.experiment_ok
             ["sim"; "--payoff"; "nash"]%string);
      [simpl; lia | reflexivity | vm_compute; eauto | reflexivity].
  - apply (main_error_endings Cli.get_option_or_empty (fun _ => Fin 0)
             (fun _ => 0%N) Sample.no_such_file Sample.experiment_ok
             ["sim"; "--formation"; "pareto"]%string);
      [simpl; lia | reflexivity | vm_compute; eauto | vm_compute; eauto
      | reflexivity].
  - apply (main_error_endings Cli.get_option_or_empty (fun _ => Fin 0)
             (fun _ => 0%N) Sample.no_such_file Sample.experiment_ok
             ["sim"; "--scenario"; "s.txt"]%string)
      with (file := "s.txt"%string);
      [simpl; lia | reflexivity | vm_compute; eauto | vm_compute; eauto
      | reflexivity | discriminate | reflexivity].
Defined.

(** ** Pareto-optimal selector *)

Section ParetoFacts.

Import Evaluator Selectors.

Variable visited_coalitions : gmap N coalition_info.

Lemma dominated_prefix_le (best pays : list real) :
  (dominated_prefix best pays <= length pays)%nat.
Proof.
  revert pays. induction best as [| b bs IH]; intros [| x xs]; simpl; try lia.
  destruct (gives_way b x); simpl; [specialize (IH xs) |]; lia.
Qed.

Lemma dominated_prefix_full (best pays : list real) :
  length best = length pays ->
  (dominated_prefix best pays = length pays
   <-> Forall2 (fun b x => gives_way b x = true) best pays).
Proof.
  revert pays. induction best as [| b bs IH]; intros [| x xs] Hlen;
    simpl in *; try discriminate.
  - split; [constructor | reflexivity].
  - injection Hlen as Hlen. destruct (gives_way b x) eqn:Hg.
    + rewrite Nat.succ_inj_wd, (IH xs Hlen). split.
      * intros H. constructor; assumption.
      * intros H. inversion H; assumption.
    + split; [discriminate |]. intros H. inversion H; congruence.
Qed.

(** The scan of one candidate, started at index [length done] with the
    entries [done] already behind it. *)
Lemma pareto_scan_spec (cand : partition_info) (pids : list nat)
    (done rest : list real) :
  length rest = length pids ->
  Forall (fun pid => is_Some (pi_payoffs cand !! pid)) pids ->
  let pays := payoffs_of cand pids in
  let k := dominated_prefix rest pays in
  pareto_scan cand (done ++ rest) (length done) pids
  = Some (done ++ take k pays ++ drop k rest, bool_decide (k = length pids)).
Proof.
  revert done rest. induction pids as [| pid ps IH]; intros done rest Hlen Hall.
  - destruct rest; [| discriminate]. simpl. rewrite app_nil_r. reflexivity.
  - destruct rest as [| b rs]; [discriminate |]. injection Hlen as Hlen.
    inversion Hall as [| ? ? [x Hx] Hall']; subst.
    simpl. rewrite Hx. simpl.
    rewrite nth_middle.
    destruct (gives_way b x) eqn:Hg.
    + replace (<[length done := x]> (done ++ b :: rs))
        with ((done ++ [x]) ++ rs).
      2:{ rewrite insert_app_r_alt by lia. rewrite Nat.sub_diag. simpl.
          rewrite <- app_assoc. reflexivity. }
      replace (Datatypes.S (length done)) with (length (done ++ [x]))
        by (rewrite length_app; simpl; lia).
      rewrite (IH (done ++ [x]) rs Hlen Hall'). simpl.
      rewrite <- app_assoc. simpl. f_equal. f_equal.
      apply bool_decide_ext. lia.
    + simpl. try rewrite bool_decide_eq_false_2 by lia. reflexivity.
Qed.

(** C8 (amended). One pass of the Pareto selector on a candidate whose
    players all have a payoff.  With [k] the number of leading players
    at which the running entry is NaN or strictly below the candidate's
    payoff: the candidate is accepted exactly when [k] is the number of
    players, that is when it strictly dominates the running vector in
    every component (the vector as it stood before the pass, a NaN entry
    counting as dominated); and the running vector afterwards holds the
    candidate's payoffs in its first [k] entries and is unchanged from
    entry [k] on. *)
Theorem pareto_step_accepts_dominating_and_updates_prefix
    (players : list nat) (best : list real) (accepted : list partition_info)
    (subs : list (list nat)) :
  let cand := candidate visited_coalitions subs in
  let pays := payoffs_of cand players in
  let k := dominated_prefix best pays in
  length best = length players ->
  Forall (fun pid => is_Some (pi_payoffs cand !! pid)) players ->
  pareto_step visited_coalitions players (best, accepted) subs
  = Some (take k pays ++ drop k best,
          if bool_decide (k = length players)
          then accepted ++ [cand] else accepted)
  /\ (k = length players
      <-> Forall2 (fun b x => gives_way b x = true) best pays).
Proof.
  intros cand pays k Hlen Hall. split.
  - unfold pareto_step. simpl. fold cand.
    pose proof (pareto_scan_spec cand players [] best Hlen Hall) as Hscan.
    simpl in Hscan. rewrite Hscan. fold pays. fold k.
    destruct (bool_decide (k = length players)); reflexivity.
  - unfold k. replace (length players) with (length pays)
      by (unfold pays, payoffs_of; apply length_map).
    apply dominated_prefix_full. unfold pays, payoffs_of.
    rewrite length_map. exact Hlen.
Qed.

End ParetoFacts.

(** ** Nash-stable selector *)

Section NashFacts.

Import Evaluator Selectors.

Variable definitely_greater : real -> real -> bool.
Variable visited_coalitions : gmap N coalition_info.

Local Abbreviation prefers' := (prefers definitely_greater visited_coalitions).
Local Abbreviation keeps' := (keeps definitely_greater visited_coalitions).
Local Abbreviation scan_blocks' :=
  (scan_blocks definitely_greater visited_coalitions).
Local Abbreviation player_test' :=
  (player_test definitely_greater visited_coalitions).

Lemma set_count_zero (pid : nat) (l : list nat) :
  (set_count pid l =? 0)%nat = true <-> ~ In pid l.
Proof.
  unfold set_count. destruct (existsb (Nat.eqb pid) l) eqn:E; simpl.
  - split; [discriminate |]. intros Hn. exfalso. apply Hn.
    apply existsb_exists in E. destruct E as (y & Hy & Heq).
    apply Nat.eqb_eq in Heq. subst. exact Hy.
  - split; [| reflexivity]. intros _ Hin.
    assert (existsb (Nat.eqb pid) l = true); [| congruence].
    apply existsb_exists. exists pid. split; [exact Hin | apply Nat.eqb_refl].
Qed.

(** The preference test, when its records exist, is the negation of
    [keeps]. *)
Lemma prefers_keeps (cand : partition_info) (c : N) (pid : nat) (mine : real) :
  pi_payoffs cand !! pid = Some mine ->
  is_Some (visited_coalitions !! c) ->
  exists b, prefers' cand c pid = Some b /\ (b = false <-> keeps' mine c pid).
Proof.
  intros Hmine [ci Hci]. unfold prefers, keeps, payoff_at. rewrite Hci.
  destruct (payoffs ci !! pid) as [x |] eqn:Hx.
  - rewrite Hmine. eexists. split; [reflexivity |]. split.
    + intros Hb. exists x. split; [reflexivity | exact Hb].
    + intros (y & Hy & Hb). congruence.
  - exists true. split; [reflexivity |]. split; [discriminate |].
    intros (y & Hy & _). discriminate.
Qed.

Lemma alone_in_cons (sub : list nat) (subs : list (list nat)) (pid : nat) :
  alone_in (sub :: subs) pid <-> to_set sub = [pid] \/ alone_in subs pid.
Proof. unfold alone_in. simpl. split; intros [H | H]; auto. Qed.

Lemma singleton_of_length (pid : nat) (l : list nat) :
  In pid l -> length l = 1%nat -> l = [pid].
Proof.
  destruct l as [| a [| b l]]; simpl; try discriminate; try tauto.
  intros [-> | []] _. reflexivity.
Qed.

(** The loop over the blocks for one player. *)
Lemma scan_blocks_spec (cand : partition_info) (pid : nat) (mine : real)
    (subs : list (list nat)) (found : bool) :
  pi_payoffs cand !! pid = Some mine ->
  (forall sub, In sub subs -> ~ In pid (to_set sub) ->
     is_Some (visited_coalitions !! augmented_id pid sub)) ->
  exists stable found',
    scan_blocks' cand pid subs found = Some (stable, found') /\
    (stable = true <->
     forall sub, In sub subs -> ~ In pid (to_set sub) ->
       keeps' mine (augmented_id pid sub) pid) /\
    (stable = true ->
     (found' = true <-> found = true \/ alone_in subs pid)).
Proof.
  intros Hmine. revert found.
  induction subs as [| sub rest IH]; intros found Hvis; simpl.
  - exists true, found. split; [reflexivity |]. split.
    + split; [intros _ ? [] | reflexivity].
    + intros _. unfold alone_in. simpl. tauto.
  - assert (Hvis' : forall sub', In sub' rest -> ~ In pid (to_set sub') ->
               is_Some (visited_coalitions !! augmented_id pid sub'))
      by (intros; apply Hvis; [now right | assumption]).
    destruct (set_count pid (to_set sub) =? 0)%nat eqn:Hcount.
    + apply set_count_zero in Hcount.
      destruct (prefers_keeps cand (augmented_id pid sub) pid mine Hmine)
        as (b & Hb & Hkeeps); [apply Hvis; [now left | exact Hcount] |].
      rewrite Hb. destruct b.
      * exists false, found. split; [reflexivity |]. split.
        -- split; [discriminate |]. intros Hall.
           specialize (Hall sub (or_introl eq_refl) Hcount).
           apply Hkeeps in Hall. discriminate.
        -- discriminate.
      * destruct (IH found Hvis') as (stable & found' & Hscan & Hst & Hfd).
        exists stable, found'. split; [exact Hscan |]. split.
        -- rewrite Hst. split.
           ++ intros Hall sub' [<- | Hin] Hnin; [now apply Hkeeps | now apply Hall].
           ++ intros Hall sub' Hin Hnin. apply Hall; [now right | assumption].
        -- intros Hs. rewrite (Hfd Hs), alone_in_cons.
           assert (to_set sub <> [pid]).
           { intros E. apply Hcount. rewrite E. now left. }
           tauto.
    + assert (Hin : In pid (to_set sub)).
      { destruct (in_dec Nat.eq_dec pid (to_set sub)) as [Hi | Hn];
          [exact Hi |].
        apply set_count_zero in Hn. congruence. }
      assert (Hskip : forall Q : list nat -> Prop,
                 (forall sub', In sub' (sub :: rest) ->
                    ~ In pid (to_set sub') -> Q sub')
                 <-> (forall sub', In sub' rest ->
                        ~ In pid (to_set sub') -> Q sub')).
      { intros Q. split.
        - intros Hall sub' Hi Hn. apply Hall; [now right | assumption].
        - intros Hall sub' [<- | Hi] Hn; [contradiction | now apply Hall]. }
      destruct (length (to_set sub) =? 1)%nat eqn:Hlen.
      * apply Nat.eqb_eq in Hlen.
        destruct (IH true Hvis') as (stable & found' & Hscan & Hst & Hfd).
        exists stable, found'. split; [exact Hscan |]. split.
        -- rewrite Hst. symmetry.
           apply (Hskip (fun sub' => keeps' mine (augmented_id pid sub') pid)).
        -- intros Hs. rewrite (Hfd Hs), alone_in_cons.
           pose proof (singleton_of_length pid _ Hin Hlen). tauto.
      * apply Nat.eqb_neq in Hlen.
        destruct (IH found Hvis') as (stable & found' & Hscan & Hst & Hfd).
        exists stable, found'. split; [exact Hscan |]. split.
        -- rewrite Hst. symmetry.
           apply (Hskip (fun sub' => keeps' mine (augmented_id pid sub') pid)).
        -- intros Hs. rewrite (Hfd Hs), alone_in_cons.
           assert (to_set sub <> [pid]) by (intros E; rewrite E in Hlen; auto).
           tauto.
Qed.

Lemma scan_players_spec (subs : list (list nat)) (players : list nat) :
  nash_inputs_present visited_coalitions players subs ->
  exists b,
    scan_players definitely_greater visited_coalitions
      (candidate visited_coalitions subs) subs players = Some b /\
    (b = true <-> forall pid, In pid players -> player_test' subs pid).
Proof.
  set (cand := candidate visited_coalitions subs).
  induction players as [| pid rest IH]; intros Hpres; simpl.
  - exists true. split; [reflexivity |]. split; [intros _ ? [] | reflexivity].
  - destruct (Hpres pid (or_introl eq_refl)) as ([mine Hmine] & Hsingle & Hvis).
    fold cand in Hmine.
    assert (Hown : own_payoff visited_coalitions subs pid = mine).
    { unfold own_payoff. fold cand. rewrite Hmine. reflexivity. }
    destruct (scan_blocks_spec cand pid mine subs false Hmine Hvis)
      as (stable & found' & Hscan & Hst & Hfd).
    rewrite Hscan.
    assert (Hrest : nash_inputs_present visited_coalitions rest subs)
      by (intros p Hp; apply Hpres; now right).
    destruct (IH Hrest) as (b_rest & Hb_rest & Hiff). clear IH.
    assert (Hgoal : forall b : bool,
               (b = true <->
                ((forall sub, In sub subs -> ~ In pid (to_set sub) ->
                    keeps' mine (augmented_id pid sub) pid) /\
                 (~ alone_in subs pid -> make_id [pid] ∉ coalitions cand ->
                  keeps' mine (make_id [pid]) pid)) /\
                (forall p, In p rest -> player_test' subs p)) ->
               (b = true <->
                forall p, pid = p \/ In p rest -> player_test' subs p)).
    { intros b Hb. rewrite Hb. clear Hb. split.
      - intros [Hpid Hothers] p [<- | Hp]; [| now apply Hothers].
        unfold player_test. rewrite Hown. fold cand. exact Hpid.
      - intros H. split; [| intros; apply H; now right].
        specialize (H pid (or_introl eq_refl)).
        unfold player_test in H. rewrite Hown in H. fold cand in H. exact H. }
    unfold singleton_check. destruct found'.
    + (* the player is alone in its block *)
      destruct stable.
      * exists b_rest. split; [exact Hb_rest |]. apply Hgoal. rewrite Hiff.
        assert (Halone : alone_in subs pid).
        { destruct (Hfd eq_refl) as [H _].
          destruct (H eq_refl) as [? | ?]; [discriminate | assumption]. }
        destruct Hst as [Hst _]. specialize (Hst eq_refl). tauto.
      * exists false. split; [reflexivity |]. apply Hgoal.
        split; [discriminate |]. intros [[Hall _] _].
        destruct Hst as [_ Hst]. specialize (Hst Hall). discriminate.
    + destruct (bool_decide (make_id [pid] ∈ coalitions cand)) eqn:Hmem.
      * apply bool_decide_eq_true in Hmem. destruct stable.
        -- exists b_rest. split; [exact Hb_rest |]. apply Hgoal. rewrite Hiff.
           destruct Hst as [Hst _]. specialize (Hst eq_refl). tauto.
        -- exists false. split; [reflexivity |]. apply Hgoal.
           split; [discriminate |]. intros [[Hall _] _].
           destruct Hst as [_ Hst]. specialize (Hst Hall). discriminate.
      * apply bool_decide_eq_false in Hmem.
        destruct (prefers_keeps cand (make_id [pid]) pid mine Hmine Hsingle)
          as (bad & Hbad & Hkeeps).
        rewrite Hbad. destruct bad.
        -- exists false. split; [reflexivity |]. apply Hgoal.
           split; [discriminate |]. intros [[Hall Hsing] _].
           destruct Hst as [_ Hst]. specialize (Hst Hall). subst stable.
           assert (Hnot : ~ alone_in subs pid).
           { intros Ha. destruct (Hfd eq_refl) as [_ H].
             specialize (H (or_intror Ha)). discriminate. }
           apply Hkeeps in Hsing; [discriminate | exact Hnot | exact Hmem].
        -- destruct Hkeeps as [Hkeeps _]. specialize (Hkeeps eq_refl).
           destruct stable.
           ++ exists b_rest. split; [exact Hb_rest |]. apply Hgoal.
              rewrite Hiff.
              destruct Hst as [Hst _]. specialize (Hst eq_refl). tauto.
           ++ exists false. split; [reflexivity |]. apply Hgoal.
              split; [discriminate |]. intros [[Hall _] _].
              destruct Hst as [_ Hst]. specialize (Hst Hall). discriminate.
Qed.

(** C5 (amended). When the records the test reads exist, the Nash test
    of an enumerated partition answers, and it accepts the partition if
    and only if for every player, every other block enlarged by the
    player and, unless the player is a block of its own, the player's
    singleton hold a payoff for the player that is not definitely greater
    than the player's payoff in the partition.  A target without a payoff
    entry for the player makes the test reject. *)
Theorem nash_test_accepts_iff_every_target_has_no_greater_payoff
    (players : list nat) (subs : list (list nat)) :
  nash_inputs_present visited_coalitions players subs ->
  exists b,
    nash_stable definitely_greater visited_coalitions players subs = Some b /\
    (b = true
     <-> tested_nash_stable definitely_greater visited_coalitions players subs).
Proof.
  intros Hpres. unfold nash_stable.
  destruct (scan_players_spec subs players Hpres) as (b & Hb & Hiff).
  exists b. split; [exact Hb |]. rewrite Hiff. reflexivity.
Qed.

End NashFacts.

(** ** Closed instances *)

Ltac by_computation := apply (bool_decide_unpack _); vm_compute; exact I.

(** The sample back-end keeps its contract on the model of provider 1
    alone. *)
Lemma sample_backend_contract :
  Solver.solver_contract
    (Solver.build_model Sample.dg Sample.input_1)
    (Solver.mk_solver_result true Solver.Optimal 1 Sample.one_on_one).
Proof. by_computation. Qed.

Lemma min_cost_objective_and_reported_cost_witness :
  Solver.in_min_power Sample.input_1 = false /\
  exists oa,
    Solver.find_optimal_allocation Sample.dg Solver.CPLEX
      Sample.backend_answers Sample.input_1 = Some oa /\
    Solver.cost oa
    = Fin (Solver.spec_min_cost Sample.input_1 Sample.one_on_one).
Proof.
  split; [reflexivity |].
  apply (min_cost_objective_and_reported_cost Sample.dg Solver.CPLEX
           Sample.backend_answers Sample.input_1
           (Solver.mk_solver_result true Solver.Optimal 1 Sample.one_on_one)).
  - reflexivity.
  - reflexivity.
  - by_computation.
  - left. reflexivity.
Defined.



(** The evaluator run on the sample scenario runs to its end. *)
Lemma sample_evaluation_completes :
  Sample.evaluation = Some Sample.evaluated.
Proof. vm_compute. reflexivity. Qed.

Lemma solved_coalition_value_is_profit_minus_cost_witness :
  Solver.solved Sample.allocation_1 = true /\
  Evaluator.game Sample.evaluated !! Evaluator.make_id [1%nat]
  = Some (rsub (Fin (Evaluator.spec_profit Sample.scen [1%nat]))
            (Solver.cost Sample.allocation_1)) /\
  Evaluator.value <$>
    (Evaluator.visited Sample.evaluated !! Evaluator.make_id [1%nat])
  = Some (rsub (Fin (Evaluator.spec_profit Sample.scen [1%nat]))
            (Solver.cost Sample.allocation_1)).
Proof.
  split; [reflexivity |].
  apply (solved_coalition_value_is_profit_minus_cost
           Sample.dg Solver.CPLEX Sample.backend_answers Sample.no_core
           Sample.alone_division Sample.not_in_core Sample.scen
           Evaluator.new_options (Evaluator.lexicographic_subsets 2)
           Evaluator.initial_state Sample.evaluated [1%nat]
           Sample.allocation_1).
  - vm_compute. reflexivity.
  - by_computation.
  - vm_compute. tauto.
  - vm_compute. reflexivity.
  - reflexivity.
Defined.

Lemma unsolved_coalition_is_recorded_and_loop_goes_on_witness :
  exists st',
    Sample.evaluation = Some st' /\
    (forall S, In S (Evaluator.lexicographic_subsets 2) ->
       is_Some (Evaluator.visited st' !! Evaluator.make_id S)) /\
    (forall S oa, In S (Evaluator.lexicographic_subsets 2) ->
       Evaluator.allocation_of Sample.dg Solver.CPLEX Sample.backend_answers
         Sample.scen Evaluator.new_options S = Some oa ->
       Solver.solved oa = false ->
       Evaluator.game st' !! Evaluator.make_id S = Some Evaluator.sentinel /\
       (forall x : Qc, 0 <= x -> rlt Evaluator.sentinel (Fin x) = true) /\
       exists ci, Evaluator.visited st' !! Evaluator.make_id S = Some ci /\
                  Evaluator.core_empty ci = true /\
                  Evaluator.payoffs_in_core ci = false).
Proof.
  apply (unsolved_coalition_is_recorded_and_loop_goes_on
           Sample.dg Solver.CPLEX Sample.backend_answers Sample.no_core
           Sample.alone_division Sample.not_in_core Sample.scen
           Evaluator.new_options (Evaluator.lexicographic_subsets 2)).
  - repeat constructor; vm_compute; eauto.
  - by_computation.
Defined.

(** C4, as stated, fails on the sample scenario.  Provider 0 alone has
    no solution and provider 1 alone has the value -1: the record of
    provider 0 keeps the initial NaN in its [value] field, it is the game
    object that receives the sentinel, and the sentinel is not below the
    value of provider 1, so it is not worse than every finite value.  Nor
    does the run go on to its end: [run_experiment] on this scenario does
    not return and writes nothing, because [report] reads the payoffs of
    provider 0 alone, which has none. *)
Lemma unsolved_value_is_not_the_worst :
  Solver.solved Sample.allocation_0 = false /\
  Evaluator.value <$> (Evaluator.visited Sample.evaluated !! 1%N) = Some NaN /\
  Evaluator.value <$> (Evaluator.visited Sample.evaluated !! 1%N)
  <> Some Evaluator.sentinel /\
  Evaluator.game Sample.evaluated !! 1%N = Some Evaluator.sentinel /\
  Evaluator.game Sample.evaluated !! 2%N = Some (Fin (-1)) /\
  rlt Evaluator.sentinel (Fin (-1)) = false /\
  rlt (Fin (-1)) Evaluator.sentinel = true /\
  (exists formed,
     Formation.analyze_coalitions Sample.dg Sample.dl Cases.same Solver.CPLEX
       Sample.backend_answers Sample.no_core Sample.alone_division
       Sample.not_in_core Sample.scen Evaluator.new_options = Some formed /\
     Report.report 2 formed = None) /\
  Experiment.run_experiment Cases.all_vms Cases.always_on Cases.unit_time
    Cases.unit_migration_time Sample.dg Sample.dl Cases.same Solver.CPLEX
    Sample.backend_answers Sample.no_core Sample.alone_division
    Sample.not_in_core Sample.scen Evaluator.new_options []
  = ([], false).
Proof.
  split; [reflexivity |]. split; [vm_compute; reflexivity |].
  split; [vm_compute; discriminate |].
  split; [by_computation |]. split; [by_computation |].
  split; [vm_compute; reflexivity |].
  split; [vm_compute; reflexivity |].
  split; [| vm_compute; reflexivity].
  eexists. split; [vm_compute; reflexivity |]. vm_compute. reflexivity.
Qed.

(** C5, as stated, fails.  Provider 0 has no solution alone, provider 1
    earns 1 alone, together they get 2 each.  In the grand coalition no
    player would gain by leaving, yet the selector rejects it, because
    the record of provider 0 alone holds no payoff entry; the other
    partition is rejected too, so the selector returns nothing. *)
Lemma nash_rejects_without_a_better_target :
  Selectors.spec_nash_stable Sample.dg Sample.needs_partner
    [0%nat; 1%nat] [[0%nat; 1%nat]] /\
  Selectors.nash_stable Sample.dg Sample.needs_partner
    [0%nat; 1%nat] [[0%nat; 1%nat]] = Some false /\
  Selectors.nash_stable_partition_selector Sample.dg Sample.needs_partner
    [0%nat; 1%nat] = Some [].
Proof.
  split; [| split; vm_compute; reflexivity].
  intros pid [<- | [<- | []]]; split.
  - intros sub [<- | []] Hn _. apply Hn. vm_compute. tauto.
  - intros (x & Hx & Hg). vm_compute in Hx. discriminate.
  - intros sub [<- | []] Hn _. apply Hn. vm_compute. tauto.
  - intros (x & Hx & Hg). vm_compute in Hx. inversion Hx; subst x.
    vm_compute in Hg. discriminate.
Qed.

Lemma nash_test_accepts_iff_every_target_has_no_greater_payoff_witness :
  Selectors.nash_inputs_present Sample.better_apart
    [0%nat; 1%nat] [[0%nat]; [1%nat]] /\
  exists b,
    Selectors.nash_stable Sample.dg Sample.better_apart
      [0%nat; 1%nat] [[0%nat]; [1%nat]] = Some b /\
    (b = true
     <-> Selectors.tested_nash_stable Sample.dg Sample.better_apart
           [0%nat; 1%nat] [[0%nat]; [1%nat]]).
Proof.
  assert (H : Selectors.nash_inputs_present Sample.better_apart
                [0%nat; 1%nat] [[0%nat]; [1%nat]]).
  { intros pid [<- | [<- | []]]; (split; [vm_compute; eauto |]);
      (split; [vm_compute; eauto |]);
      intros sub [<- | [<- | []]] _; vm_compute; eauto. }
  split; [exact H |].
  apply (nash_test_accepts_iff_every_target_has_no_greater_payoff
           Sample.dg Sample.better_apart [0%nat; 1%nat] [[0%nat]; [1%nat]] H).
Defined.

(** C8, as stated, fails: after the two partitions of two players, the
    running vector of the Pareto selector is (1, 1) while the per-player
    maximum over the partitions seen is (1, 5). *)
Lemma pareto_running_vector_is_not_the_maximum :
  fst <$> Selectors.pareto_run Sample.uneven [0%nat; 1%nat]
            (replicate 2 NaN, [])
            (Selectors.lexicographic_partitions [0%nat; 1%nat])
  = Some [Fin 1; Fin 1] /\
  Selectors.per_player_max Sample.uneven [0%nat; 1%nat]
    (Selectors.lexicographic_partitions [0%nat; 1%nat])
  = [Fin 1; Fin (Sample.q_of 5)] /\
  [Fin 1; Fin 1] <> [Fin 1; Fin (Sample.q_of 5)].
Proof.
  split; [by_computation |]. split; [by_computation |].
  intros H. inversion H.
Qed.

Lemma pareto_step_accepts_dominating_and_updates_prefix_witness :
  let cand := Selectors.candidate Sample.uneven [[0%nat]; [1%nat]] in
  let pays := Selectors.payoffs_of cand [0%nat; 1%nat] in
  let k := Selectors.dominated_prefix [Fin 1; Fin 1] pays in
  Selectors.pareto_step Sample.uneven [0%nat; 1%nat] ([Fin 1; Fin 1], [])
    [[0%nat]; [1%nat]]
  = Some (take k pays ++ drop k [Fin 1; Fin 1],
          if bool_decide (k = 2%nat) then [] ++ [cand] else [])
  /\ (k = 2%nat
      <-> Forall2 (fun b x => Selectors.gives_way b x = true)
            [Fin 1; Fin 1] pays).
Proof.
  apply (pareto_step_accepts_dominating_and_updates_prefix
           Sample.uneven [0%nat; 1%nat] [Fin 1; Fin 1] [] [[0%nat]; [1%nat]]).
  - reflexivity.
  - repeat constructor; vm_compute; eauto.
Defined.

Lemma csv_value_column_is_sum_of_printed_payoffs_witness :
  exists c ci,
    Sample.uneven !! c = Some ci /\
    Csv.export_row 2 3%N (Sample.info_with (Fin (Sample.q_of 2))
                            [(0%nat, Fin 1); (1%nat, Fin 1)])
    = Csv.export_row 2 c ci /\
    List.last (Csv.export_row 2 c ci) Csv.Blank
    = Csv.Number (rsum (Csv.printed_payoffs (Csv.export_row 2 c ci))).
Proof.
  destruct (csv_value_column_is_sum_of_printed_payoffs 2 Sample.uneven
              (Csv.export_row 2 3%N
                 (Sample.info_with (Fin (Sample.q_of 2))
                    [(0%nat, Fin 1); (1%nat, Fin 1)])))
    as (c & ci & Hci & Hrow & Hlast & _).
  - apply csv_every_coalition_has_a_line. vm_compute. reflexivity.
  - exists c, ci. split; [exact Hci |]. split; [exact Hrow |].
    rewrite <- Hrow. exact Hlast.
Defined.

(** ** Merge/split-stable selector *)

Section MergeSplitFacts.

Import Evaluator Selectors.

Lemma rgs_from_first (n m : nat) :
  exists others, rgs_from n m = replicate n 0%nat :: others.
Proof.
  revert m. induction n as [| n IH]; intros m; simpl.
  - exists []. reflexivity.
  - replace (m + 1)%nat with (Datatypes.S m) by lia. simpl.
    destruct (IH (Nat.max m 1)) as [others ->]. simpl.
    eexists. reflexivity.
Qed.

Lemma list_max_replicate_0 (n : nat) : list_max (replicate n 0%nat) = 0%nat.
Proof. induction n as [| n IH]; simpl; [reflexivity | exact IH]. Qed.

Lemma block_of_all_zero {A} (elems : list A) :
  block_of elems (replicate (length elems) 0%nat) 0 = elems.
Proof.
  unfold block_of. induction elems as [| a l IH]; simpl; [reflexivity |].
  f_equal. exact IH.
Qed.

(** The first partition the enumerator hands out for a block is the block
    itself, in one piece. *)
Lemma first_partition_is_the_block (sub : list nat) :
  hd [] (lexicographic_partitions sub) = [sub].
Proof.
  unfold lexicographic_partitions, restricted_growth_strings.
  destruct (rgs_from_first (length sub) 0) as [others ->]. simpl.
  unfold blocks_of. rewrite list_max_replicate_0. simpl.
  rewrite block_of_all_zero. reflexivity.
Qed.

Variable definitely_less : real -> real -> bool.
Variable visited_coalitions : gmap N coalition_info.
Variable subranges_of : list N -> list (list N).

Hypothesis definitely_less_irrefl : forall x, definitely_less x x = false.

(** With the lexicographic enumerator the split test compares the value
    of each block with itself, and so never clears [Dhp_stable]. *)
Lemma split_pass_never_rejects (subs : list (list nat))
    (cand : partition_info) (P : list N) :
  fst (fst (split_pass definitely_less visited_coalitions
              lexicographic_partitions cand P subs)) = true.
Proof.
  revert cand P. induction subs as [| sub rest IH]; intros cand P; simpl.
  - reflexivity.
  - destruct (visited_coalitions !! make_id sub) as [ci |] eqn:Hci;
      [| apply IH].
    unfold inspected_partition. rewrite first_partition_is_the_block.
    unfold sum_values. cbn [map fold_left]. rewrite Hci, radd_0_l.
    rewrite definitely_less_irrefl. apply IH.
Qed.

End MergeSplitFacts.

Lemma definitely_less_tol_irrefl (tol : Qc) (x : real) :
  0 <= tol -> definitely_less_tol tol x x = false.
Proof.
  intros Htol. unfold definitely_less_tol, definitely_greater_tol.
  destruct x; try reflexivity.
  apply bool_decide_eq_false. intros H.
  assert (Hmax : 0 <= qmax (qabs q) (qabs q)).
  { unfold qmax, qabs.
    destruct (bool_decide (q < 0)) eqn:E.
    - apply bool_decide_eq_true in E.
      destruct (bool_decide (- q < - q)); qc_lra.
    - apply bool_decide_eq_false in E. apply Qcnot_lt_le in E.
      destruct (bool_decide (q < q)); exact E. }
  pose proof (Qcmult_nonneg_nonneg _ _ Hmax Htol) as Hprod.
  assert (Hz : q - q = 0) by ring. rewrite Hz in H.
  exact (Qcle_not_lt _ _ Hprod H).
Qed.

(** C6: the code at a failing input.  Two players are worth 1 each alone
    and 1 together.  The block {0,1} has the partition {{0},{1}} of total
    value 2, definitely more than its own value 1, so the block is not
    split-stable; the selector nevertheless keeps the partition {{0,1}},
    because the split test only looks at the first partition of the
    block, which is the block itself. *)
Theorem merge_split_keeps_block_that_gains_by_splitting :
  ~ Selectors.split_stable_block Sample.dl Sample.better_apart
      Selectors.lexicographic_partitions [0%nat; 1%nat] /\
  Selectors.inspected_partition Selectors.lexicographic_partitions
    [0%nat; 1%nat] = [[0%nat; 1%nat]] /\
  exists cand,
    Selectors.merge_split_stable Sample.dl Sample.better_apart
      Selectors.lexicographic_partitions Selectors.lexicographic_subranges
      2 [[0%nat; 1%nat]] = Some cand /\
    Selectors.coalitions cand = {[3%N]} /\
    In cand
      (Selectors.merge_split_stable_partition_selector Sample.dl
         Sample.better_apart Selectors.lexicographic_partitions
         Selectors.lexicographic_subranges [0%nat; 1%nat]).
Proof.
  split; [| split].
  - intros H. specialize (H [[0%nat]; [1%nat]]).
    assert (Hin : In [[0%nat]; [1%nat]]
                    (Selectors.lexicographic_partitions [0%nat; 1%nat]))
      by (vm_compute; tauto).
    specialize (H Hin). vm_compute in H. discriminate.
  - reflexivity.
  - eexists. split; [reflexivity |]. split; [by_computation |].
    left. reflexivity.
Qed.

(** * Further properties of the scenario parser *)

Section RecordsFacts.

Import Parser Records.

Variable extract_real : istream -> Qc -> istream * Qc.

Lemma fails_bind_l {A B} (m : M A) (k : A -> M B) st :
  fails m st -> fails (bind m k) st.
Proof.
  intros [e He]. exists e. unfold bind.
  destruct (m st) as [st' [e' | a]]; simpl in *; congruence.
Qed.

Lemma doomed_bind {A B} (m : M A) (k : A -> M B) :
  (forall st st' a, unsized st -> m st = (st', inr a) -> unsized st') ->
  (forall a st, unsized st -> fails (k a) st) ->
  forall st, unsized st -> fails (bind m k) st.
Proof.
  intros Hm Hk st Hst. unfold fails, bind.
  destruct (m st) as [st' [e | a]] eqn:E.
  - exists e. reflexivity.
  - apply Hk. eapply Hm; eauto.
Qed.

Lemma move_to_keeps_unsized d st st' a :
  unsized st -> move_to d st = (st', inr a) -> unsized st'.
Proof.
  unfold move_to, unsized. intros H E.
  destruct (good (ignore d (iss st))); inversion E; subst; exact H.
Qed.

Lemma resize_outer_keeps_unsized n st st' a :
  unsized st -> resize_outer n st = (st', inr a) -> unsized st'.
Proof.
  unfold resize_outer, unsized. intros H E. inversion E; subst; simpl.
  apply Forall_resize; [constructor | exact H].
Qed.

Lemma resize_row_keeps_unsized c n st st' a :
  unsized st -> resize_row c n st = (st', inr a) -> unsized st'.
Proof.
  unfold resize_row, unsized. intros H E.
  destruct (tbl st !! c) as [row |] eqn:Hrow; inversion E; subst; simpl.
  apply Forall_insert; [exact H |].
  apply Forall_resize; [reflexivity |].
  eapply Forall_lookup_1 in H; eauto.
Qed.

Lemma extract_into_unsized i j k st :
  unsized st -> fails (extract_into extract_real i j k) st.
Proof.
  unfold unsized, fails, extract_into. intros H.
  destruct (tbl st !! i) as [plane |] eqn:Hp; [| eexists; reflexivity].
  destruct (plane !! j) as [line |] eqn:Hl; [| eexists; reflexivity].
  assert (line = []) as ->.
  { eapply Forall_lookup_1 in H; eauto. simpl in H.
    eapply Forall_lookup_1 in H; eauto. }
  rewrite lookup_nil. eexists; reflexivity.
Qed.

Lemma for_upto_first_fails n (body : nat -> M unit) st :
  fails (body 0%nat) st -> fails (for_upto (S n) body) st.
Proof. intros H. unfold for_upto. simpl. now apply fails_bind_l. Qed.

(** X1.  The migration-cost record cannot be read into a scenario that has
    no migration table yet: with at least one provider and one PM type the
    branch ends in an error on every line, whatever the number reader
    does. *)
Theorem migration_costs_record_is_never_accepted
    (ncips nvmtypes npmtypes : nat) (line : list ascii) :
  (1 <= ncips)%nat -> (1 <= npmtypes)%nat ->
  exists e,
    snd (parse_migration_costs_line extract_real ncips nvmtypes npmtypes
           line []) = inl e.
Proof.
  intros Hn Ht.
  destruct ncips as [| n]; [lia |]. destruct npmtypes as [| t]; [lia |].
  unfold parse_migration_costs_line.
  change (fails (parse_migration_costs extract_real (S n) nvmtypes (S t))
            (mk_pstate (mk_istream line true) [] [])).
  assert (Hst : unsized (mk_pstate (mk_istream line true) [] []))
    by constructor.
  revert Hst. generalize (mk_pstate (mk_istream line true) [] []).
  unfold parse_migration_costs.
  apply doomed_bind; [apply move_to_keeps_unsized | intros _].
  apply doomed_bind; [apply move_to_keeps_unsized | intros _].
  apply doomed_bind; [apply resize_outer_keeps_unsized | intros _].
  intros st Hst. apply for_upto_first_fails. revert st Hst.
  apply doomed_bind; [apply move_to_keeps_unsized | intros _].
  apply doomed_bind; [apply resize_outer_keeps_unsized | intros _].
  intros st Hst. apply fails_bind_l. apply for_upto_first_fails.
  revert st Hst.
  apply doomed_bind; [apply move_to_keeps_unsized | intros _].
  apply doomed_bind; [apply resize_row_keeps_unsized | intros _].
  intros st Hst. apply fails_bind_l. apply for_upto_first_fails.
  now apply extract_into_unsized.
Qed.

End RecordsFacts.

Lemma migration_costs_record_is_never_accepted_witness :
  (1 <= 2)%nat /\ (1 <= 1)%nat /\
  exists e,
    snd (Parser.parse_migration_costs_line Parser.extract_digit 2 1 1
           Parser.sample_line []) = inl e.
Proof.
  split; [lia | split; [lia |]].
  apply migration_costs_record_is_never_accepted; lia.
Defined.

Section MatrixFacts.

Import Parser Records.

Context {A : Type}.
Variable extract : istream -> A -> istream * A.
Variable zero : A.

Local Abbreviation row_length st c := (length <$> (m_rows (A:=A) st !! c)).

Lemma mmove_to_run d (st : mstate A) :
  (exists st', mmove_to d st = (st', inr tt) /\ m_rows st' = m_rows st) \/
  (exists st', mmove_to d st = (st', inl (Malformed d)) /\
               m_rows st' = m_rows st).
Proof.
  unfold mmove_to. destruct (good (ignore d (m_iss st))).
  - left. eexists. split; reflexivity.
  - right. eexists. split; reflexivity.
Qed.

Lemma mextract_into_run c v (st : mstate A) n :
  row_length st c = Some n -> (v < n)%nat ->
  exists st', mextract_into extract c v st = (st', inr tt) /\
              length (m_rows st') = length (m_rows st) /\
              forall c', row_length st' c' = row_length st c'.
Proof.
  unfold mextract_into. intros Hc Hv.
  destruct (m_rows st !! c) as [row |] eqn:Hrow; [| discriminate].
  simpl in Hc. injection Hc as Hc.
  destruct (lookup_lt_is_Some_2 row v) as [old Hold]; [lia |].
  rewrite Hold. destruct (extract (m_iss st) old) as [s' new].
  eexists. split; [reflexivity |]. simpl. split.
  - apply length_insert.
  - intros c'. destruct (decide (c' = c)) as [-> |].
    + rewrite list_lookup_insert_eq by (eapply lookup_lt_Some; eauto).
      rewrite Hrow. simpl. now rewrite length_insert.
    + now rewrite list_lookup_insert_ne by congruence.
Qed.

Lemma extractions_run c n l (st : mstate A) :
  row_length st c = Some n -> Forall (fun v => v < n)%nat l ->
  exists st',
    mfor_each l (fun v => mextract_into extract c v) st = (st', inr tt) /\
    length (m_rows st') = length (m_rows st) /\
    forall c', row_length st' c' = row_length st c'.
Proof.
  intros Hc Hl. revert st Hc.
  induction Hl as [| v l Hv _ IH]; intros st Hc.
  - exists st. repeat split; reflexivity.
  - destruct (mextract_into_run c v st n Hc Hv) as (st1 & E1 & L1 & R1).
    destruct (IH st1) as (st2 & E2 & L2 & R2); [now rewrite R1 |].
    exists st2. simpl. unfold mbind. rewrite E1. split; [exact E2 |].
    split; [congruence |]. intros c'. now rewrite R2, R1.
Qed.

Lemma mresize_row_run c n (st : mstate A) :
  (c < length (m_rows st))%nat ->
  exists st', mresize_row zero c n st = (st', inr tt) /\
              length (m_rows st') = length (m_rows st) /\
              row_length st' c = Some n /\
              forall c', c' <> c -> row_length st' c' = row_length st c'.
Proof.
  intros Hc. unfold mresize_row.
  destruct (lookup_lt_is_Some_2 (m_rows st) c Hc) as [row Hrow].
  rewrite Hrow. eexists. split; [reflexivity |]. simpl.
  split; [apply length_insert |]. split.
  - rewrite list_lookup_insert_eq by exact Hc. simpl.
    now rewrite length_resize.
  - intros c' Hne. now rewrite list_lookup_insert_ne by congruence.
Qed.

(** One provider's row of a matrix branch. *)
Local Abbreviation row_body ncols :=
  (fun c : nat =>
     mbind (mmove_to "[") (fun _ =>
     mbind (mresize_row zero c ncols) (fun _ =>
     mbind (mfor_upto ncols (fun v => mextract_into extract c v)) (fun _ =>
     mmove_to (A:=A) "]")))).

Local Abbreviation bracket_missing r :=
  (r = inl (Malformed "[") \/ r = inl (Malformed "]")).

Lemma row_body_run ncols c (st : mstate A) :
  (c < length (m_rows st))%nat ->
  exists st' r, row_body ncols c st = (st', r) /\
    (r = inr tt \/ bracket_missing r) /\
    length (m_rows st') = length (m_rows st) /\
    (r = inr tt -> row_length st' c = Some ncols) /\
    (forall c', c' <> c -> row_length st' c' = row_length st c').
Proof.
  intros Hc. unfold mbind at 1.
  destruct (mmove_to_run "[" st) as [(st1 & E1 & T1) | (st1 & E1 & T1)];
    rewrite E1.
  2:{ exists st1, (inl (Malformed "[")). split; [reflexivity |].
      split; [tauto |]. rewrite T1. split; [reflexivity |].
      split; [discriminate | reflexivity]. }
  unfold mbind at 1.
  destruct (mresize_row_run c ncols st1) as (st2 & E2 & L2 & R2 & O2);
    [now rewrite T1 |].
  rewrite E2. unfold mbind at 1.
  destruct (extractions_run c ncols (seq 0 ncols) st2 R2)
    as (st3 & E3 & L3 & R3).
  { apply List.Forall_forall. intros v Hv. apply in_seq in Hv. lia. }
  unfold mfor_upto. rewrite E3.
  destruct (mmove_to_run "]" st3) as [(st4 & E4 & T4) | (st4 & E4 & T4)];
    rewrite E4.
  - exists st4, (inr tt). split; [reflexivity |]. split; [tauto |].
    rewrite T4, L3, L2, T1. split; [reflexivity |]. split.
    + intros _. now rewrite R3.
    + intros c' Hne. now rewrite R3, O2 by exact Hne; rewrite T1.
  - exists st4, (inl (Malformed "]")). split; [reflexivity |].
    split; [tauto |]. rewrite T4, L3, L2, T1. split; [reflexivity |].
    split; [discriminate |].
    intros c' Hne. now rewrite R3, O2 by exact Hne; rewrite T1.
Qed.

Lemma rows_run ncols l (st : mstate A) :
  Forall (fun c => c < length (m_rows st))%nat l ->
  exists st' r, mfor_each l (row_body ncols) st = (st', r) /\
    (r = inr tt \/ bracket_missing r) /\
    length (m_rows st') = length (m_rows st) /\
    (r = inr tt ->
     forall c, (c ∈ l \/ row_length st c = Some ncols) ->
               row_length st' c = Some ncols).
Proof.
  revert st. induction l as [| c l IH]; intros st Hl.
  - exists st, (inr tt). split; [reflexivity |]. split; [tauto |].
    split; [reflexivity |]. intros _ c [Hin | Hc]; [inversion Hin | exact Hc].
  - inversion Hl as [| ? ? Hlt Hl']; subst.
    destruct (row_body_run ncols c st Hlt)
      as (st1 & r1 & E1 & K1 & L1 & R1 & O1).
    cbn [mfor_each]. unfold mbind at 1. rewrite E1.
    destruct K1 as [-> | K1].
    2:{ exists st1, r1. destruct K1 as [-> | ->]; (split; [reflexivity |]);
          (split; [tauto |]); (split; [exact L1 | discriminate]). }
    destruct (IH st1) as (st2 & r2 & E2 & K2 & L2 & R2).
    { rewrite L1. exact Hl'. }
    exists st2, r2. split; [exact E2 |]. split; [exact K2 |].
    split; [congruence |]. intros Hr c' Hin.
    apply (R2 Hr).
    destruct (decide (c' = c)) as [-> | Hne]; [right; now apply R1 |].
    destruct Hin as [Hin | Hin].
    + apply elem_of_cons in Hin as [-> | Hin]; [congruence | now left].
    + right. now rewrite O1.
Qed.

Lemma parse_matrix_run nrows ncols (st : mstate A) :
  exists st' r, parse_matrix extract zero nrows ncols st = (st', r) /\
    match r with
    | inr _ => has_shape nrows ncols (m_rows st')
    | inl e => e = Malformed "=" \/ e = Malformed "[" \/ e = Malformed "]"
    end.
Proof.
  unfold parse_matrix. unfold mbind at 1.
  destruct (mmove_to_run "=" st) as [(st1 & E1 & T1) | (st1 & E1 & T1)];
    rewrite E1; [| eexists _, _; split; [reflexivity | simpl; tauto]].
  unfold mbind at 1.
  destruct (mmove_to_run "[" st1) as [(st2 & E2 & T2) | (st2 & E2 & T2)];
    rewrite E2; [| eexists _, _; split; [reflexivity | simpl; tauto]].
  unfold mbind at 1, mresize_outer at 1.
  set (st3 := mk_mstate (m_iss st2) (resize nrows [] (m_rows st2))).
  destruct (rows_run ncols (seq 0 nrows) st3) as (st4 & r & E & K & L & R).
  { apply List.Forall_forall. intros c Hc. apply in_seq in Hc.
    simpl. rewrite length_resize. lia. }
  unfold mfor_upto at 1. rewrite E. exists st4, r. split; [reflexivity |].
  destruct K as [-> | [-> | ->]]; [| tauto | tauto].
  split.
  - rewrite L. simpl. apply length_resize.
  - apply Forall_lookup_2. intros c row Hrow.
    assert (Hc : (c < nrows)%nat).
    { apply lookup_lt_Some in Hrow. rewrite L in Hrow. simpl in Hrow.
      now rewrite length_resize in Hrow. }
    assert (Hin : c ∈ seq 0 nrows) by (apply elem_of_seq; lia).
    specialize (R eq_refl c (or_introl Hin)).
    rewrite Hrow in R. simpl in R. congruence.
Qed.

(** X2.  A matrix record ([cip_revenues], [cip_num_pms], [cip_num_vms],
    [cip_pm_asleep_costs], [cip_pm_awake_costs], [vm_spec_cpus],
    [vm_spec_rams]) is read within bounds from any line and into any
    previous content of the field: the only errors are a missing [=], [[]
    or []], and an accepted record leaves a matrix of exactly the declared
    numbers of rows and columns. *)
Theorem matrix_record_errors_and_shape
    (nrows ncols : nat) (line : list ascii) (rows : list (list A)) :
  let run := parse_matrix_line extract zero nrows ncols line rows in
  match snd run with
  | inr _ => has_shape nrows ncols (m_rows (fst run))
  | inl e => e = Malformed "=" \/ e = Malformed "[" \/ e = Malformed "]"
  end.
Proof.
  unfold parse_matrix_line.
  destruct (parse_matrix_run nrows ncols
              (mk_mstate (mk_istream line true) rows)) as (st' & r & E & H).
  cbv zeta. rewrite E. exact H.
Qed.

(** X3.  A vector record ([pm_spec_min_powers], [pm_spec_max_powers],
    [cip_electricity_costs]) is accepted as soon as its line holds a [=]
    followed by a [[]: whatever comes after, the field gets the declared
    length and no error is raised. *)
Theorem vector_record_is_accepted_after_opening_bracket
    (n : nat) (line r1 r2 : list ascii) (vec : list A) :
  skip_past "=" line = Some r1 -> skip_past "[" r1 = Some r2 ->
  exists s v,
    parse_vector extract zero n (mk_mstate (mk_istream line true) [vec])
    = (mk_mstate s [v], inr tt) /\
    length v = n.
Proof.
  intros H1 H2. unfold parse_vector.
  unfold mbind at 1, mmove_to at 1, ignore at 1 2. simpl. rewrite H1. simpl.
  unfold mbind at 1, mmove_to at 1, ignore at 1 2. simpl. rewrite H2. simpl.
  unfold mbind at 1.
  destruct (mresize_row_run 0 n (mk_mstate (mk_istream r2 true) [vec]))
    as (st1 & E1 & L1 & R1 & _); [simpl; lia |].
  rewrite E1.
  destruct (extractions_run 0 n (seq 0 n) st1 R1) as (st2 & E2 & L2 & R2).
  { apply List.Forall_forall. intros v Hv. apply in_seq in Hv. lia. }
  unfold mfor_upto. rewrite E2.
  specialize (R2 0%nat). rewrite R1 in R2.
  rewrite L1 in L2. simpl in L2.
  destruct st2 as [s2 rows2]. simpl in *.
  destruct rows2 as [| v [| ? ?]]; simpl in L2; try discriminate.
  exists s2, v. split; [reflexivity |]. simpl in R2. congruence.
Qed.

End MatrixFacts.

Lemma vector_record_is_accepted_after_opening_bracket_witness :
  Parser.skip_past "=" (list_ascii_of_string "pm_spec_min_powers=[")
  = Some (list_ascii_of_string "[") /\
  Parser.skip_past "[" (list_ascii_of_string "[") = Some [] /\
  exists s v,
    Records.parse_vector Parser.extract_digit 0 2
      (Records.mk_mstate
         (Parser.mk_istream (list_ascii_of_string "pm_spec_min_powers=[") true)
         [[]])
    = (Records.mk_mstate s [v], inr tt) /\
    length v = 2%nat.
Proof.
  split; [reflexivity | split; [reflexivity |]].
  apply (vector_record_is_accepted_after_opening_bracket
           Parser.extract_digit 0 2 _ (list_ascii_of_string "[") []);
    reflexivity.
Defined.

Section LinesFacts.

Import Lines.

Lemma leading_blanks_app blanks text :
  forallb isspace blanks = true -> leading_blanks text = 0%nat ->
  leading_blanks (blanks ++ text) = length blanks.
Proof.
  intros Hb Ht. induction blanks as [| c r IH]; simpl in *; [exact Ht |].
  apply andb_true_iff in Hb as [Hc Hr]. rewrite Hc. f_equal. now apply IH.
Qed.

(** X4.  Indenting a record changes how it is read.  The blanks in front
    of a line are removed once, and every branch but those of [num_cips]
    and [num_pm_types] then removes as many characters again from the
    front of the record before reading it; when the record is shorter than
    its indentation, [substr] throws [std::out_of_range]. *)
Theorem indented_record_is_cut_twice (blanks text : list ascii) :
  forallb isspace blanks = true -> leading_blanks text = 0%nat ->
  dispatch (blanks ++ text) =
  match dispatch text with
  | Branch k stream =>
      if cuts_again k then
        if (length blanks <=? length text)%nat
        then Branch k (drop (length blanks) stream)
        else SubstrOutOfRange
      else Branch k stream
  | other => other
  end.
Proof.
  intros Hb Ht. unfold dispatch.
  rewrite (leading_blanks_app _ _ Hb Ht), Ht.
  assert (Hline : (if (0 <? length blanks)%nat
                   then drop (length blanks) (blanks ++ text)
                   else blanks ++ text) = text).
  { destruct blanks as [| c r]; [reflexivity |].
    change (0 <? length (c :: r))%nat with true. cbv iota.
    now rewrite drop_app_length. }
  rewrite Hline. change (0 <? 0)%nat with false. cbv iota.
  destruct text as [| c text']; [reflexivity |].
  destruct (Ascii.eqb c "#"); [reflexivity |].
  destruct (first_match (map to_lower (c :: text')) tests) as [k |];
    [| reflexivity].
  rewrite !length_map.
  destruct (cuts_again k) eqn:Hk.
  - change (0 <=? length (c :: text'))%nat with true. cbv iota.
    rewrite Hk, drop_0. reflexivity.
  - cbv iota. rewrite Hk. reflexivity.
Qed.

End LinesFacts.

Lemma indented_record_is_cut_twice_witness :
  forallb Lines.isspace (list_ascii_of_string "  ") = true /\
  Lines.leading_blanks (list_ascii_of_string "num_vm_types=3") = 0%nat /\
  Lines.dispatch (list_ascii_of_string "  num_vm_types=3")
  = Lines.Branch Lines.key_num_vm_types (list_ascii_of_string "m_vm_types=3").
Proof.
  split; [reflexivity | split; [reflexivity |]].
  exact (indented_record_is_cut_twice (list_ascii_of_string "  ")
           (list_ascii_of_string "num_vm_types=3") eq_refl eq_refl).
Defined.

(** * The final checks and defaults of the scenario parser *)

Section FinishFacts.

Import Cli Finish.

Lemma size_ok_spec {A} n (v : list A) :
  size_ok n v = true <-> v = [] \/ length v = n.
Proof.
  unfold size_ok. rewrite orb_true_iff, !Nat.eqb_eq. split.
  - intros [H | H]; [left; now destruct v | right; lia].
  - intros [-> | H]; [now left | right; lia].
Qed.

Lemma failed_check_passes s :
  failed_check s = None ->
  (0 < num_cips s)%nat /\ (0 < num_pm_types s)%nat /\
  (0 < num_vm_types s)%nat /\
  size_ok (num_cips s) (cip_revenues s) = true /\
  size_ok (num_cips s) (cip_num_pms s) = true /\
  size_ok (num_cips s) (cip_num_vms s) = true /\
  size_ok (num_cips s) (cip_electricity_costs s) = true /\
  size_ok (num_cips s) (cip_pm_power_states s) = true /\
  size_ok (num_cips s) (cip_pm_asleep_costs s) = true /\
  size_ok (num_cips s) (cip_pm_awake_costs s) = true /\
  size_ok (num_pm_types s) (pm_spec_min_powers s) = true /\
  size_ok (num_pm_types s) (pm_spec_max_powers s) = true /\
  size_ok (num_vm_types s) (vm_spec_cpus s) = true /\
  size_ok (num_vm_types s) (vm_spec_rams s) = true /\
  size_ok (num_cips s) (cip_to_cip_vm_migration_costs s) = true.
Proof.
  unfold failed_check. intros H.
  repeat match type of H with
         | (if negb ?b then _ else _) = None =>
             destruct b eqn:?; simpl in H; [| discriminate H]
         end.
  repeat match goal with
         | E : (0 <? _)%nat = true |- _ => apply Nat.ltb_lt in E
         end.
  repeat split; assumption.
Qed.

Lemma failed_check_passes_inv s :
  (0 < num_cips s)%nat -> (0 < num_pm_types s)%nat ->
  (0 < num_vm_types s)%nat ->
  size_ok (num_cips s) (cip_revenues s) = true ->
  size_ok (num_cips s) (cip_num_pms s) = true ->
  size_ok (num_cips s) (cip_num_vms s) = true ->
  size_ok (num_cips s) (cip_electricity_costs s) = true ->
  size_ok (num_cips s) (cip_pm_power_states s) = true ->
  size_ok (num_cips s) (cip_pm_asleep_costs s) = true ->
  size_ok (num_cips s) (cip_pm_awake_costs s) = true ->
  size_ok (num_pm_types s) (pm_spec_min_powers s) = true ->
  size_ok (num_pm_types s) (pm_spec_max_powers s) = true ->
  size_ok (num_vm_types s) (vm_spec_cpus s) = true ->
  size_ok (num_vm_types s) (vm_spec_rams s) = true ->
  size_ok (num_cips s) (cip_to_cip_vm_migration_costs s) = true ->
  failed_check s = None.
Proof.
  intros H1 H2 H3 C1 C2 C3 C4 C5 C6 C7 C8 C9 C10 C11 C12.
  unfold failed_check.
  apply Nat.ltb_lt in H1, H2, H3.
  now rewrite H1, H2, H3, C1, C2, C3, C4, C5, C6, C7, C8, C9, C10, C11, C12.
Qed.

Lemma default_power_states_length s x :
  default_power_states s = Some x -> length x = num_cips s.
Proof.
  unfold default_power_states. intros H.
  apply length_mapM in H. now rewrite length_seq in H.
Qed.

Lemma size_ok_full {A} n (v : list A) : length v = n -> size_ok n v = true.
Proof. intros H. apply size_ok_spec. now right. Qed.

(** The four tables with a default, after [fill_defaults]. *)
Lemma fill_defaults_spec s s' :
  fill_defaults s = Some s' ->
  num_cips s' = num_cips s /\ num_pm_types s' = num_pm_types s /\
  num_vm_types s' = num_vm_types s /\
  cip_num_pms s' = cip_num_pms s /\ cip_num_vms s' = cip_num_vms s /\
  cip_revenues s' = cip_revenues s /\
  cip_electricity_costs s' = cip_electricity_costs s /\
  pm_spec_min_powers s' = pm_spec_min_powers s /\
  pm_spec_max_powers s' = pm_spec_max_powers s /\
  vm_spec_cpus s' = vm_spec_cpus s /\ vm_spec_rams s' = vm_spec_rams s /\
  (if (length (cip_pm_power_states s) =? 0)%nat
   then default_power_states s = Some (cip_pm_power_states s')
   else cip_pm_power_states s' = cip_pm_power_states s) /\
  cip_pm_asleep_costs s' =
    (if (length (cip_pm_asleep_costs s) =? 0)%nat
     then replicate (num_cips s) (replicate (num_pm_types s) 0)
     else cip_pm_asleep_costs s) /\
  cip_pm_awake_costs s' =
    (if (length (cip_pm_awake_costs s) =? 0)%nat
     then replicate (num_cips s) (replicate (num_pm_types s) 0)
     else cip_pm_awake_costs s) /\
  cip_to_cip_vm_migration_costs s' =
    (if (length (cip_to_cip_vm_migration_costs s) =? 0)%nat
     then replicate (num_cips s)
            (replicate (num_cips s) (replicate (num_vm_types s) 0))
     else cip_to_cip_vm_migration_costs s).
Proof.
  unfold fill_defaults. intros H.
  destruct (length (cip_pm_power_states s) =? 0)%nat eqn:E1.
  - destruct (default_power_states s) as [x |] eqn:Ex; [| discriminate H].
    simpl in H. injection H as <-.
    destruct (length (cip_pm_asleep_costs s) =? 0)%nat eqn:E2;
      destruct (length (cip_pm_awake_costs s) =? 0)%nat eqn:E3;
      destruct (length (cip_to_cip_vm_migration_costs s) =? 0)%nat eqn:E4;
      simpl; rewrite ?E2, ?E3, ?E4; simpl; rewrite ?E3, ?E4; simpl;
      rewrite ?E4; simpl; repeat split; reflexivity.
  - simpl in H. injection H as <-.
    destruct (length (cip_pm_asleep_costs s) =? 0)%nat eqn:E2;
      destruct (length (cip_pm_awake_costs s) =? 0)%nat eqn:E3;
      destruct (length (cip_to_cip_vm_migration_costs s) =? 0)%nat eqn:E4;
      simpl; rewrite ?E2, ?E3, ?E4; simpl; rewrite ?E3, ?E4; simpl;
      rewrite ?E4; simpl; repeat split; reflexivity.
Qed.

Lemma size_ok_length {A} n (v : list A) :
  size_ok n v = true -> (length v =? 0)%nat = false -> length v = n.
Proof.
  intros H E. apply size_ok_spec in H as [-> | H]; [discriminate | exact H].
Qed.

Lemma check_and_default_returned s s' :
  check_and_default s = Returned s' ->
  failed_check s = None /\ fill_defaults s = Some s'.
Proof.
  unfold check_and_default.
  destruct (failed_check s); [discriminate |].
  destruct (fill_defaults s); [| discriminate]. now intros [= ->].
Qed.

Lemma returned_tables_have_rows s s' :
  check_and_default s = Returned s' ->
  (0 < num_cips s')%nat /\ (0 < num_pm_types s')%nat /\
  (0 < num_vm_types s')%nat /\
  length (cip_pm_power_states s') = num_cips s' /\
  length (cip_pm_asleep_costs s') = num_cips s' /\
  length (cip_pm_awake_costs s') = num_cips s' /\
  length (cip_to_cip_vm_migration_costs s') = num_cips s'.
Proof.
  intros H. apply check_and_default_returned in H as [Hc Hf].
  apply failed_check_passes in Hc
    as (N & T & V & _ & _ & _ & _ & Cp & Ca & Cw & _ & _ & _ & _ & Cm).
  apply fill_defaults_spec in Hf
    as (-> & -> & -> & _ & _ & _ & _ & _ & _ & _ & _ & Hp & -> & -> & ->).
  repeat split; try assumption.
  - destruct (length (cip_pm_power_states s) =? 0)%nat eqn:E.
    + now apply default_power_states_length.
    + rewrite Hp. now apply size_ok_length.
  - destruct (length (cip_pm_asleep_costs s) =? 0)%nat eqn:E.
    + apply length_replicate.
    + now apply size_ok_length.
  - destruct (length (cip_pm_awake_costs s) =? 0)%nat eqn:E.
    + apply length_replicate.
    + now apply size_ok_length.
  - destruct (length (cip_to_cip_vm_migration_costs s) =? 0)%nat eqn:E.
    + apply length_replicate.
    + now apply size_ok_length.
Qed.

(** X5.  A scenario that [make_scenario] returns has positive numbers of
    providers, PM types and VM types, and its power states, switch-off
    costs, switch-on costs and migration costs have one row per provider;
    a table of these four that the file gave is returned as it was
    read. *)
Theorem returned_scenario_has_its_optional_tables (s s' : scenario) :
  check_and_default s = Returned s' ->
  ((0 < num_cips s')%nat /\ (0 < num_pm_types s')%nat /\
   (0 < num_vm_types s')%nat /\
   length (cip_pm_power_states s') = num_cips s' /\
   length (cip_pm_asleep_costs s') = num_cips s' /\
   length (cip_pm_awake_costs s') = num_cips s' /\
   length (cip_to_cip_vm_migration_costs s') = num_cips s') /\
  (cip_pm_power_states s <> [] ->
   cip_pm_power_states s' = cip_pm_power_states s) /\
  (cip_pm_asleep_costs s <> [] ->
   cip_pm_asleep_costs s' = cip_pm_asleep_costs s) /\
  (cip_pm_awake_costs s <> [] ->
   cip_pm_awake_costs s' = cip_pm_awake_costs s) /\
  (cip_to_cip_vm_migration_costs s <> [] ->
   cip_to_cip_vm_migration_costs s' = cip_to_cip_vm_migration_costs s).
Proof.
  intros H. split; [now apply (returned_tables_have_rows s) |].
  apply check_and_default_returned in H as [_ Hf].
  apply fill_defaults_spec in Hf
    as (_ & _ & _ & _ & _ & _ & _ & _ & _ & _ & _ & Hp & -> & -> & ->).
  repeat split.
  - intros Hne. destruct (cip_pm_power_states s); [congruence | exact Hp].
  - intros Hne. now destruct (cip_pm_asleep_costs s).
  - intros Hne. now destruct (cip_pm_awake_costs s).
  - intros Hne. now destruct (cip_to_cip_vm_migration_costs s).
Qed.

Lemma count_pms_ext s s' c :
  num_pm_types s' = num_pm_types s -> cip_num_pms s' = cip_num_pms s ->
  count_pms s' c = count_pms s c.
Proof. unfold count_pms. now intros -> ->. Qed.

(** X6.  The defaults of [make_scenario]: when the file gives no power
    states, every provider gets one entry per PM it owns, all off; the
    switch-off and switch-on costs left out are zero for every provider and
    PM type, and the migration costs left out are zero for every pair of
    providers and VM type. *)
Theorem tables_left_out_get_their_defaults (s s' : scenario) :
  check_and_default s = Returned s' ->
  (cip_pm_power_states s = [] ->
   forall c, (c < num_cips s')%nat -> all_off s' c) /\
  (cip_pm_asleep_costs s = [] ->
   cip_pm_asleep_costs s'
   = replicate (num_cips s') (replicate (num_pm_types s') 0)) /\
  (cip_pm_awake_costs s = [] ->
   cip_pm_awake_costs s'
   = replicate (num_cips s') (replicate (num_pm_types s') 0)) /\
  (cip_to_cip_vm_migration_costs s = [] ->
   cip_to_cip_vm_migration_costs s'
   = replicate (num_cips s')
       (replicate (num_cips s') (replicate (num_vm_types s') 0))).
Proof.
  intros H. apply check_and_default_returned in H as [_ Hf].
  apply fill_defaults_spec in Hf
    as (EN & ET & EV & Epms & _ & _ & _ & _ & _ & _ & _ & Hp & Ha & Hw & Hm).
  rewrite EN, ET, EV. repeat split.
  - intros Hnil c Hc. rewrite Hnil in Hp. simpl in Hp.
    unfold default_power_states in Hp. apply mapM_Some_1 in Hp.
    destruct (Forall2_lookup_l _ _ _ c c Hp) as (row & Hrow & Hcount).
    { apply lookup_seq. lia. }
    destruct (count_pms s c) as [n |] eqn:En; [| discriminate].
    simpl in Hcount. injection Hcount as <-.
    exists n. split; [| exact Hrow].
    rewrite <- En. now apply count_pms_ext.
  - intros Hnil. now rewrite Ha, Hnil.
  - intros Hnil. now rewrite Hw, Hnil.
  - intros Hnil. now rewrite Hm, Hnil.
Qed.

(** X7.  The checks and defaults are idempotent: a scenario that
    [make_scenario] returns passes them again unchanged. *)
Theorem returned_scenario_passes_again (s s' : scenario) :
  check_and_default s = Returned s' -> check_and_default s' = Returned s'.
Proof.
  intros H.
  destruct (returned_tables_have_rows s s' H)
    as (N & T & V & Lp & La & Lw & Lm).
  apply check_and_default_returned in H as [Hc Hf].
  apply failed_check_passes in Hc
    as (_ & _ & _ & C1 & C2 & C3 & C4 & _ & _ & _ & C8 & C9 & C10 & C11 & _).
  apply fill_defaults_spec in Hf
    as (EN & ET & EV & E1 & E2 & E3 & E4 & E5 & E6 & E7 & E8 & _).
  unfold check_and_default.
  rewrite (failed_check_passes_inv s'); try assumption;
    try (now apply size_ok_full); try (rewrite ?EN, ?ET, ?EV; congruence).
  unfold fill_defaults.
  assert (Z : forall n : nat, (0 < n)%nat -> (n =? 0)%nat = false)
    by (intros n Hn; apply Nat.eqb_neq; lia).
  rewrite Lp, (Z _ N). simpl. rewrite La, (Z _ N), Lw, (Z _ N), Lm, (Z _ N).
  reflexivity.
Qed.

Lemma foldl_none {A B} (f : option A -> B -> option A) l :
  (forall p, f None p = None) -> foldl f None l = None.
Proof.
  intros Hf. induction l as [| p l IH]; [reflexivity |].
  simpl. now rewrite Hf.
Qed.

Lemma count_pms_missing_row s c :
  cip_num_pms s !! c = None -> (0 < num_pm_types s)%nat ->
  count_pms s c = None.
Proof.
  unfold count_pms. intros -> T.
  destruct (num_pm_types s) as [| t]; [lia |].
  cbn [seq foldl]. now apply foldl_none.
Qed.

(** X8.  A file that gives neither the numbers of PMs nor the power states
    never yields a scenario: when the checks pass, the default power states
    are computed from the missing numbers of PMs, a read past the end of an
    empty vector. *)
Theorem missing_pm_numbers_and_states_never_return (s : scenario) :
  cip_num_pms s = [] -> cip_pm_power_states s = [] ->
  forall s', check_and_default s <> Returned s'.
Proof.
  intros Hpms Hst s' H.
  apply check_and_default_returned in H as [Hc Hf].
  apply failed_check_passes in Hc as (N & T & _).
  unfold fill_defaults in Hf. rewrite Hst in Hf. simpl in Hf.
  assert (Hnone : default_power_states s = None).
  { unfold default_power_states. apply mapM_None_2.
    destruct (num_cips s) as [| n]; [lia |].
    apply Exists_cons_hd. rewrite count_pms_missing_row; [reflexivity | | lia].
    now rewrite Hpms. }
  rewrite Hnone in Hf. discriminate.
Qed.

End FinishFacts.

Lemma returned_scenario_has_its_optional_tables_witness :
  Finish.check_and_default Cases.bare = Finish.Returned Cases.bare_filled /\
  length (cip_pm_power_states Cases.bare_filled) = 2%nat.
Proof.
  assert (H : Finish.check_and_default Cases.bare
              = Finish.Returned Cases.bare_filled) by reflexivity.
  split; [exact H |].
  exact (proj1 (proj2 (proj2 (proj2 (proj1
    (returned_scenario_has_its_optional_tables _ _ H)))))).
Defined.

Lemma tables_left_out_get_their_defaults_witness :
  Finish.check_and_default Cases.bare = Finish.Returned Cases.bare_filled /\
  cip_to_cip_vm_migration_costs Cases.bare_filled
  = replicate 2 (replicate 2 (replicate 1 0)).
Proof.
  assert (H : Finish.check_and_default Cases.bare
              = Finish.Returned Cases.bare_filled) by reflexivity.
  split; [exact H |].
  exact (proj2 (proj2 (proj2
    (tables_left_out_get_their_defaults _ _ H))) eq_refl).
Defined.

Lemma returned_scenario_passes_again_witness :
  Finish.check_and_default Cases.bare = Finish.Returned Cases.bare_filled /\
  Finish.check_and_default Cases.bare_filled
  = Finish.Returned Cases.bare_filled.
Proof.
  assert (H : Finish.check_and_default Cases.bare
              = Finish.Returned Cases.bare_filled) by reflexivity.
  split; [exact H | exact (returned_scenario_passes_again _ _ H)].
Defined.

Lemma missing_pm_numbers_and_states_never_return_witness :
  cip_num_pms Cases.counts_only = [] /\
  cip_pm_power_states Cases.counts_only = [] /\
  forall s', Finish.check_and_default Cases.counts_only <> Finish.Returned s'.
Proof.
  split; [reflexivity | split; [reflexivity |]].
  exact (missing_pm_numbers_and_states_never_return Cases.counts_only
           eq_refl eq_refl).
Defined.

(** * The perturbations of [run_experiment] *)

Section LoopFacts.

Lemma foldl_ext_in {A B} (f g : A -> B -> A) (l : list B) (a : A) :
  (forall a b, b ∈ l -> f a b = g a b) -> foldl f a l = foldl g a l.
Proof.
  revert a. induction l as [| b l IH]; intros a H; [reflexivity |].
  simpl. rewrite (H a b) by left. apply IH.
  intros a' b' Hb'. apply H. now right.
Qed.

(** A loop that only touches row [c] is one update of row [c]. *)
Lemma foldl_alter_row {A B} (g : B -> A -> A) (c : nat) (l : list B)
    (m : list A) :
  foldl (fun m x => alter (g x) c m) m l
  = alter (fun row => foldl (fun r x => g x r) row l) c m.
Proof.
  revert m. induction l as [| x l IH]; intros m; simpl.
  - symmetry. apply list_alter_id. reflexivity.
  - rewrite IH. apply list_alter_alter_eq.
Qed.

(** A loop that fills the entries [0 .. n-1] of a vector of length [n]. *)
Lemma foldl_insert_all {A} (f : nat -> A) (r : list A) (k : nat) :
  (k <= length r)%nat ->
  foldl (fun r p => <[p := f p]> r) r (seq 0 k) = map f (seq 0 k) ++ drop k r.
Proof.
  induction k as [| k IH]; intros Hk.
  - simpl. now rewrite drop_0.
  - rewrite seq_S, foldl_app, IH by lia. simpl.
    rewrite map_app, <- app_assoc. simpl.
    destruct (lookup_lt_is_Some_2 r k) as [x Hx]; [lia |].
    rewrite (drop_S r x k Hx).
    rewrite insert_app_r_alt by (rewrite length_map, length_seq; lia).
    rewrite length_map, length_seq, Nat.sub_diag. reflexivity.
Qed.

Lemma foldl_insert_full {A} (f : nat -> A) (r : list A) :
  foldl (fun r p => <[p := f p]> r) r (seq 0 (length r))
  = map f (seq 0 (length r)).
Proof.
  rewrite foldl_insert_all by lia. rewrite drop_all. apply app_nil_r.
Qed.

(** A loop that updates row [c] at pass [c]. *)
Lemma foldl_alter_each {A} (h : nat -> A -> A) (l : list nat) (m : list A)
    (j : nat) :
  NoDup l ->
  foldl (fun m c => alter (h c) c m) m l !! j
  = if bool_decide (j ∈ l) then h j <$> m !! j else m !! j.
Proof.
  intros Hnd. revert m. induction Hnd as [| c l Hc Hnd IH]; intros m.
  - reflexivity.
  - simpl. rewrite IH. destruct (decide (j = c)) as [-> | Hne].
    + rewrite (bool_decide_eq_false_2 _ Hc).
      rewrite (bool_decide_eq_true_2 (c ∈ c :: l)) by left.
      apply list_lookup_alter_eq.
    + rewrite list_lookup_alter_ne by congruence.
      destruct (bool_decide (j ∈ l)) eqn:E.
      * apply bool_decide_eq_true in E.
        rewrite (bool_decide_eq_true_2 (j ∈ c :: l)) by now right.
        reflexivity.
      * apply bool_decide_eq_false in E.
        rewrite (bool_decide_eq_false_2 (j ∈ c :: l)); [reflexivity |].
        intros Hin. apply elem_of_cons in Hin as [? | ?]; tauto.
Qed.

Lemma length_foldl_alter {A} (h : nat -> A -> A) (l : list nat) (m : list A) :
  length (foldl (fun m c => alter (h c) c m) m l) = length m.
Proof.
  revert m. induction l as [| c l IH]; intros m; [reflexivity |].
  simpl. rewrite IH. apply length_alter.
Qed.

(** A loop that rebuilds every row of a table of [n] rows. *)
Lemma foldl_alter_rebuild {A} (h : nat -> A -> A) (row : nat -> A)
    (m : list A) (n : nat) :
  length m = n ->
  (forall c x, (c < n)%nat -> h c x = row c) ->
  foldl (fun m c => alter (h c) c m) m (seq 0 n) = map row (seq 0 n).
Proof.
  intros Hlen Hrow. apply list_eq. intros j.
  rewrite foldl_alter_each by apply NoDup_seq.
  rewrite list_lookup_fmap.
  destruct (decide (j < n)%nat) as [Hj | Hj].
  - rewrite bool_decide_eq_true_2 by (apply elem_of_seq; lia).
    rewrite lookup_seq_lt by exact Hj.
    destruct (lookup_lt_is_Some_2 m j) as [x Hx]; [lia |].
    rewrite Hx. simpl. now rewrite Hrow.
  - rewrite bool_decide_eq_false_2 by (rewrite elem_of_seq; lia).
    rewrite lookup_ge_None_2 by lia.
    rewrite lookup_seq_ge by lia. reflexivity.
Qed.

End LoopFacts.

Section PerturbationFacts.

Import Solver Evaluator Finish Experiment Records.

Variable rvg_vms : nat -> nat -> nat -> nat -> nat.
Variable rvg_pm_power_state : nat -> nat -> nat -> nat -> bool.
Variable rvg_pm_on_off_time : nat -> nat -> nat -> Qc.
Variable rvg_vm_migration_time : nat -> nat -> nat -> nat -> Qc.
Variable scen : scenario.
Variable i : nat.

Local Abbreviation working :=
  (working_scenario rvg_vms rvg_pm_power_state rvg_pm_on_off_time
     rvg_vm_migration_time scen i).

Lemma qmax_0_nonneg (a : Qc) : 0 <= qmax a 0.
Proof.
  unfold qmax. destruct (bool_decide (a < 0)) eqn:E.
  - apply Qcle_refl.
  - apply bool_decide_eq_false in E. now apply Qcnot_lt_le.
Qed.

(** The table the loop over providers and PM types leaves, whatever it
    held before. *)
Lemma gen_pm_on_off_costs_closed (tbl : list (list Qc)) :
  gen_pm_on_off_costs rvg_pm_on_off_time scen i tbl
  = map (fun c => map (on_off_cost rvg_pm_on_off_time scen i c)
                    (seq 0 (num_pm_types scen)))
      (seq 0 (num_cips scen)).
Proof.
  unfold gen_pm_on_off_costs.
  rewrite (foldl_ext_in _
             (fun m c =>
                alter (fun _ => map (on_off_cost rvg_pm_on_off_time scen i c)
                                  (seq 0 (num_pm_types scen))) c m)).
  - apply foldl_alter_rebuild; [apply length_resize | reflexivity].
  - intros m c _.
    rewrite (foldl_alter_row
               (fun p row => <[p := on_off_cost rvg_pm_on_off_time scen i c p]>
                               row)).
    rewrite list_alter_alter_eq. apply list_alter_ext; [| reflexivity].
    intros row _. simpl.
    rewrite <- (length_resize row (num_pm_types scen) 0) at 2 3.
    apply foldl_insert_full.
Qed.

(** X9.  With [--rnd-genpmsonoffcosts] the working scenario of every
    iteration has the same switch-off and switch-on costs, whatever the
    scenario file gave: one row per provider and one entry per PM type,
    none of them negative; the entry of provider [c] and PM type [p] is
    the greater of 0 and the time drawn for them times the maximum power
    of the type, times 1e-3, times the electricity price of the
    provider. *)
Theorem random_on_off_costs_are_equal_and_not_negative (opts : options) :
  rnd_gen_pm_on_off_costs opts = true ->
  cip_pm_asleep_costs (working opts) = cip_pm_awake_costs (working opts) /\
  has_shape (num_cips scen) (num_pm_types scen)
    (cip_pm_asleep_costs (working opts)) /\
  (forall c p, 0 <= at2 0 (cip_pm_asleep_costs (working opts)) c p) /\
  (forall c p, (c < num_cips scen)%nat -> (p < num_pm_types scen)%nat ->
     at2 0 (cip_pm_asleep_costs (working opts)) c p
     = qmax (rvg_pm_on_off_time i c p
             * (at1 0 (pm_spec_max_powers scen) p * Q2Qc (1 # 1000)
                * at1 0 (cip_electricity_costs scen) c)) 0).
Proof.
  intros Hflag.
  assert (E : cip_pm_asleep_costs (working opts)
              = map (fun c => map (on_off_cost rvg_pm_on_off_time scen i c)
                                (seq 0 (num_pm_types scen)))
                  (seq 0 (num_cips scen)) /\
              cip_pm_awake_costs (working opts)
              = map (fun c => map (on_off_cost rvg_pm_on_off_time scen i c)
                                (seq 0 (num_pm_types scen)))
                  (seq 0 (num_cips scen))).
  { unfold working_scenario. rewrite Hflag.
    destruct (rnd_gen_vm_migration_costs opts); simpl;
      rewrite !gen_pm_on_off_costs_closed; split; reflexivity. }
  destruct E as [Ea Ew]. rewrite Ea, Ew. split; [reflexivity |].
  split; [| split].
  - split.
    + now rewrite length_map, length_seq.
    + apply List.Forall_forall. intros row Hrow.
      apply in_map_iff in Hrow as (c & <- & _).
      now rewrite length_map, length_seq.
  - intros c p. unfold at2.
    destruct (decide (c < num_cips scen)%nat) as [Hc | Hc].
    + rewrite (nth_map_seq _ _ _ _ Hc).
      destruct (decide (p < num_pm_types scen)%nat) as [Hp | Hp].
      * rewrite (nth_map_seq _ _ _ _ Hp). apply qmax_0_nonneg.
      * rewrite nth_overflow by (rewrite length_map, length_seq; lia).
        apply Qcle_refl.
    + rewrite (nth_overflow (map _ _))
        by (rewrite length_map, length_seq; lia).
      destruct p; apply Qcle_refl.
  - intros c p Hc Hp. unfold at2.
    rewrite (nth_map_seq _ _ _ _ Hc), (nth_map_seq _ _ _ _ Hp).
    reflexivity.
Qed.

Local Abbreviation migration_line :=
  (Experiment.migration_line rvg_vm_migration_time scen i).

Lemma gen_vm_migration_costs_closed (tbl : list (list (list Qc))) :
  gen_vm_migration_costs rvg_vm_migration_time scen i tbl
  = map (fun c1 => map (fun c2 => migration_line c1 c2)
                     (seq 0 (num_cips scen)))
      (seq 0 (num_cips scen)).
Proof.
  unfold gen_vm_migration_costs.
  rewrite (foldl_ext_in _
             (fun m c1 =>
                alter (fun _ => map (fun c2 => migration_line c1 c2)
                                  (seq 0 (num_cips scen))) c1 m)).
  - apply foldl_alter_rebuild; [apply length_resize | reflexivity].
  - intros m c1 _.
    rewrite (foldl_ext_in _
               (fun m c2 => alter (alter (fun _ => migration_line c1 c2) c2)
                              c1 m)).
    + rewrite (foldl_alter_row
                 (fun c2 plane => alter (fun _ => migration_line c1 c2) c2
                                    plane)).
      rewrite list_alter_alter_eq. apply list_alter_ext; [| reflexivity].
      intros plane _. simpl.
      apply foldl_alter_rebuild; [apply length_resize | reflexivity].
    + intros m' c2 _. unfold Experiment.migration_line.
      destruct (bool_decide (c1 <> c2)); [| reflexivity].
      rewrite (foldl_alter_row
                 (fun v plane =>
                    alter (fun line =>
                             <[v := migration_cost rvg_vm_migration_time i
                                      c1 c2 v]> line) c2 plane)).
      rewrite list_alter_alter_eq. apply list_alter_ext; [| reflexivity].
      intros plane _. simpl.
      rewrite (foldl_alter_row
                 (fun v line =>
                    <[v := migration_cost rvg_vm_migration_time i c1 c2 v]>
                      line)).
      rewrite list_alter_alter_eq. apply list_alter_ext; [| reflexivity].
      intros line _. simpl.
      rewrite <- (length_resize line (num_vm_types scen) 0) at 2 3.
      apply foldl_insert_full.
Qed.

(** X10.  With [--rnd-genvmsmigrcosts] the migration costs of the working
    scenario replace whatever the scenario file gave: a table with one
    line per ordered pair of providers and one entry per VM type, zero
    between a provider and itself and never negative. *)
Theorem random_migration_costs_shape_and_sign (opts : options) :
  rnd_gen_vm_migration_costs opts = true ->
  let G := cip_to_cip_vm_migration_costs (working opts) in
  has_shape (num_cips scen) (num_cips scen) G /\
  (forall c1 c2, (c1 < num_cips scen)%nat -> (c2 < num_cips scen)%nat ->
     length (at2 [] G c1 c2) = num_vm_types scen) /\
  (forall c v, at3 0 G c c v = 0) /\
  (forall c1 c2 v, 0 <= at3 0 G c1 c2 v).
Proof.
  intros Hflag.
  assert (E : cip_to_cip_vm_migration_costs (working opts)
              = map (fun c1 => map (fun c2 => migration_line c1 c2)
                                 (seq 0 (num_cips scen)))
                  (seq 0 (num_cips scen))).
  { unfold working_scenario. rewrite Hflag. simpl.
    apply gen_vm_migration_costs_closed. }
  cbv zeta. rewrite E. clear E.
  assert (Hline : forall c1 c2 v,
             nth v (nth c2 (nth c1
               (map (fun c1 => map (fun c2 => migration_line c1 c2)
                                 (seq 0 (num_cips scen)))
                  (seq 0 (num_cips scen))) []) []) 0
             = if bool_decide (c1 < num_cips scen /\ c2 < num_cips scen
                               /\ v < num_vm_types scen /\ c1 <> c2)%nat
               then migration_cost rvg_vm_migration_time i c1 c2 v
               else 0).
  { intros c1 c2 v.
    destruct (decide (c1 < num_cips scen)%nat) as [H1 | H1].
    2:{ rewrite (nth_overflow (map _ _))
          by (rewrite length_map, length_seq; lia).
        rewrite bool_decide_eq_false_2 by tauto.
        destruct c2, v; reflexivity. }
    rewrite (nth_map_seq _ _ _ _ H1).
    destruct (decide (c2 < num_cips scen)%nat) as [H2 | H2].
    2:{ rewrite (nth_overflow (map _ _))
          by (rewrite length_map, length_seq; lia).
        rewrite bool_decide_eq_false_2 by tauto.
        destruct v; reflexivity. }
    rewrite (nth_map_seq _ _ _ _ H2). unfold Experiment.migration_line.
    destruct (decide (c1 = c2)) as [-> | Hne].
    - rewrite (bool_decide_eq_false_2 (c2 <> c2)) by tauto.
      rewrite bool_decide_eq_false_2 by tauto.
      destruct (decide (v < num_vm_types scen)%nat) as [Hv | Hv].
      + rewrite nth_lookup, lookup_replicate_2 by exact Hv. reflexivity.
      + apply nth_overflow. rewrite length_replicate. lia.
    - rewrite (bool_decide_eq_true_2 (c1 <> c2)) by exact Hne.
      destruct (decide (v < num_vm_types scen)%nat) as [Hv | Hv].
      + rewrite (nth_map_seq _ _ _ _ Hv).
        now rewrite bool_decide_eq_true_2 by tauto.
      + rewrite nth_overflow by (rewrite length_map, length_seq; lia).
        now rewrite bool_decide_eq_false_2 by tauto. }
  split; [| split; [| split]].
  - split.
    + now rewrite length_map, length_seq.
    + apply List.Forall_forall. intros row Hrow.
      apply in_map_iff in Hrow as (c & <- & _).
      now rewrite length_map, length_seq.
  - intros c1 c2 H1 H2. unfold at2.
    rewrite (nth_map_seq _ _ _ _ H1), (nth_map_seq _ _ _ _ H2).
    unfold Experiment.migration_line.
    destruct (bool_decide (c1 <> c2)).
    + now rewrite length_map, length_seq.
    + apply length_replicate.
  - intros c v. unfold at3. rewrite Hline.
    now rewrite bool_decide_eq_false_2 by tauto.
  - intros c1 c2 v. unfold at3. rewrite Hline.
    destruct (bool_decide _); [apply qmax_0_nonneg | apply Qcle_refl].
Qed.

End PerturbationFacts.

Section PowerStateFacts.

Import Solver Evaluator Finish Experiment.

Variable rvg_vms : nat -> nat -> nat -> nat -> nat.
Variable rvg_pm_power_state : nat -> nat -> nat -> nat -> bool.
Variable rvg_pm_on_off_time : nat -> nat -> nat -> Qc.
Variable rvg_vm_migration_time : nat -> nat -> nat -> nat -> Qc.
Variable scen : scenario.
Variable i : nat.

Local Abbreviation working :=
  (working_scenario rvg_vms rvg_pm_power_state rvg_pm_on_off_time
     rvg_vm_migration_time scen i).








End PowerStateFacts.

(** * The report and the main loop of [run_experiment] *)

Section ReportFacts.

Import Solver Evaluator Selectors Formation Report.

Lemma fold_throwing_some {A B} (f : A -> B -> option A) (l : list B)
    (a a' : A) (b : B) :
  fold_throwing f l a = Some a' -> In b l -> exists a0, is_Some (f a0 b).
Proof.
  revert a. induction l as [| x l IH]; intros a H Hin; [destruct Hin |].
  simpl in H. destruct (f a x) as [a1 |] eqn:E; [| discriminate].
  destruct Hin as [-> | Hin]; [exists a; rewrite E; eauto | eauto].
Qed.

Lemma fold_throwing_none {A B} (f : A -> B -> option A) (l : list B)
    (a : A) (b : B) :
  In b l -> (forall a0, f a0 b = None) -> fold_throwing f l a = None.
Proof.
  revert a. induction l as [| x l IH]; intros a Hin Hb; [destruct Hin |].
  simpl. destruct (f a x) as [a1 |] eqn:E; [| reflexivity].
  destruct Hin as [-> | Hin]; [now rewrite Hb in E | now apply IH].
Qed.

(** X12.  [report] only returns when every provider's coalition of one
    has a payoff entry for the provider: the section on the singleton
    coalitions reads each of them with [at], for every provider and
    whatever the best partitions are, so a missing record or a record
    without payoffs ends the report with [std::out_of_range]. *)
Theorem report_needs_every_singleton_payoff
    (ncips : nat) (formed : coalition_formation_info)
    (r : list partition_sums * option real * (real * real)) (c : nat) :
  report ncips formed = Some r -> (c < ncips)%nat ->
  exists ci x, fc_coalitions formed !! make_id [c] = Some ci /\
               payoffs ci !! c = Some x.
Proof.
  unfold report. intros H Hc.
  destruct (mapM _ _); [| discriminate].
  destruct (report_singletons ncips formed) as [singles |] eqn:E;
    [| discriminate].
  unfold report_singletons in E.
  destruct (fold_throwing_some _ _ _ _ c E) as [a0 [a1 Ha]].
  { apply in_seq. lia. }
  unfold payoff_at, record_at in Ha.
  destruct (fc_coalitions formed !! make_id [c]) as [ci |] eqn:Eci;
    [| discriminate].
  destruct (payoffs ci !! c) as [x |] eqn:Ex; [| discriminate].
  exists ci, x. split; [reflexivity | exact Ex].
Qed.

End ReportFacts.

Section SubsetFacts.

Import Evaluator.

Lemma members_of_pow2 (n c : nat) :
  members_of n (2 ^ N.of_nat c) = if (c <? n)%nat then [c] else [].
Proof.
  induction n as [| n IH]; [reflexivity |].
  rewrite members_of_succ, IH, N.pow2_bits_eqb.
  destruct (Nat.ltb_spec c n) as [H | H].
  - rewrite (proj2 (Nat.ltb_lt c (Datatypes.S n))) by lia.
    replace (N.of_nat c =? N.of_nat n)%N with false; [reflexivity |].
    symmetry. apply N.eqb_neq. lia.
  - destruct (decide (c = n)) as [-> | Hne].
    + rewrite (proj2 (Nat.ltb_lt n (Datatypes.S n))) by lia.
      now rewrite N.eqb_refl.
    + rewrite (proj2 (Nat.ltb_ge c (Datatypes.S n))) by lia.
      replace (N.of_nat c =? N.of_nat n)%N with false; [reflexivity |].
      symmetry. apply N.eqb_neq. lia.
Qed.

(** Every provider alone is one of the enumerated coalitions. *)
Lemma singleton_is_enumerated (n c : nat) :
  (c < n)%nat -> In [c] (lexicographic_subsets n).
Proof.
  intros Hc. unfold lexicographic_subsets. apply in_map_iff.
  exists (2 ^ c)%nat. split.
  - rewrite Nat2N.inj_pow. change (N.of_nat 2) with 2%N.
    rewrite members_of_pow2. now rewrite (proj2 (Nat.ltb_lt c n)).
  - apply in_seq.
    assert (2 ^ c < 2 ^ n)%nat by (apply Nat.pow_lt_mono_r; lia).
    assert (0 < 2 ^ c)%nat by (apply Nat.neq_0_lt_0, Nat.pow_nonzero; lia).
    lia.
Qed.

End SubsetFacts.

Section ExperimentFacts.

Import Solver Evaluator Selectors Formation Report Experiment.

Variable rvg_vms : nat -> nat -> nat -> nat -> nat.
Variable rvg_pm_power_state : nat -> nat -> nat -> nat -> bool.
Variable rvg_pm_on_off_time : nat -> nat -> nat -> Qc.
Variable rvg_vm_migration_time : nat -> nat -> nat -> nat -> Qc.

Variable definitely_greater : real -> real -> bool.
Variable definitely_less : real -> real -> bool.
Variable essentially_equal : real -> real -> bool.
Variable be : backend.
Variable solve : milp -> option solver_result.
Variable core_is_empty : gmap N real -> list nat -> bool.
Variable value_division :
  coalition_value_division_category -> gmap N real -> list nat -> gmap nat real.
Variable belongs_to_core : gmap N real -> list nat -> gmap nat real -> bool.

Local Abbreviation alloc s opts :=
  (allocation_of definitely_greater be solve s opts).
Local Abbreviation run s opts :=
  (evaluate_all definitely_greater be solve core_is_empty
     value_division belongs_to_core s opts).
Local Abbreviation analyze :=
  (analyze_coalitions definitely_greater definitely_less essentially_equal be
     solve core_is_empty value_division belongs_to_core).

(** The record of a coalition without a solution, met once by the loop
    and not before. *)
Lemma run_unsolved_fresh (s : scenario) (opts : options)
    (subsets : list (list nat)) (st st' : eval_state) (S : list nat)
    (oa : optimal_allocation_info) :
  run s opts st subsets = Some st' ->
  NoDup (map make_id subsets) -> In S subsets ->
  visited st !! make_id S = None ->
  alloc s opts S = Some oa -> solved oa = false ->
  exists ci, visited st' !! make_id S = Some ci /\
             value ci = NaN /\ payoffs ci = ∅ /\
             core_empty ci = true /\ payoffs_in_core ci = false /\
             optimal_allocation ci = oa.
Proof.
  revert st. induction subsets as [| T l IH];
    intros st Hrun Hnd Hin Hfresh Ha Hs; [destruct Hin |].
  simpl in Hrun, Hnd. apply NoDup_cons in Hnd as [HT Hnd].
  destruct (evaluate_coalition _ _ _ _ _ _ s opts st T) as [st1 |] eqn:Hstep;
    [| discriminate].
  destruct Hin as [-> | Hin].
  - destruct (step_unsolved _ _ _ _ _ _ _ _ st st1 S oa Ha Hs Hstep)
      as (_ & ci & E & Hce & Hpc & Hoa & Hv & Hp).
    destruct (run_frame _ _ _ _ _ _ _ _ l st1 st' (make_id S) Hrun) as [_ E'].
    { intros H. apply HT. now apply list_elem_of_In. }
    exists ci. rewrite E', E, Hv, Hp, Hfresh. repeat split; assumption.
  - apply (IH st1); try assumption.
    destruct (step_frame _ _ _ _ _ _ _ _ st st1 T (make_id S) Hstep)
      as [_ E]; [| now rewrite E].
    intros Heq. apply HT. rewrite <- Heq.
    apply list_elem_of_In, in_map, Hin.
Qed.

(** X13.  In the result of [analyze_coalitions], the record of an
    enumerated coalition whose placement problem came back unsolved holds
    the returned allocation, an empty core flag set and no payoffs, and its
    [value] field is still the NaN of the constructor: the value
    [-numeric_limits::min()] goes to the game object only. *)
Theorem unsolved_coalition_record_keeps_nan_and_no_payoffs
    (s : scenario) (opts : options) (formed : coalition_formation_info)
    (S : list nat) (oa : optimal_allocation_info) :
  analyze s opts = Some formed ->
  In S (lexicographic_subsets (num_cips s)) ->
  alloc s opts S = Some oa -> solved oa = false ->
  exists ci, fc_coalitions formed !! make_id S = Some ci /\
             value ci = NaN /\ payoffs ci = ∅ /\
             core_empty ci = true /\ payoffs_in_core ci = false /\
             optimal_allocation ci = oa.
Proof.
  unfold analyze_coalitions. intros H Hin Ha Hs.
  destruct (run s opts initial_state _) as [st |] eqn:Hrun; [| discriminate].
  assert (Hv : fc_coalitions formed = visited st).
  { destruct (coalition_formation opts); simpl in H;
      repeat match type of H with
             | _ <$> ?x = Some _ => destruct x; simpl in H
             end;
      inversion H; reflexivity. }
  rewrite Hv.
  apply (run_unsolved_fresh s opts _ initial_state st S oa Hrun); auto.
  apply lexicographic_subsets_distinct.
Qed.

Lemma report_none_without_singleton_payoff
    (ncips : nat) (formed : coalition_formation_info) (c : nat) :
  (c < ncips)%nat -> payoff_at formed (make_id [c]) c = None ->
  report ncips formed = None.
Proof.
  intros Hc Hp. unfold report.
  destruct (mapM _ _); [| reflexivity].
  unfold report_singletons.
  rewrite (fold_throwing_none _ _ _ c); [reflexivity | apply in_seq; lia |].
  intros a0. now rewrite Hp.
Qed.

Lemma iterations_positive (opts : options) :
  exists k, iterations opts = Datatypes.S k.
Proof.
  unfold iterations. destruct (rnd_gen_vms opts); [| now exists 0%nat].
  destruct (rnd_num_iters opts) as [| n]; [now exists 0%nat |].
  exists n. simpl. reflexivity.
Qed.

Variable scen : scenario.
Variable opts : options.

Local Abbreviation wrk :=
  (wrk_scen rvg_vms rvg_pm_power_state rvg_pm_on_off_time
     rvg_vm_migration_time scen opts).
Local Abbreviation experiment :=
  (run_experiment rvg_vms rvg_pm_power_state rvg_pm_on_off_time
     rvg_vm_migration_time definitely_greater definitely_less
     essentially_equal be solve core_is_empty value_division belongs_to_core
     scen opts).
Local Abbreviation block :=
  (csv_block rvg_vms rvg_pm_power_state rvg_pm_on_off_time
     rvg_vm_migration_time definitely_greater definitely_less
     essentially_equal be solve core_is_empty value_division belongs_to_core
     scen opts).
Local Abbreviation iterate :=
  (run_iterations rvg_vms rvg_pm_power_state rvg_pm_on_off_time
     rvg_vm_migration_time definitely_greater definitely_less
     essentially_equal be solve core_is_empty value_division belongs_to_core
     scen opts).

(** X14.  One provider that cannot be served alone stops the program.  If
    in the first iteration the placement problem of the coalition made of
    a single provider comes back unsolved, [run_experiment] does not
    return: the record of that coalition has no payoffs, and [report]
    reads them with [at] (unless an earlier exception has already left the
    analysis); nothing is written to the CSV file. *)
Theorem unsolved_singleton_stops_the_experiment
    (csv : list (list Csv.field)) (c : nat) (oa : optimal_allocation_info) :
  (c < num_cips (wrk 1%nat))%nat ->
  alloc (wrk 1%nat) opts [c] = Some oa -> solved oa = false ->
  experiment csv = (csv, false).
Proof.
  intros Hc Ha Hs. unfold run_experiment.
  destruct (iterations_positive opts) as [k ->].
  cbn [seq run_iterations]. unfold run_iteration.
  destruct (formed_coalitions _ _ _ _ _ _ _ _ _ _ _ _ scen opts 1)
    as [formed |] eqn:Hf; [| reflexivity].
  assert (Hin : In [c] (lexicographic_subsets (num_cips (wrk 1%nat))))
    by now apply singleton_is_enumerated.
  unfold formed_coalitions in Hf. unfold analyze_coalitions in Hf.
  destruct (run (wrk 1%nat) opts initial_state _) as [st |] eqn:Hrun;
    [| discriminate].
  assert (Hv : fc_coalitions formed = visited st).
  { destruct (coalition_formation opts); simpl in Hf;
      repeat match type of Hf with
             | _ <$> ?x = Some _ => destruct x; simpl in Hf
             end;
      inversion Hf; reflexivity. }
  destruct (run_unsolved_fresh (wrk 1%nat) opts _ initial_state st [c] oa Hrun)
    as (ci & Eci & _ & Hp & _); auto.
  { apply lexicographic_subsets_distinct. }
  rewrite (report_none_without_singleton_payoff _ formed c Hc); [reflexivity |].
  unfold payoff_at, record_at. rewrite Hv, Eci, Hp. apply lookup_empty.
Qed.

Lemma run_iteration_writes (csv csv' : list (list Csv.field)) (i : nat) :
  run_iteration rvg_vms rvg_pm_power_state rvg_pm_on_off_time
    rvg_vm_migration_time definitely_greater definitely_less
    essentially_equal be solve core_is_empty value_division belongs_to_core
    scen opts csv i = (csv', true) ->
  String.eqb (csv_fname opts) "" = false ->
  csv' = (if (1 <? i)%nat then csv else []) ++ block i.
Proof.
  unfold run_iteration, csv_block. intros H Hname.
  destruct (formed_coalitions _ _ _ _ _ _ _ _ _ _ _ _ scen opts i)
    as [formed |]; [| discriminate].
  destruct (report _ formed); [| discriminate].
  rewrite Hname in H. injection H as <-. reflexivity.
Qed.

Lemma run_iterations_appends (l : list nat) (csv csv' : list (list Csv.field)) :
  Forall (fun i => 1 < i)%nat l ->
  iterate csv l = (csv', true) ->
  String.eqb (csv_fname opts) "" = false ->
  csv' = csv ++ flat_map block l.
Proof.
  intros Hl. revert csv. induction Hl as [| i l Hi _ IH]; intros csv H Hname.
  - simpl in H. injection H as <-. now rewrite app_nil_r.
  - cbn [run_iterations] in H.
    destruct (run_iteration _ _ _ _ _ _ _ _ _ _ _ _ scen opts csv i)
      as [csv1 [|]] eqn:E; [| discriminate].
    apply run_iteration_writes in E; [| exact Hname].
    rewrite (proj2 (Nat.ltb_lt 1 i) Hi) in E. subst csv1.
    rewrite (IH _ H Hname). simpl. now rewrite <- app_assoc.
Qed.

(** X15.  When [run_experiment] returns and a CSV file was asked for, the
    file holds the blocks of the iterations in order and nothing else: the
    first iteration opens it without appending, so that whatever it held
    is lost, and writes the header line and its coalitions; each later
    iteration appends a separator line and its coalitions. *)
Theorem csv_file_holds_one_block_per_iteration
    (csv csv' : list (list Csv.field)) :
  experiment csv = (csv', true) ->
  String.eqb (csv_fname opts) "" = false ->
  csv' = flat_map block (seq 1 (iterations opts)).
Proof.
  unfold run_experiment.
  destruct (iterations_positive opts) as [k ->]. intros H Hname.
  cbn [seq run_iterations] in H.
  destruct (run_iteration _ _ _ _ _ _ _ _ _ _ _ _ scen opts csv 1)
    as [csv1 [|]] eqn:E; [| discriminate].
  apply run_iteration_writes in E; [| exact Hname].
  change (1 <? 1)%nat with false in E. simpl in E. subst csv1.
  apply run_iterations_appends in H; [exact H | | exact Hname].
  apply List.Forall_forall. intros i Hi. apply in_seq in Hi. lia.
Qed.

End ExperimentFacts.

Lemma random_on_off_costs_are_equal_and_not_negative_witness :
  Evaluator.rnd_gen_pm_on_off_costs Cases.all_random = true /\
  cip_pm_asleep_costs
    (Experiment.working_scenario Cases.all_vms Cases.always_on
       Cases.unit_time Cases.unit_migration_time Sample.scen 1
       Cases.all_random)
  = cip_pm_awake_costs
      (Experiment.working_scenario Cases.all_vms Cases.always_on
         Cases.unit_time Cases.unit_migration_time Sample.scen 1
         Cases.all_random) /\
  at2 0
    (cip_pm_asleep_costs
       (Experiment.working_scenario Cases.all_vms Cases.always_on
          Cases.unit_time Cases.unit_migration_time Sample.scen 1
          Cases.all_random)) 1 0
  = qmax (Cases.unit_time 1%nat 1%nat 0%nat
          * (at1 0 (pm_spec_max_powers Sample.scen) 0 * Q2Qc (1 # 1000)
             * at1 0 (cip_electricity_costs Sample.scen) 1)) 0.
Proof.
  split; [reflexivity |].
  destruct (random_on_off_costs_are_equal_and_not_negative
              Cases.all_vms Cases.always_on Cases.unit_time
              Cases.unit_migration_time Sample.scen 1 Cases.all_random
              eq_refl) as (Heq & _ & _ & Hval).
  split; [exact Heq |].
  apply Hval; simpl; lia.
Defined.

Lemma random_migration_costs_shape_and_sign_witness :
  Evaluator.rnd_gen_vm_migration_costs Cases.all_random = true /\
  forall c v,
    at3 0
      (cip_to_cip_vm_migration_costs
         (Experiment.working_scenario Cases.all_vms Cases.always_on
            Cases.unit_time Cases.unit_migration_time Sample.scen 1
            Cases.all_random)) c c v = 0.
Proof.
  split; [reflexivity |].
  exact (proj1 (proj2 (proj2
           (random_migration_costs_shape_and_sign
              Cases.all_vms Cases.always_on Cases.unit_time
              Cases.unit_migration_time Sample.scen 1 Cases.all_random
              eq_refl)))).
Defined.


Lemma report_needs_every_singleton_payoff_witness :
  Report.report 1 Cases.formed_lone = Some Cases.report_lone /\
  (0 < 1)%nat /\
  exists ci x,
    Formation.fc_coalitions Cases.formed_lone !! Evaluator.make_id [0%nat]
    = Some ci /\
    Evaluator.payoffs ci !! 0%nat = Some x.
Proof.
  assert (H : Report.report 1 Cases.formed_lone = Some Cases.report_lone)
    by (vm_compute; reflexivity).
  split; [exact H | split; [lia |]].
  apply (report_needs_every_singleton_payoff 1 Cases.formed_lone
           Cases.report_lone 0 H). lia.
Defined.

Lemma unsolved_coalition_record_keeps_nan_and_no_payoffs_witness :
  Cases.analysis Sample.scen Cases.social = Some Cases.formed_social /\
  Solver.solved Sample.allocation_0 = false /\
  exists ci,
    Formation.fc_coalitions Cases.formed_social !! Evaluator.make_id [0%nat]
    = Some ci /\
    Evaluator.value ci = NaN /\ Evaluator.payoffs ci = ∅ /\
    Evaluator.core_empty ci = true /\ Evaluator.payoffs_in_core ci = false /\
    Evaluator.optimal_allocation ci = Sample.allocation_0.
Proof.
  assert (H : Cases.analysis Sample.scen Cases.social
              = Some Cases.formed_social) by (vm_compute; reflexivity).
  split; [exact H | split; [reflexivity |]].
  apply (unsolved_coalition_record_keeps_nan_and_no_payoffs
           Sample.dg Sample.dl Cases.same Solver.CPLEX Sample.backend_answers
           Sample.no_core Sample.alone_division Sample.not_in_core
           Sample.scen Cases.social Cases.formed_social [0%nat]
           Sample.allocation_0 H).
  - vm_compute. tauto.
  - vm_compute. reflexivity.
  - reflexivity.
Defined.

Lemma unsolved_singleton_stops_the_experiment_witness :
  Solver.solved Sample.allocation_0 = false /\
  Cases.experiment Sample.scen Evaluator.new_options [] = ([], false).
Proof.
  split; [reflexivity |].
  apply (unsolved_singleton_stops_the_experiment
           Cases.all_vms Cases.always_on Cases.unit_time
           Cases.unit_migration_time Sample.dg Sample.dl Cases.same
           Solver.CPLEX Sample.backend_answers Sample.no_core
           Sample.alone_division Sample.not_in_core Sample.scen
           Evaluator.new_options [] 0 Sample.allocation_0).
  - vm_compute. lia.
  - vm_compute. reflexivity.
  - reflexivity.
Defined.

Lemma csv_file_holds_one_block_per_iteration_witness :
  Experiment.run_experiment Cases.all_vms Cases.always_on Cases.unit_time
    Cases.unit_migration_time Sample.dg Sample.dl Cases.same Solver.CPLEX
    Sample.backend_answers Sample.no_core Sample.alone_division
    Sample.not_in_core Cases.lone Cases.all_random []
  = (Cases.csv_lone, true) /\
  Cases.csv_lone
  = flat_map
      (Experiment.csv_block Cases.all_vms Cases.always_on Cases.unit_time
         Cases.unit_migration_time Sample.dg Sample.dl Cases.same
         Solver.CPLEX Sample.backend_answers Sample.no_core
         Sample.alone_division Sample.not_in_core Cases.lone
         Cases.all_random)
      (seq 1 (Experiment.iterations Cases.all_random)).
Proof.
  assert (H : Experiment.run_experiment Cases.all_vms Cases.always_on
                Cases.unit_time Cases.unit_migration_time Sample.dg Sample.dl
                Cases.same Solver.CPLEX Sample.backend_answers Sample.no_core
                Sample.alone_division Sample.not_in_core Cases.lone
                Cases.all_random []
              = (Cases.csv_lone, true)) by (vm_compute; reflexivity).
  split; [exact H |].
  exact (csv_file_holds_one_block_per_iteration
           Cases.all_vms Cases.always_on Cases.unit_time
           Cases.unit_migration_time Sample.dg Sample.dl Cases.same
           Solver.CPLEX Sample.backend_answers Sample.no_core
           Sample.alone_division Sample.not_in_core Cases.lone
           Cases.all_random [] Cases.csv_lone H eq_refl).
Defined.

(** * The lines of the CSV file *)

Section CsvShape.

Import Evaluator Csv.

Lemma sorted_cids_NoDup (m : gmap N coalition_info) : NoDup (sorted_cids m).
Proof.
  unfold sorted_cids. rewrite merge_sort_Permutation.
  apply NoDup_fst_map_to_list.
Qed.

Lemma strictly_ascending (l : list N) :
  StronglySorted N.le l -> NoDup l -> StronglySorted N.lt l.
Proof.
  induction 1 as [| a l Hs IH Ha]; intros Hnd; [constructor |].
  apply NoDup_cons in Hnd as [Hin Hnd]. constructor; [now apply IH |].
  apply List.Forall_forall. intros b Hb.
  assert (a <> b) by (intros ->; apply Hin; now apply list_elem_of_In).
  rewrite List.Forall_forall in Ha. specialize (Ha b Hb). lia.
Qed.

Lemma exported_rows_map (ncips : nat) (m : gmap N coalition_info) :
  exported_rows ncips m
  = map (fun c => export_row ncips c (default new_coalition_info (m !! c)))
      (sorted_cids m).
Proof.
  unfold exported_rows.
  assert (H : forall c, c ∈ sorted_cids m -> is_Some (m !! c))
    by (intros c; apply elem_of_sorted_cids).
  induction (sorted_cids m) as [| c l IH]; [reflexivity |].
  cbn [omap list_omap map].
  destruct (H c) as [ci Hci]; [left |]. rewrite Hci. simpl. f_equal.
  apply IH. intros c' Hc'. apply H. now right.
Qed.

(** X16.  The coalition lines of the CSV file are in strictly ascending
    order of the coalition identifier, one line for each record of the
    table and no other; the identifier is the first field of the line. *)
Theorem csv_lines_ascend_by_identifier
    (ncips : nat) (coalitions : gmap N coalition_info) :
  exists ids,
    StronglySorted N.lt ids /\
    (forall c, In c ids <-> is_Some (coalitions !! c)) /\
    map (fun line => hd Blank line) (exported_rows ncips coalitions)
    = map Ident ids /\
    length (exported_rows ncips coalitions) = size coalitions.
Proof.
  exists (sorted_cids coalitions). split; [| split; [| split]].
  - apply strictly_ascending; [| apply sorted_cids_NoDup].
    unfold sorted_cids. apply StronglySorted_merge_sort.
    + intros a b c. apply N.le_trans.
    + intros a b. lia.
  - intros c. rewrite <- list_elem_of_In. apply elem_of_sorted_cids.
  - rewrite exported_rows_map, map_map. apply map_ext.
    intros c. rewrite export_row_shape. reflexivity.
  - rewrite exported_rows_map, length_map. unfold sorted_cids.
    rewrite merge_sort_Permutation, length_map.
    apply length_map_to_list.
Qed.

(** X17.  Field counts of the CSV file.  The header and every coalition
    line have one field per provider and two more (identifier and value);
    the separator line written when appending has one field less than
    they have, and what the file held before is kept in front of it. *)
Theorem csv_lines_field_counts
    (before : list (list field)) (ncips : nat)
    (coalitions : gmap N coalition_info) :
  Forall (fun line => length line = (ncips + 2)%nat)
    (export_csv before ncips coalitions false) /\
  exists separator rows,
    export_csv before ncips coalitions true = before ++ separator :: rows /\
    length separator = (ncips + 1)%nat /\
    Forall (fun line => length line = (ncips + 2)%nat) rows.
Proof.
  assert (Hrows : Forall (fun line => length line = (ncips + 2)%nat)
                    (exported_rows ncips coalitions)).
  { rewrite exported_rows_map. apply List.Forall_forall.
    intros line Hin. apply in_map_iff in Hin as (c & <- & _).
    rewrite export_row_shape. simpl.
    rewrite length_app, length_map, length_seq. simpl. lia. }
  split.
  - unfold export_csv. simpl. constructor; [| exact Hrows].
    simpl. rewrite length_app, length_map, length_seq. simpl. lia.
  - eexists _, _. split; [reflexivity |]. split; [| exact Hrows].
    simpl. apply length_replicate.
Qed.

End CsvShape.

(** * The arrays of a coalition *)

Section CoalitionArrays.

Import Solver Evaluator.

Variable s : scenario.

Lemma fold_left_count (cnt : nat -> nat) (l : list nat) (acc : nat) :
  fold_left (fun a p => (a + cnt p)%nat) l acc
  = (acc + list_sum (map cnt l))%nat.
Proof.
  revert acc. induction l as [| p l IH]; intros acc; simpl; [lia |].
  rewrite IH. lia.
Qed.

Lemma fold_left_count2 (cnt : nat -> nat -> nat) (T : nat) (coal : list nat)
    (acc : nat) :
  fold_left
    (fun acc cip => fold_left (fun a p => (a + cnt cip p)%nat) (seq 0 T) acc)
    coal acc
  = (acc + list_sum (map (fun cip => list_sum (map (cnt cip) (seq 0 T)))
                       coal))%nat.
Proof.
  revert acc. induction coal as [| cip l IH]; intros acc; simpl; [lia |].
  rewrite IH, fold_left_count. lia.
Qed.

Lemma length_flat_map2 {A} (cnt : nat -> nat -> nat)
    (body : nat -> nat -> list A) (T : nat) (coal : list nat) :
  (forall cip p, length (body cip p) = cnt cip p) ->
  length (flat_map (fun cip => flat_map (body cip) (seq 0 T)) coal)
  = list_sum (map (fun cip => list_sum (map (cnt cip) (seq 0 T))) coal).
Proof.
  intros Hbody.
  assert (Hrow : forall cip ps,
             length (flat_map (body cip) ps) = list_sum (map (cnt cip) ps)).
  { intros cip ps. induction ps as [| p ps IHp]; simpl; [reflexivity |].
    now rewrite length_app, Hbody, IHp. }
  induction coal as [| cip l IH]; simpl; [reflexivity |].
  now rewrite length_app, IH, Hrow.
Qed.

Lemma Forall_flat_map2 {A} (P : A -> Prop) (body : nat -> nat -> list A)
    (T : nat) (coal : list nat) :
  (forall cip p, In cip coal -> (p < T)%nat -> Forall P (body cip p)) ->
  Forall P (flat_map (fun cip => flat_map (body cip) (seq 0 T)) coal).
Proof.
  intros Hbody. apply List.Forall_forall. intros x Hx.
  apply in_flat_map in Hx as (cip & Hcip & Hx).
  apply in_flat_map in Hx as (p & Hp & Hx). apply in_seq in Hp.
  specialize (Hbody cip p Hcip ltac:(lia)).
  rewrite List.Forall_forall in Hbody. now apply Hbody.
Qed.

Lemma Forall_replicate_same {A} (P : A -> Prop) (n : nat) (x : A) :
  P x -> Forall P (replicate n x).
Proof. intros Hx. induction n; simpl; constructor; assumption. Qed.

(** X18.  The arrays handed to [find_optimal_allocation] for a coalition
    agree with one another: the owner, category and power-state arrays of
    the PMs have [coal_npms] entries, the owner and category arrays of the
    VMs have [coal_nvms] entries, every owner is a member of the coalition
    and every category is a PM type, respectively a VM type, of the
    scenario. *)
Theorem coalition_arrays_agree (opts : options) (coal : list nat) :
  let inp := coalition_input s opts coal in
  in_ncips inp = length coal /\
  (length (in_pms_cip inp) = in_npms inp /\
   length (in_pms_category inp) = in_npms inp /\
   length (in_pm_power_states inp) = in_npms inp) /\
  (length (in_vms_cip inp) = in_nvms inp /\
   length (in_vms_category inp) = in_nvms inp) /\
  (Forall (fun c => In c coal) (in_pms_cip inp) /\
   Forall (fun c => In c coal) (in_vms_cip inp)) /\
  Forall (fun t => t < num_pm_types s)%nat (in_pms_category inp) /\
  Forall (fun t => t < num_vm_types s)%nat (in_vms_category inp).
Proof.
  cbv zeta. simpl.
  unfold coal_npms, coal_nvms, coal_pms_cips, coal_pms_category,
    coal_pm_power_states, coal_vms_cips, coal_vms_category.
  rewrite !fold_left_count2. simpl.
  split; [reflexivity |]. split; [| split; [| split; [| split]]].
  - split; [| split]; apply length_flat_map2; intros cip p.
    + apply length_replicate.
    + apply length_replicate.
    + now rewrite length_map, length_seq.
  - split; apply length_flat_map2; intros cip p; apply length_replicate.
  - split; apply Forall_flat_map2; intros cip p Hcip _;
      now apply Forall_replicate_same.
  - apply Forall_flat_map2. intros cip p _ Hp.
    now apply Forall_replicate_same.
  - apply Forall_flat_map2. intros cip p _ Hp.
    now apply Forall_replicate_same.
Qed.

End CoalitionArrays.

(** * The table of coalition records *)

Section AnalysisFacts.

Import Solver Evaluator Selectors Formation.

Variable definitely_greater : real -> real -> bool.
Variable definitely_less : real -> real -> bool.
Variable essentially_equal : real -> real -> bool.
Variable be : backend.
Variable solve : milp -> option solver_result.
Variable core_is_empty : gmap N real -> list nat -> bool.
Variable value_division :
  coalition_value_division_category -> gmap N real -> list nat -> gmap nat real.
Variable belongs_to_core : gmap N real -> list nat -> gmap nat real -> bool.
Variable s : scenario.
Variable opts : options.

Local Abbreviation step :=
  (evaluate_coalition definitely_greater be solve core_is_empty
     value_division belongs_to_core s opts).
Local Abbreviation run :=
  (evaluate_all definitely_greater be solve core_is_empty
     value_division belongs_to_core s opts).
Local Abbreviation analyze :=
  (analyze_coalitions definitely_greater definitely_less essentially_equal be
     solve core_is_empty value_division belongs_to_core).

Lemma analyze_coalitions_visited (formed : coalition_formation_info) :
  analyze s opts = Some formed ->
  exists st,
    run initial_state (lexicographic_subsets (num_cips s)) = Some st /\
    fc_coalitions formed = visited st.
Proof.
  unfold analyze_coalitions. intros H.
  destruct (run initial_state _) as [st |]; [| discriminate].
  exists st. split; [reflexivity |].
  destruct (coalition_formation opts); simpl in H;
    repeat match type of H with
           | _ <$> ?x = Some _ => destruct x; simpl in H
           end;
    inversion H; reflexivity.
Qed.

(** What a pass leaves in the record of its coalition, besides the
    values: the [cid] field as it was, and core flags that agree. *)
Lemma step_record (st st' : eval_state) (S : list nat) :
  step st S = Some st' ->
  exists ci,
    visited st' !! make_id S = Some ci /\
    cid ci = cid (default new_coalition_info (visited st !! make_id S)) /\
    (payoffs_in_core ci = true -> core_empty ci = false).
Proof.
  intros Hstep. unfold evaluate_coalition in Hstep.
  destruct (allocation_of _ _ _ s opts S) as [oa |]; [| discriminate].
  destruct (solved oa); inversion Hstep; subst st'; clear Hstep; simpl.
  - destruct (core_is_empty _ S);
      repeat (rewrite update_info_eq; simpl);
      try destruct (belongs_to_core _ _ _);
      repeat (rewrite update_info_eq; simpl);
      eexists; (split; [reflexivity |]); simpl; split;
      try reflexivity; try discriminate; intros; reflexivity.
  - repeat (rewrite update_info_eq; simpl).
    eexists. split; [reflexivity |]. simpl. split; [reflexivity |].
    discriminate.
Qed.

Lemma run_records (l : list (list nat)) (st st' : eval_state) :
  run st l = Some st' ->
  (forall c ci, visited st !! c = Some ci ->
     cid ci = 0%N /\ (payoffs_in_core ci = true -> core_empty ci = false)) ->
  forall c ci, visited st' !! c = Some ci ->
    cid ci = 0%N /\ (payoffs_in_core ci = true -> core_empty ci = false).
Proof.
  revert st. induction l as [| S l IH]; intros st Hrun Hinv; simpl in Hrun.
  - inversion Hrun; subst. exact Hinv.
  - destruct (step st S) as [st1 |] eqn:Hstep; [| discriminate].
    apply (IH st1 Hrun). intros c ci Hci.
    destruct (decide (c = make_id S)) as [-> | Hne].
    + destruct (step_record st st1 S Hstep) as (ci' & E & Hcid & Hcore).
      rewrite E in Hci. injection Hci as <-. split; [| exact Hcore].
      rewrite Hcid. destruct (visited st !! make_id S) as [ci0 |] eqn:E0.
      * now apply (Hinv _ _ E0).
      * reflexivity.
    + destruct (step_frame _ _ _ _ _ _ _ _ st st1 S c Hstep Hne) as [_ E].
      rewrite E in Hci. now apply (Hinv c).
Qed.

(** X19.  In the table that [analyze_coalitions] returns, no record says
    that its payoffs are in the core while saying that the core is empty,
    and the [cid] field of every record is still the empty-coalition
    identifier 0 of the constructor: the evaluation never assigns it, the
    identifier of a coalition is the key of its record only. *)
Theorem records_keep_core_flags_and_no_identifier
    (formed : coalition_formation_info) (c : N) (ci : coalition_info) :
  analyze s opts = Some formed ->
  fc_coalitions formed !! c = Some ci ->
  cid ci = 0%N /\ (payoffs_in_core ci = true -> core_empty ci = false).
Proof.
  intros H Hci.
  destruct (analyze_coalitions_visited formed H) as (st & Hrun & Hv).
  rewrite Hv in Hci.
  apply (run_records _ initial_state st Hrun) with (c := c); [| exact Hci].
  intros c' ci' Hc'. simpl in Hc'. rewrite lookup_empty in Hc'. discriminate.
Qed.

Lemma run_domain (l : list (list nat)) (st st' : eval_state) (c : N) :
  run st l = Some st' ->
  is_Some (visited st' !! c) <->
  is_Some (visited st !! c) \/ In c (map make_id l).
Proof.
  revert st. induction l as [| S l IH]; intros st Hrun; simpl in Hrun.
  - inversion Hrun; subst. simpl. tauto.
  - destruct (step st S) as [st1 |] eqn:Hstep; [| discriminate].
    rewrite (IH st1 Hrun). simpl.
    destruct (decide (c = make_id S)) as [-> | Hne].
    + pose proof (step_visits _ _ _ _ _ _ _ _ st st1 S Hstep). tauto.
    + destruct (step_frame _ _ _ _ _ _ _ _ st st1 S c Hstep Hne) as [_ E].
      rewrite E. split; [tauto |]. intros [? | [? | ?]]; auto. congruence.
Qed.

(** X20.  The table that [analyze_coalitions] returns has a record for
    every non-empty coalition of the providers and for nothing else: its
    keys are the identifiers [1 .. 2^n - 1] for [n] providers, so it holds
    [2^n - 1] records. *)
Theorem every_coalition_has_one_record (formed : coalition_formation_info) :
  analyze s opts = Some formed ->
  (forall c, is_Some (fc_coalitions formed !! c) <->
             (1 <= c < 2 ^ N.of_nat (num_cips s))%N) /\
  size (fc_coalitions formed) = (2 ^ num_cips s - 1)%nat.
Proof.
  intros H.
  destruct (analyze_coalitions_visited formed H) as (st & Hrun & Hv).
  rewrite Hv.
  assert (Hkeys : forall c, is_Some (visited st !! c) <->
                            In c (map N.of_nat (seq 1 (2 ^ num_cips s - 1)))).
  { intros c. rewrite (run_domain _ initial_state st c Hrun).
    rewrite lexicographic_subsets_ids. simpl. rewrite lookup_empty.
    split; [intros [[x Hx] | Hin]; [discriminate | exact Hin] | tauto]. }
  split.
  - intros c. rewrite Hkeys, in_map_iff.
    assert (Hpow : (2 ^ N.of_nat (num_cips s))%N = N.of_nat (2 ^ num_cips s))
      by (rewrite Nat2N.inj_pow; reflexivity).
    assert (Hpos : (0 < 2 ^ num_cips s)%nat)
      by (apply Nat.neq_0_lt_0, Nat.pow_nonzero; lia).
    rewrite Hpow. split.
    + intros (k & <- & Hk). apply in_seq in Hk. lia.
    + intros Hc. exists (N.to_nat c). split; [lia |]. apply in_seq. lia.
  - rewrite <- size_dom.
    assert (Hdom : dom (visited st)
                   = list_to_set (map N.of_nat (seq 1 (2 ^ num_cips s - 1)))).
    { apply set_eq. intros c. rewrite elem_of_dom, Hkeys.
      rewrite elem_of_list_to_set, list_elem_of_In. reflexivity. }
    rewrite Hdom, size_list_to_set.
    + now rewrite length_map, length_seq.
    + apply NoDup_ListNoDup. apply Finite.Injective_map_NoDup.
      * intros a b Hab. lia.
      * apply seq_NoDup.
Qed.

End AnalysisFacts.

(** * The energy consumption of a coalition *)

Section KwattFacts.

Import Solver Evaluator.

Variable s : scenario.

Lemma fold_left_cond_sum {A} (b : A -> bool) (f : A -> Qc) (l : list A)
    (acc : Qc) :
  fold_left (fun a v => if b v then a + f v else a) l acc
  = acc + qsum (map (fun v => if b v then f v else 0) l).
Proof.
  revert acc. induction l as [| v l IH]; intros acc; simpl; [ring |].
  rewrite IH. destruct (b v); ring.
Qed.

Lemma fold_left_ext_in {A B} (f f' : A -> B -> A) (l : list B) (a : A) :
  (forall a b, In b l -> f a b = f' a b) ->
  fold_left f l a = fold_left f' l a.
Proof.
  revert a. induction l as [| b l IH]; intros a H; [reflexivity |].
  simpl. rewrite (H a b) by now left. apply IH.
  intros a' b' Hb'. apply H. now right.
Qed.

(** The sum of the entries of a per-provider table over the members. *)
Local Abbreviation members_sum coal m :=
  (qsum (map (fun cip : nat => default 0 ((m : gmap nat Qc) !! cip)) coal)).

Lemma members_sum_insert_other (coal : list nat) (m : gmap nat Qc)
    (c : nat) (x : Qc) :
  ~ In c coal -> members_sum coal (<[c := x]> m) = members_sum coal m.
Proof.
  induction coal as [| d l IH]; intros Hc; simpl; [reflexivity |].
  rewrite lookup_insert_ne by (intros ->; apply Hc; now left).
  rewrite IH; [reflexivity |]. intros H. apply Hc. now right.
Qed.

Lemma members_sum_add (coal : list nat) (m : gmap nat Qc) (c : nat) (x : Qc) :
  NoDup coal -> In c coal ->
  members_sum coal (<[c := default 0 (m !! c) + x]> m)
  = members_sum coal m + x.
Proof.
  induction 1 as [| d l Hd Hnd IH]; intros Hc; [destruct Hc |]. simpl.
  destruct (decide (d = c)) as [-> | Hne].
  - rewrite lookup_insert_eq. simpl.
    rewrite members_sum_insert_other
      by (intros H; apply Hd; now apply list_elem_of_In).
    ring.
  - rewrite lookup_insert_ne by congruence.
    destruct Hc as [-> | Hc]; [congruence |]. rewrite (IH Hc). ring.
Qed.

Lemma members_sum_zeroed (coal l : list nat) (m : gmap nat Qc) :
  (forall c, default 0 (m !! c) = 0) ->
  members_sum coal (fold_left (fun m cip => <[cip := 0]> m) l m) = 0.
Proof.
  revert m. induction l as [| d l IH]; intros m Hm; simpl.
  - induction coal as [| c coal IHc]; simpl; [reflexivity |].
    rewrite Hm, IHc. ring.
  - apply IH. intros c. destruct (decide (d = c)) as [-> | Hne].
    + now rewrite lookup_insert_eq.
    + rewrite lookup_insert_ne by exact Hne. apply Hm.
Qed.

Lemma members_sum_loop (coal : list nat) (on : nat -> bool)
    (owner : nat -> nat) (power : nat -> Qc) (l : list nat)
    (m : gmap nat Qc) :
  NoDup coal -> (forall p, In p l -> In (owner p) coal) ->
  members_sum coal
    (fold_left
       (fun m p =>
          if on p
          then <[owner p := default 0 (m !! owner p) + power p]> m
          else m)
       l m)
  = members_sum coal m + qsum (map (fun p => if on p then power p else 0) l).
Proof.
  intros Hnd. revert m. induction l as [| p l IH]; intros m Hown; simpl.
  - ring.
  - rewrite IH by (intros q Hq; apply Hown; now right).
    destruct (on p); [| ring].
    rewrite members_sum_add; [ring | exact Hnd | apply Hown; now left].
Qed.

Lemma coal_pms_cips_member (coal : list nat) (p : nat) :
  (p < coal_npms s coal)%nat -> In (at1 0%nat (coal_pms_cips s coal) p) coal.
Proof.
  intros Hp. unfold at1.
  assert (Hlen : length (coal_pms_cips s coal) = coal_npms s coal).
  { unfold coal_pms_cips, coal_npms. rewrite fold_left_count2. simpl.
    apply length_flat_map2. intros. apply length_replicate. }
  assert (Hall : Forall (fun c => In c coal) (coal_pms_cips s coal)).
  { apply Forall_flat_map2. intros cip t Hcip _.
    now apply Forall_replicate_same. }
  rewrite List.Forall_forall in Hall. apply Hall, nth_In. lia.
Qed.

(** X21.  The energy consumption recorded for a solved coalition, summed
    provider by provider through [coal_cips_info], is the total over the
    switched-on PMs of the coalition of the power each one draws for the
    CPU share of the VMs placed on it, in kW. *)
Theorem kwatt_is_the_power_of_the_switched_on_pms
    (opts : options) (coal : list nat) (oa : optimal_allocation_info) :
  NoDup coal ->
  let inp := coalition_input s opts coal in
  tot_kwatt s coal oa
  = sum_upto (in_npms inp)
      (fun p =>
         if powered oa p
         then pm_consumed_power
                (at1 0 (pm_spec_min_powers s) (g inp p))
                (at1 0 (pm_spec_max_powers s) (g inp p))
                (used_share inp (vm_spec_cpus s) oa p)
         else 0)
    * Q2Qc (1 # 1000).
Proof.
  intros Hnd. cbv zeta. unfold tot_kwatt.
  rewrite fold_left_plus_qsum.
  rewrite (fold_left_ext_in _
             (fun m p =>
                if powered oa p
                then <[at1 0%nat (coal_pms_cips s coal) p :=
                         default 0 (m !! at1 0%nat (coal_pms_cips s coal) p)
                         + pm_consumed_power
                             (at1 0 (pm_spec_min_powers s)
                                (g (coalition_input s opts coal) p))
                             (at1 0 (pm_spec_max_powers s)
                                (g (coalition_input s opts coal) p))
                             (used_share (coalition_input s opts coal)
                                (vm_spec_cpus s) oa p)]> m
                else m)).
  2:{ intros m p _. unfold powered.
      destruct (at1 false (pm_power_states oa) p); [| reflexivity].
      rewrite fold_left_cond_sum. unfold used_share, sum_upto, placed, g, q.
      simpl. do 3 f_equal. ring. }
  assert (E : forall m : gmap nat Qc,
             qsum (map (fun cip => default 0 (m !! cip) * Q2Qc (1 # 1000))
                     coal)
             = members_sum coal m * Q2Qc (1 # 1000)).
  { intros m. induction coal as [| c l IH]; simpl; [ring |].
    inversion Hnd; subst. rewrite IH by assumption. ring. }
  rewrite E, members_sum_loop; [| exact Hnd |].
  - rewrite members_sum_zeroed by (intros c; now rewrite lookup_empty).
    unfold sum_upto. simpl. ring.
  - intros p Hp. apply in_seq in Hp. apply coal_pms_cips_member. lia.
Qed.

End KwattFacts.

(** * Further properties of the selectors *)

Section SocialFacts.

Import Evaluator Selectors Formation.

Variable definitely_greater : real -> real -> bool.
Variable essentially_equal : real -> real -> bool.
Variable visited_coalitions : gmap N coalition_info.

Local Abbreviation sstep :=
  (social_step definitely_greater essentially_equal visited_coalitions).
Local Abbreviation srun :=
  (social_run definitely_greater essentially_equal visited_coalitions).
Local Abbreviation cand_of := (candidate visited_coalitions).

Lemma social_step_keeps (state : real * list partition_info)
    (subs : list (list nat)) (seen : list (list (list nat))) :
  (forall x, In x (snd state) -> exists t, In t seen /\ x = cand_of t) ->
  snd (sstep state subs) <> [] /\
  forall x, In x (snd (sstep state subs)) ->
    exists t, In t (seen ++ [subs]) /\ x = cand_of t.
Proof.
  intros Hseen. unfold social_step.
  destruct ((length (snd state) =? 0)%nat || _) eqn:E1; simpl.
  - split; [discriminate |]. intros x [<- | []].
    exists subs. split; [apply in_or_app; right; now left | reflexivity].
  - apply orb_false_iff in E1 as [E1 _]. apply Nat.eqb_neq in E1.
    destruct (essentially_equal _ _); simpl.
    + split; [destruct (snd state); [contradiction | discriminate] |].
      intros x Hx. apply in_app_or in Hx as [Hx | [<- | []]].
      * destruct (Hseen x Hx) as (t & Ht & ->). exists t.
        split; [apply in_or_app; now left | reflexivity].
      * exists subs. split; [apply in_or_app; right; now left | reflexivity].
    + split; [destruct (snd state); [contradiction | discriminate] |].
      intros x Hx. destruct (Hseen x Hx) as (t & Ht & ->). exists t.
      split; [apply in_or_app; now left | reflexivity].
Qed.

Lemma social_run_keeps (parts seen : list (list (list nat)))
    (state : real * list partition_info) :
  snd state <> [] ->
  (forall x, In x (snd state) -> exists t, In t seen /\ x = cand_of t) ->
  snd (srun parts state) <> [] /\
  forall x, In x (snd (srun parts state)) ->
    exists t, In t (seen ++ parts) /\ x = cand_of t.
Proof.
  revert seen state. induction parts as [| subs parts IH];
    intros seen state Hne Hseen.
  - simpl. split; [exact Hne |]. intros x Hx.
    destruct (Hseen x Hx) as (t & Ht & ->). exists t.
    split; [now rewrite app_nil_r | reflexivity].
  - unfold social_run. simpl.
    destruct (social_step_keeps state subs seen Hseen) as [Hne' Hseen'].
    destruct (IH (seen ++ [subs]) (sstep state subs) Hne' Hseen')
      as [Hout Hin].
    split; [exact Hout |]. intros x Hx.
    destruct (Hin x Hx) as (t & Ht & ->). exists t.
    split; [| reflexivity]. now rewrite <- app_assoc in Ht.
Qed.

(** X22.  The social-optimum selector never comes back empty-handed: as
    soon as one partition is enumerated it returns at least one, the first
    one being taken whatever its value is (a NaN included), and every
    partition it returns is the candidate built from an enumerated
    partition. *)
Theorem social_selector_returns_a_partition
    (subs : list (list nat)) (rest : list (list (list nat))) :
  let out :=
    snd (social_run definitely_greater essentially_equal visited_coalitions
           (subs :: rest) (Fin 0, [])) in
  out <> [] /\
  forall x, In x out ->
    exists t, In t (subs :: rest) /\ x = candidate visited_coalitions t.
Proof.
  cbv zeta. unfold social_run. simpl.
  assert (H0 : forall x, In x (snd (Fin 0, @nil partition_info)) ->
                 exists t, In t (@nil (list (list nat))) /\ x = cand_of t)
    by (intros x []).
  destruct (social_step_keeps (Fin 0, []) subs [] H0) as [Hne Hin].
  exact (social_run_keeps rest [subs] _ Hne Hin).
Qed.

(** X23.  A NaN in front blocks the social-optimum selector.  When the
    value of the first enumerated partition is NaN (one of its blocks has
    no solution) and the comparisons of [float_traits] are false on a NaN
    operand, [best_value] stays NaN and no later partition is taken or
    added: the selector returns the first partition alone. *)
Theorem social_selector_is_stuck_on_a_nan_start
    (subs : list (list nat)) (rest : list (list (list nat))) :
  (forall x, definitely_greater x NaN = false) ->
  (forall x, essentially_equal x NaN = false) ->
  candidate_partition_value visited_coalitions subs = NaN ->
  srun (subs :: rest) (Fin 0, []) = (NaN, [cand_of subs]).
Proof.
  intros Hdg Hee Hnan. unfold social_run. simpl.
  unfold social_step at 2. simpl. rewrite Hnan.
  induction rest as [| t rest IH]; [reflexivity |].
  simpl. unfold social_step at 2. simpl. rewrite Hdg, Hee. exact IH.
Qed.

End SocialFacts.

Section ParetoFirst.

Import Evaluator Selectors.

Variable visited_coalitions : gmap N coalition_info.

(** A running vector that is NaN from index [p] on gives way at every
    player still to be scanned. *)
Lemma pareto_scan_from_nan (cand : partition_info) (pids : list nat)
    (best best' : list real) (p : nat) (flag : bool) :
  (forall j, (p <= j)%nat -> nth j best NaN = NaN) ->
  pareto_scan cand best p pids = Some (best', flag) -> flag = true.
Proof.
  revert best p. induction pids as [| pid rest IH]; intros best p Hnan H.
  - simpl in H. now inversion H.
  - simpl in H. destruct (pi_payoffs cand !! pid) as [x |]; [| discriminate].
    rewrite (Hnan p) in H by lia. simpl in H.
    refine (IH _ _ _ H).
    intros j Hj. rewrite nth_lookup, list_lookup_insert_ne by lia.
    rewrite <- nth_lookup. apply Hnan. lia.
Qed.

Lemma pareto_run_appends (players : list nat)
    (parts : list (list (list nat)))
    (state state' : list real * list partition_info) :
  pareto_run visited_coalitions players state parts = Some state' ->
  exists tail, snd state' = snd state ++ tail.
Proof.
  revert state. induction parts as [| subs rest IH]; intros state H.
  - simpl in H. inversion H. exists []. now rewrite app_nil_r.
  - simpl in H.
    destruct (pareto_step visited_coalitions players state subs)
      as [state1 |] eqn:E; [| discriminate].
    destruct (IH state1 H) as [tail ->].
    unfold pareto_step in E.
    destruct (pareto_scan _ _ _ _) as [[b [|]] |]; inversion E; subst; simpl.
    + exists (candidate visited_coalitions subs :: tail).
      now rewrite <- app_assoc.
    + now exists tail.
Qed.

(** X24.  The Pareto selector always takes the first partition it is
    handed: the running vector starts as NaN for every player, and a NaN
    entry gives way to any payoff, a NaN payoff included.  Whenever the
    selector returns, its result therefore starts with the candidate of
    the first enumerated partition. *)
Theorem pareto_selector_takes_the_first_partition
    (players : list nat) (subs : list (list nat))
    (rest : list (list (list nat)))
    (state' : list real * list partition_info) :
  pareto_run visited_coalitions players
    (replicate (length players) NaN, []) (subs :: rest) = Some state' ->
  exists tail, snd state' = candidate visited_coalitions subs :: tail.
Proof.
  intros H. simpl in H.
  destruct (pareto_step visited_coalitions players _ subs)
    as [state1 |] eqn:E; [| discriminate].
  destruct (pareto_run_appends players rest state1 state' H) as [tail ->].
  unfold pareto_step in E. simpl in E.
  destruct (pareto_scan _ _ _ _) as [[b flag] |] eqn:Hscan; [| discriminate].
  assert (flag = true) as ->.
  { refine (pareto_scan_from_nan _ _ _ _ _ _ _ Hscan).
    intros j _. rewrite nth_lookup.
    destruct (decide (j < length players)%nat) as [Hj | Hj].
    - now rewrite lookup_replicate_2.
    - rewrite lookup_ge_None_2; [reflexivity |].
      rewrite length_replicate. lia. }
  inversion E; subst. simpl. now exists tail.
Qed.

End ParetoFirst.

Section MergeSplitSingleBlock.

Import Evaluator Selectors.

Lemma in_set_insert (x y : nat) (l : list nat) :
  In y (set_insert x l) <-> y = x \/ In y l.
Proof.
  induction l as [| z l IH]; simpl; [intuition congruence |].
  destruct (Nat.ltb_spec x z) as [Hlt | Hge]; simpl; [intuition congruence |].
  destruct (Nat.eqb_spec x z) as [-> | Hne]; simpl; [intuition congruence |].
  rewrite IH. intuition congruence.
Qed.

Lemma in_to_set (y : nat) (l : list nat) : In y (to_set l) <-> In y l.
Proof.
  induction l as [| x l IH]; simpl; [tauto |].
  rewrite in_set_insert, IH. intuition congruence.
Qed.

Lemma make_id_set_insert (x : nat) (l : list nat) :
  ~ In x l ->
  make_id (set_insert x l) = (2 ^ N.of_nat x + make_id l)%N.
Proof.
  induction l as [| z l IH]; intros Hx; simpl; [reflexivity |].
  destruct (Nat.ltb_spec x z) as [Hlt | Hge]; simpl; [reflexivity |].
  destruct (Nat.eqb_spec x z) as [-> | Hne]; [exfalso; apply Hx; now left |].
  simpl. rewrite IH by (intros H; apply Hx; now right). lia.
Qed.

(** The identifier does not depend on the order of the members. *)
Lemma make_id_to_set (l : list nat) :
  NoDup l -> make_id (to_set l) = make_id l.
Proof.
  induction 1 as [| x l Hx Hnd IH]; simpl; [reflexivity |].
  rewrite make_id_set_insert, IH; [reflexivity |].
  rewrite in_to_set. intros H. apply Hx. now apply list_elem_of_In.
Qed.

Lemma members_of_NoDup (n : nat) (k : N) : NoDup (members_of n k).
Proof. unfold members_of. apply NoDup_filter, NoDup_seq. Qed.

Variable definitely_less : real -> real -> bool.
Variable visited_coalitions : gmap N coalition_info.

Hypothesis definitely_less_irrefl : forall x, definitely_less x x = false.

(** X25.  The merge/split selector keeps every partition made of a single
    block that has a record, the grand coalition in particular: the split
    test compares the value of the block with the value of the first
    partition the enumerator hands out for it, which is the block itself,
    and the merge test compares it with the value of the union of its only
    family of blocks, the block again; a comparison of a value with itself
    is never "definitely less". *)
Theorem merge_split_keeps_a_single_block
    (np : nat) (sub : list nat) (ci : coalition_info) :
  visited_coalitions !! make_id sub = Some ci ->
  (make_id sub < 2 ^ N.of_nat np)%N ->
  merge_split_stable definitely_less visited_coalitions
    lexicographic_partitions lexicographic_subranges np [sub]
  = Some (candidate visited_coalitions [sub]).
Proof.
  intros Hci Hid. unfold merge_split_stable. simpl. rewrite Hci.
  unfold inspected_partition. rewrite first_partition_is_the_block.
  unfold sum_values at 1. cbn [map fold_left]. rewrite Hci, radd_0_l.
  rewrite definitely_less_irrefl.
  change (lexicographic_subranges [make_id sub]) with [[make_id sub]].
  unfold merge_pass. simpl. rewrite Hci, app_nil_r.
  rewrite make_id_to_set by apply members_of_NoDup.
  rewrite make_id_members_of, N.mod_small by exact Hid.
  rewrite Hci. unfold sum_values. cbn [fold_left]. rewrite Hci, radd_0_l.
  rewrite definitely_less_irrefl.
  unfold candidate, add_block. simpl. rewrite Hci. reflexivity.
Qed.

End MergeSplitSingleBlock.

(** * The sign of the cost of a placement *)

Section CostSign.

Import Solver Prices.

Variable definitely_greater : real -> real -> bool.
Variable be : backend.
Variable solve : milp -> option solver_result.

Local Abbreviation build := (build_model definitely_greater).
Local Abbreviation find := (find_optimal_allocation definitely_greater be solve).

Lemma nn_add (a b : Qc) : 0 <= a -> 0 <= b -> 0 <= a + b.
Proof. intros Ha Hb. qc_lra. Qed.

Lemma nth_nonneg (l : list Qc) (i : nat) :
  Forall (Qcle 0) l -> 0 <= nth i l 0.
Proof.
  intros H. destruct (nth_in_or_default i l 0) as [Hin | ->].
  - rewrite List.Forall_forall in H. now apply H.
  - apply Qcle_refl.
Qed.

Lemma nth_row {A} (P : list A -> Prop) (m : list (list A)) (i : nat) :
  P [] -> Forall P m -> P (nth i m []).
Proof.
  intros H0 H. destruct (nth_in_or_default i m []) as [Hin | ->];
    [| exact H0].
  rewrite List.Forall_forall in H. now apply H.
Qed.

Lemma at2_nonneg (m : list (list Qc)) (i j : nat) :
  Forall (Forall (Qcle 0)) m -> 0 <= at2 0 m i j.
Proof.
  intros H. unfold at2. apply nth_nonneg.
  apply (nth_row (Forall (Qcle 0))); [constructor | exact H].
Qed.

Lemma at3_nonneg (c : list (list (list Qc))) (i j k : nat) :
  Forall (Forall (Forall (Qcle 0))) c -> 0 <= at3 0 c i j k.
Proof.
  intros H. unfold at3. apply nth_nonneg.
  apply (nth_row (Forall (Qcle 0))); [constructor |].
  apply (nth_row (Forall (Forall (Qcle 0)))); [constructor | exact H].
Qed.

Lemma min_max_power (lo hi : list Qc) (t : nat) :
  Forall2 (fun a b => 0 <= a /\ a <= b) lo hi ->
  0 <= at1 0 lo t /\ at1 0 lo t <= at1 0 hi t.
Proof.
  unfold at1. intros H. revert t.
  induction H as [| a b lo hi Hab _ IH]; intros [| t]; simpl;
    try (split; apply Qcle_refl); [exact Hab | apply IH].
Qed.

Lemma qsum_nonneg (f : nat -> Qc) (l : list nat) :
  (forall i, In i l -> 0 <= f i) -> 0 <= qsum (map f l).
Proof.
  induction l as [| a l IH]; intros H; simpl; [apply Qcle_refl |].
  apply nn_add; [apply H; now left |].
  apply IH. intros i Hi. apply H. now right.
Qed.

Lemma feasible_share (inp : allocation_input) (sigma : var -> Qc) (h : nat) :
  feasible (build inp) sigma -> (h < in_npms inp)%nat ->
  0 <= sigma (S h) /\ sigma (S h) <= 1.
Proof.
  intros [Hk _] Hh. simpl in Hk. unfold variables in Hk.
  apply Forall_app in Hk. destruct Hk as [_ Hk].
  apply Forall_app in Hk. destruct Hk as [_ Hs].
  rewrite List.Forall_forall in Hs.
  apply (Hs (S h, Continuous01)). apply in_map_iff. exists h.
  split; [reflexivity |]. apply in_seq. unfold npms. lia.
Qed.

(** The min-cost objective is not negative at a feasible point. *)
Lemma spec_min_cost_nonneg (inp : allocation_input) (sigma : var -> Qc) :
  not_negative inp -> feasible (build inp) sigma ->
  0 <= spec_min_cost inp sigma.
Proof.
  intros (HE & HP & Hw & Ha & Hm) Hf. unfold spec_min_cost, sum_upto.
  apply qsum_nonneg. intros h Hh. apply in_seq in Hh.
  assert (Hx := feasible_binary_x definitely_greater inp sigma h Hf
                  ltac:(lia)).
  destruct (feasible_share inp sigma h Hf ltac:(lia)) as [Hs0 _].
  destruct (min_max_power _ _ (g inp h) HP) as [Hlo Hhi].
  pose proof (nth_nonneg _ (pm_owner inp h) HE) as He. fold (at1 0
    (in_cips_electricity_cost inp) (pm_owner inp h)) in He.
  pose proof (at2_nonneg _ (pm_owner inp h) (g inp h) Hw) as Hwk.
  pose proof (at2_nonneg _ (pm_owner inp h) (g inp h) Ha) as Has.
  assert (Ho : 0 <= of_bool (at1 false (in_pm_power_states inp) h) /\
               of_bool (at1 false (in_pm_power_states inp) h) <= 1).
  { destruct (at1 false (in_pm_power_states inp) h); simpl;
      split; qc_lra. }
  destruct Ho as [Ho0 Ho1].
  assert (Hx0 : 0 <= sigma (X h) /\ sigma (X h) <= 1).
  { destruct Hx as [-> | ->]; split; qc_lra. }
  destruct Hx0 as [Hx0 Hx1].
  assert (Hd : 0 <= at1 0 (in_pm_specs_max_power inp) (g inp h)
                    - at1 0 (in_pm_specs_min_power inp) (g inp h))
    by qc_lra.
  assert (H1x : 0 <= 1 - sigma (X h)) by qc_lra.
  assert (H1o : 0 <= 1 - of_bool (at1 false (in_pm_power_states inp) h))
    by qc_lra.
  assert (Hk : (0 : Qc) <= Q2Qc (1 # 1000)) by (vm_compute; discriminate).
  repeat apply nn_add.
  - repeat apply Qcmult_nonneg_nonneg; try assumption.
    apply nn_add; apply Qcmult_nonneg_nonneg; assumption.
  - repeat apply Qcmult_nonneg_nonneg; assumption.
  - repeat apply Qcmult_nonneg_nonneg; assumption.
  - apply qsum_nonneg. intros v Hv. apply in_seq in Hv.
    apply Qcmult_nonneg_nonneg.
    + destruct (feasible_binary_y definitely_greater inp sigma v h Hf
                  ltac:(lia) ltac:(lia)) as [-> | ->]; qc_lra.
    + now apply at3_nonneg.
Qed.

(** X26.  In the min-cost mode, the cost of a solved placement is finite
    and not negative when no price, cost or power of the input is negative
    and every PM type draws at least as much at full load as when idle,
    for a back-end that keeps its contract. *)
Theorem solved_cost_is_not_negative
    (inp : allocation_input) (r : solver_result)
    (oa : optimal_allocation_info) :
  in_min_power inp = false ->
  not_negative inp ->
  solve (build inp) = Some r ->
  solver_contract (build inp) r ->
  find inp = Some oa -> solved oa = true ->
  exists c, cost oa = Fin c /\ 0 <= c.
Proof.
  intros Hmp Hnn Hr [Hc1 Hc2] Hfind Hsolved.
  destruct (find_solved_inv definitely_greater be solve inp r oa Hr Hc1
              Hfind Hsolved) as (Hsol & sol & -> & Hobj).
  destruct (Hc2 Hsol) as [Hfeas Hval].
  exists (spec_min_cost inp (sr_value r)). split.
  - rewrite read_solution_cost_min_cost by exact Hmp.
    rewrite Hobj, Hval. simpl. unfold objective. rewrite Hmp.
    now rewrite eval_objective_min_cost.
  - now apply spec_min_cost_nonneg.
Qed.

End CostSign.

Section AllocationShape.

Import Solver Records.

Variable definitely_greater : real -> real -> bool.
Variable be : backend.
Variable solve : milp -> option solver_result.

Local Abbreviation build := (build_model definitely_greater).
Local Abbreviation find := (find_optimal_allocation definitely_greater be solve).

Lemma read_solution_vectors (inp : allocation_input) (r : solver_result)
    (sol : optimal_allocation_info) :
  let oa := read_solution be inp r sol in
  length (pm_power_states oa) = in_npms inp /\
  has_shape (in_npms inp) (in_nvms inp) (pm_vm_allocations oa) /\
  (forall h v, (h < in_npms inp)%nat -> (v < in_nvms inp)%nat ->
     powered oa h = to_bool be (sr_value r (X h)) /\
     placed oa h v = to_bool be (sr_value r (Y v h))) /\
  kwatt oa = kwatt sol /\ objective_value oa = objective_value sol /\
  optimal oa = optimal sol.
Proof.
  cbv zeta. unfold read_solution, powered, placed, at1, at2, npms, nvms.
  simpl. split; [now rewrite length_map, length_seq |]. split.
  - split; [now rewrite length_map, length_seq |].
    apply List.Forall_forall. intros row Hrow.
    apply in_map_iff in Hrow as (h & <- & _).
    now rewrite length_map, length_seq.
  - split; [| repeat split]. intros h v Hh Hv. split.
    + now rewrite (nth_map_seq _ _ _ _ Hh).
    + rewrite (nth_map_seq _ _ _ _ Hh). now rewrite (nth_map_seq _ _ _ _ Hv).
Qed.

(** X27.  What [find_optimal_allocation] returns.  With the status optimal
    or feasible the power states have one entry per PM and the placement
    is a matrix with one row per PM and one column per VM, entry [h][v]
    being the variable [y[v][h]] read back, and the objective value is the
    one the back-end reports; with any other status both vectors are
    empty, the allocation is not optimal and its objective value and cost
    are infinite.  The energy consumption is infinite in both cases: it is
    not computed here. *)
Theorem returned_allocation_vectors
    (inp : allocation_input) (r : solver_result)
    (oa : optimal_allocation_info) :
  solve (build inp) = Some r -> find inp = Some oa ->
  kwatt oa = PInf /\
  (has_solution r ->
   length (pm_power_states oa) = in_npms inp /\
   has_shape (in_npms inp) (in_nvms inp) (pm_vm_allocations oa) /\
   (forall h v, (h < in_npms inp)%nat -> (v < in_nvms inp)%nat ->
      powered oa h = to_bool be (sr_value r (X h)) /\
      placed oa h v = to_bool be (sr_value r (Y v h))) /\
   objective_value oa = Fin (sr_objval r) /\
   (optimal oa = true <-> sr_status r = Optimal)) /\
  (~ has_solution r ->
   pm_power_states oa = [] /\ pm_vm_allocations oa = [] /\
   optimal oa = false /\ objective_value oa = PInf /\ cost oa = PInf).
Proof.
  intros Hr Hfind. unfold find_optimal_allocation in Hfind.
  rewrite Hr in Hfind. unfold has_solution.
  destruct (sr_status r) eqn:Hst; inversion Hfind; subst oa; clear Hfind;
    try (split; [reflexivity |]; split;
         [intros [? | ?]; discriminate | intros _; repeat split; reflexivity]).
  - match goal with
    | |- context [read_solution be inp r ?sol] =>
        destruct (read_solution_vectors inp r sol)
          as (H1 & H2 & H3 & H4 & H5 & H6)
    end.
    split; [exact H4 |]. split; [| intros H; exfalso; apply H; now left].
    intros _. split; [exact H1 |]. split; [exact H2 |].
    split; [exact H3 |]. split; [exact H5 |].
    rewrite H6. simpl. tauto.
  - match goal with
    | |- context [read_solution be inp r ?sol] =>
        destruct (read_solution_vectors inp r sol)
          as (H1 & H2 & H3 & H4 & H5 & H6)
    end.
    split; [exact H4 |]. split; [| intros H; exfalso; apply H; now right].
    intros _. split; [exact H1 |]. split; [exact H2 |].
    split; [exact H3 |]. split; [exact H5 |].
    rewrite H6. simpl. split; discriminate.
Qed.

End AllocationShape.

(** * Closed instances of the further properties *)

Lemma records_keep_core_flags_and_no_identifier_witness :
  Cases.analysis Sample.scen Cases.social = Some Cases.formed_social /\
  forall ci,
    Formation.fc_coalitions Cases.formed_social !! 2%N = Some ci ->
    Evaluator.cid ci = 0%N /\
    (Evaluator.payoffs_in_core ci = true -> Evaluator.core_empty ci = false).
Proof.
  assert (H : Cases.analysis Sample.scen Cases.social
              = Some Cases.formed_social) by (vm_compute; reflexivity).
  split; [exact H |]. intros ci Hci.
  exact (records_keep_core_flags_and_no_identifier
           Sample.dg Sample.dl Cases.same Solver.CPLEX Sample.backend_answers
           Sample.no_core Sample.alone_division Sample.not_in_core
           Sample.scen Cases.social Cases.formed_social 2%N ci H Hci).
Defined.

Lemma every_coalition_has_one_record_witness :
  Cases.analysis Sample.scen Cases.social = Some Cases.formed_social /\
  size (Formation.fc_coalitions Cases.formed_social)
  = (2 ^ num_cips Sample.scen - 1)%nat.
Proof.
  assert (H : Cases.analysis Sample.scen Cases.social
              = Some Cases.formed_social) by (vm_compute; reflexivity).
  split; [exact H |].
  exact (proj2 (every_coalition_has_one_record
                  Sample.dg Sample.dl Cases.same Solver.CPLEX
                  Sample.backend_answers Sample.no_core Sample.alone_division
                  Sample.not_in_core Sample.scen Cases.social
                  Cases.formed_social H)).
Defined.

Lemma kwatt_is_the_power_of_the_switched_on_pms_witness :
  NoDup [1%nat] /\
  Evaluator.tot_kwatt Sample.scen [1%nat] Sample.allocation_1
  = Solver.sum_upto (Solver.in_npms Sample.input_1)
      (fun p =>
         if Solver.powered Sample.allocation_1 p
         then Solver.pm_consumed_power
                (at1 0 (pm_spec_min_powers Sample.scen)
                   (Solver.g Sample.input_1 p))
                (at1 0 (pm_spec_max_powers Sample.scen)
                   (Solver.g Sample.input_1 p))
                (Solver.used_share Sample.input_1 (vm_spec_cpus Sample.scen)
                   Sample.allocation_1 p)
         else 0)
    * Q2Qc (1 # 1000).
Proof.
  assert (H : NoDup [1%nat]) by by_computation.
  split; [exact H |].
  exact (kwatt_is_the_power_of_the_switched_on_pms Sample.scen
           Evaluator.new_options [1%nat] Sample.allocation_1 H).
Defined.

Lemma social_selector_is_stuck_on_a_nan_start_witness :
  Formation.candidate_partition_value Sample.needs_partner
    [[0%nat]; [1%nat]] = NaN /\
  Formation.social_run Sample.dg Cases.same Sample.needs_partner
    [[[0%nat]; [1%nat]]; [[0%nat; 1%nat]]] (Fin 0, [])
  = (NaN, [Selectors.candidate Sample.needs_partner [[0%nat]; [1%nat]]]).
Proof.
  assert (H : Formation.candidate_partition_value Sample.needs_partner
                [[0%nat]; [1%nat]] = NaN) by (vm_compute; reflexivity).
  split; [exact H |].
  apply (social_selector_is_stuck_on_a_nan_start Sample.dg Cases.same
           Sample.needs_partner [[0%nat]; [1%nat]] [[[0%nat; 1%nat]]]).
  - intros []; reflexivity.
  - intros []; reflexivity.
  - exact H.
Defined.

Lemma pareto_selector_takes_the_first_partition_witness :
  Selectors.pareto_run Sample.uneven [0%nat; 1%nat] (replicate 2 NaN, [])
    [[[0%nat; 1%nat]]; [[0%nat]; [1%nat]]]
  = Some Cases.pareto_uneven /\
  exists tail,
    snd Cases.pareto_uneven
    = Selectors.candidate Sample.uneven [[0%nat; 1%nat]] :: tail.
Proof.
  assert (H : Selectors.pareto_run Sample.uneven [0%nat; 1%nat]
                (replicate 2 NaN, [])
                [[[0%nat; 1%nat]]; [[0%nat]; [1%nat]]]
              = Some Cases.pareto_uneven) by (vm_compute; reflexivity).
  split; [exact H |].
  exact (pareto_selector_takes_the_first_partition Sample.uneven
           [0%nat; 1%nat] [[0%nat; 1%nat]] [[[0%nat]; [1%nat]]]
           Cases.pareto_uneven H).
Defined.

Lemma merge_split_keeps_a_single_block_witness :
  Sample.better_apart !! Evaluator.make_id [0%nat; 1%nat]
  = Some Cases.together /\
  (Evaluator.make_id [0%nat; 1%nat] < 2 ^ N.of_nat 2)%N /\
  Selectors.merge_split_stable Cases.never_less Sample.better_apart
    Selectors.lexicographic_partitions Selectors.lexicographic_subranges
    2 [[0%nat; 1%nat]]
  = Some (Selectors.candidate Sample.better_apart [[0%nat; 1%nat]]).
Proof.
  assert (H : Sample.better_apart !! Evaluator.make_id [0%nat; 1%nat]
              = Some Cases.together) by (vm_compute; reflexivity).
  assert (Hid : (Evaluator.make_id [0%nat; 1%nat] < 2 ^ N.of_nat 2)%N)
    by (vm_compute; reflexivity).
  split; [exact H | split; [exact Hid |]].
  exact (merge_split_keeps_a_single_block Cases.never_less
           Sample.better_apart (fun _ => eq_refl) 2 [0%nat; 1%nat]
           Cases.together H Hid).
Defined.

Lemma solved_cost_is_not_negative_witness :
  Prices.not_negative Sample.input_1 /\
  Solver.solved Sample.allocation_1 = true /\
  exists c, Solver.cost Sample.allocation_1 = Fin c /\ 0 <= c.
Proof.
  assert (Hnn : Prices.not_negative Sample.input_1) by by_computation.
  split; [exact Hnn | split; [reflexivity |]].
  apply (solved_cost_is_not_negative Sample.dg Solver.CPLEX
           Sample.backend_answers Sample.input_1
           (Solver.mk_solver_result true Solver.Optimal 1 Sample.one_on_one)
           Sample.allocation_1).
  - reflexivity.
  - exact Hnn.
  - reflexivity.
  - by_computation.
  - vm_compute. reflexivity.
  - reflexivity.
Defined.

Lemma returned_allocation_vectors_witness :
  Solver.find_optimal_allocation Sample.dg Solver.CPLEX
    Sample.backend_answers Sample.input_1 = Some Sample.allocation_1 /\
  Solver.kwatt Sample.allocation_1 = PInf.
Proof.
  assert (H : Solver.find_optimal_allocation Sample.dg Solver.CPLEX
                Sample.backend_answers Sample.input_1
              = Some Sample.allocation_1) by (vm_compute; reflexivity).
  split; [exact H |].
  exact (proj1 (returned_allocation_vectors Sample.dg Solver.CPLEX
                  Sample.backend_answers Sample.input_1
                  (Solver.mk_solver_result true Solver.Optimal 1
                     Sample.one_on_one)
                  Sample.allocation_1 eq_refl H)).
Defined.
